(** * gh-import-issues: a shallow embedding of [scripts/gh-import-issues.py]

    The script imports issues from a CSV file by shelling out to the [gh]
    command line tool.  Everything the script does to the outside world goes
    through [run] (a subprocess), [print], [time.sleep] and the file system;
    the embedding makes these explicit:

    - text is a [string] whose characters stand for the code points below 256
      of a Python [str];
    - a subprocess call is answered by a [remote], a function of the history
      of the run and of the command, and is logged together with its answer;
    - Python exceptions are a result [Raise e]; [KeyboardInterrupt] is the one
      exception that [except Exception] does not catch, and it is raised
      while the script waits for a subprocess;
    - the [gh] executable exists, so that starting a subprocess does not
      itself raise;
    - floating point seconds are rationals ([Q]): the value of a float that
      is a number; an infinite duration behaves as one beyond the limit of
      [time.sleep], and a [nan], which compares false with everything, as a
      delay that is not positive and a base delay that is not above 0.1;
    - [argparse] and [csv.reader] are outside: [main] is given the parsed
      arguments and, for a path, the lines of cells that [csv.reader]
      yields. *)

From Stdlib Require Import ZArith List String Ascii Bool Lia QArith DecimalString.
From stdpp Require Import base gmap strings.
Import ListNotations.
Open Scope string_scope.
Open Scope list_scope.
Open Scope Z_scope.

(** ** Python built-ins on text *)

Definition ord (c : ascii) : nat := nat_of_ascii c.
Definition chr (n : nat) : ascii := ascii_of_nat n.

(** The double quote, code point 34. *)
Definition dquote : ascii := Ascii false true false false false true false false.

(** Writes a text with single quotes where the text has double quotes, so
    that JSON texts can be spelled out as literals. *)
Fixpoint dq (s : string) : string :=
  match s with
  | EmptyString => EmptyString
  | String c r => String (if (ord c =? 39)%nat then dquote else c) (dq r)
  end.

Definition in_range (lo hi n : nat) : bool := ((lo <=? n) && (n <=? hi))%nat.

(** [str.lower] on one character: A-Z, and the Latin-1 capitals
    U+00C0..U+00DE except the multiplication sign U+00D7. *)
Definition char_lower (c : ascii) : ascii :=
  let n := ord c in
  if in_range 65 90 n || (in_range 192 222 n && negb (n =? 215)%nat)
  then chr (n + 32) else c.

Fixpoint str_lower (s : string) : string :=
  match s with
  | EmptyString => EmptyString
  | String c r => String (char_lower c) (str_lower r)
  end.

(** [c.isspace()] for code points below 256. *)
Definition is_space (c : ascii) : bool :=
  let n := ord c in
  in_range 9 13 n || in_range 28 32 n || (n =? 133)%nat || (n =? 160)%nat.

Definition str_empty (s : string) : bool :=
  match s with EmptyString => true | String _ _ => false end.

Fixpoint str_lstrip (s : string) : string :=
  match s with
  | EmptyString => EmptyString
  | String c r => if is_space c then str_lstrip r else s
  end.

Fixpoint str_rstrip (s : string) : string :=
  match s with
  | EmptyString => EmptyString
  | String c r =>
      let r' := str_rstrip r in
      if is_space c && str_empty r' then EmptyString else String c r'
  end.

(** [s.strip()] *)
Definition str_strip (s : string) : string := str_rstrip (str_lstrip s).

(** [tok in s] *)
Fixpoint str_contains (tok s : string) : bool :=
  String.prefix tok s ||
  match s with
  | EmptyString => false
  | String _ r => str_contains tok r
  end.

(** [s.split(sep)] for a one-character separator. *)
Fixpoint str_split (sep : ascii) (s : string) : list string :=
  match s with
  | EmptyString => [EmptyString]
  | String c r =>
      if Ascii.eqb c sep then EmptyString :: str_split sep r
      else match str_split sep r with
           | h :: t => String c h :: t
           | [] => [String c EmptyString]
           end
  end.

(** [s.split(sep, 1)] *)
Fixpoint str_split1 (sep : ascii) (s : string) : list string :=
  match s with
  | EmptyString => [EmptyString]
  | String c r =>
      if Ascii.eqb c sep then [EmptyString; r]
      else match str_split1 sep r with
           | h :: t => String c h :: t
           | [] => [String c EmptyString]
           end
  end.

(** Line boundaries of [str.splitlines] below 256: LF, VT, FF, CR, FS, GS,
    RS and NEL; CR LF counts once. *)
Definition is_linebreak (c : ascii) : bool :=
  let n := ord c in
  in_range 10 13 n || in_range 28 30 n || (n =? 133)%nat.

Fixpoint splitlines_from (cur s : string) : list string :=
  match s with
  | EmptyString => if str_empty cur then [] else [cur]
  | String c r =>
      if is_linebreak c then
        match r with
        | String c' r' =>
            if ((ord c =? 13)%nat && (ord c' =? 10)%nat)%bool
            then cur :: splitlines_from EmptyString r'
            else cur :: splitlines_from EmptyString r
        | EmptyString => cur :: splitlines_from EmptyString r
        end
      else splitlines_from (cur +:+ String c EmptyString) r
  end.

(** [s.splitlines()] *)
Definition str_splitlines (s : string) : list string := splitlines_from EmptyString s.

(** [sep.join(l)] *)
Definition str_join (sep : string) (l : list string) : string := String.concat sep l.

(** [str(n)] for an [int]. *)
Definition str_of_int (z : Z) : string := NilZero.string_of_int (Z.to_int z).

Definition is_ascii_digit (c : ascii) : bool := in_range 48 57 (ord c).

(** [c.isdigit()] below 256: the ASCII digits and the superscripts
    U+00B2, U+00B3, U+00B9. *)
Definition char_isdigit (c : ascii) : bool :=
  let n := ord c in
  is_ascii_digit c || (n =? 178)%nat || (n =? 179)%nat || (n =? 185)%nat.

Fixpoint str_forallb (p : ascii -> bool) (s : string) : bool :=
  match s with
  | EmptyString => true
  | String c r => p c && str_forallb p r
  end.

(** [s.isdigit()] *)
Definition str_isdigit (s : string) : bool :=
  negb (str_empty s) && str_forallb char_isdigit s.

Fixpoint digits_value (acc : Z) (s : string) : Z :=
  match s with
  | EmptyString => acc
  | String c r => digits_value (10 * acc + Z.of_nat (ord c - 48)) r
  end.

(** ** JSON values and Python's [json] module

    [json.loads] and [json.dumps] belong to the Python library.  They are
    modelled on the part of JSON that the GitHub API emits: numbers are
    integers (a literal with a fraction or an exponent, [NaN] and [Infinity]
    decode to Python floats, which this model does not represent and
    reports as undecodable), and a [\uXXXX] escape denotes a code point
    below 256.  An object is a list of members with distinct keys, in
    insertion order, as a Python [dict]. *)

#[warnings="-register-all"] Inductive json : Type :=
| JNull
| JBool (b : bool)
| JInt (z : Z)
| JStr (s : string)
| JList (l : list json)
| JDict (l : list (string * json)).

(** A Python [dict] whose iteration order matters, as an association list
    with distinct keys: [d[k] = v] replaces in place or appends. *)
Section Dict.
Context {K V : Type} (eqb : K -> K -> bool).

Fixpoint assoc_set (k : K) (v : V) (d : list (K * V)) : list (K * V) :=
  match d with
  | [] => [(k, v)]
  | (k', v') :: t => if eqb k k' then (k, v) :: t else (k', v') :: assoc_set k v t
  end.

Fixpoint assoc_get (k : K) (d : list (K * V)) : option V :=
  match d with
  | [] => None
  | (k', v) :: t => if eqb k k' then Some v else assoc_get k t
  end.
End Dict.

(** [d[k] = v] and [d.get(k)] on a decoded JSON object. *)
Definition dict_set (k : string) (v : json) (d : list (string * json)) : list (string * json) :=
  assoc_set String.eqb k v d.

Definition dict_get (k : string) (d : list (string * json)) : option json :=
  assoc_get String.eqb k d.

Definition is_json_ws (c : ascii) : bool :=
  let n := ord c in
  (n =? 32)%nat || (n =? 9)%nat || (n =? 10)%nat || (n =? 13)%nat.

Fixpoint skip_ws (s : string) : string :=
  match s with
  | EmptyString => EmptyString
  | String c r => if is_json_ws c then skip_ws r else s
  end.

Definition hex_value (c : ascii) : option nat :=
  let n := ord c in
  if in_range 48 57 n then Some (n - 48)%nat
  else if in_range 97 102 n then Some (n - 87)%nat
  else if in_range 65 70 n then Some (n - 55)%nat
  else None.

Definition hex4 (a b c d : ascii) : option nat :=
  match hex_value a, hex_value b, hex_value c, hex_value d with
  | Some x, Some y, Some z, Some w => Some (((x * 16 + y) * 16 + z) * 16 + w)%nat
  | _, _, _, _ => None
  end.

Definition cons_char (c : ascii) (r : option (string * string)) : option (string * string) :=
  match r with
  | Some (s, rest) => Some (String c s, rest)
  | None => None
  end.

(** The body of a string literal, after its opening quote. *)
Fixpoint scan_string (s : string) : option (string * string) :=
  match s with
  | EmptyString => None
  | String c r =>
      if (ord c =? 34)%nat then Some (EmptyString, r)
      else if (ord c =? 92)%nat then
        match r with
        | EmptyString => None
        | String e r1 =>
            match e with
            | "u"%char =>
                match r1 with
                | String h1 (String h2 (String h3 (String h4 r2))) =>
                    match hex4 h1 h2 h3 h4 with
                    | Some n => if (n <? 256)%nat then cons_char (chr n) (scan_string r2) else None
                    | None => None
                    end
                | _ => None
                end
            | "\"%char => cons_char e (scan_string r1)
            | "/"%char => cons_char e (scan_string r1)
            | "b"%char => cons_char (chr 8) (scan_string r1)
            | "f"%char => cons_char (chr 12) (scan_string r1)
            | "n"%char => cons_char (chr 10) (scan_string r1)
            | "r"%char => cons_char (chr 13) (scan_string r1)
            | "t"%char => cons_char (chr 9) (scan_string r1)
            | _ => if (ord e =? 34)%nat then cons_char e (scan_string r1) else None
            end
        end
      else if (ord c <? 32)%nat then None
      else cons_char c (scan_string r)
  end.

Fixpoint take_digits (s : string) : string * string :=
  match s with
  | EmptyString => (EmptyString, EmptyString)
  | String c r =>
      if is_ascii_digit c then let (d, rest) := take_digits r in (String c d, rest)
      else (EmptyString, s)
  end.

Definition starts_float_tail (s : string) : bool :=
  match s with
  | String c _ => (ord c =? 46)%nat || (ord c =? 101)%nat || (ord c =? 69)%nat
  | EmptyString => false
  end.

(** An integer literal [0] or [[1-9][0-9]*] without sign. *)
Definition scan_nat (s : string) : option (Z * string) :=
  match s with
  | String c r =>
      if (ord c =? 48)%nat then
        if starts_float_tail r then None else Some (0, r)
      else if is_ascii_digit c then
        let (d, rest) := take_digits s in
        if starts_float_tail rest then None else Some (digits_value 0 d, rest)
      else None
  | EmptyString => None
  end.

Definition scan_number (s : string) : option (json * string) :=
  match s with
  | String "-"%char r =>
      match scan_nat r with
      | Some (n, rest) => Some (JInt (- n), rest)
      | None => None
      end
  | _ =>
      match scan_nat s with
      | Some (n, rest) => Some (JInt n, rest)
      | None => None
      end
  end.

Section Containers.
Variable scan : string -> option (json * string).

(** Elements of an array after the first one has been found to exist. *)
Fixpoint scan_elems (n : nat) (s : string) : option (list json * string) :=
  match n with
  | O => None
  | S n' =>
      match scan s with
      | None => None
      | Some (v, r) =>
          match skip_ws r with
          | String "]"%char r' => Some ([v], r')
          | String ","%char r' =>
              match scan_elems n' (skip_ws r') with
              | Some (vs, r'') => Some (v :: vs, r'')
              | None => None
              end
          | _ => None
          end
      end
  end.

(** Members of an object; [s] starts at the quote of a key. *)
Fixpoint scan_members (n : nat) (acc : list (string * json)) (s : string)
  : option (list (string * json) * string) :=
  match n with
  | O => None
  | S n' =>
      match s with
      | String c r =>
          if negb (ord c =? 34)%nat then None else
          match scan_string r with
          | None => None
          | Some (k, r1) =>
              match skip_ws r1 with
              | String ":"%char r2 =>
                  match scan (skip_ws r2) with
                  | None => None
                  | Some (v, r3) =>
                      let acc' := dict_set k v acc in
                      match skip_ws r3 with
                      | String "}"%char r4 => Some (acc', r4)
                      | String ","%char r4 => scan_members n' acc' (skip_ws r4)
                      | _ => None
                      end
                  end
              | _ => None
              end
          end
      | EmptyString => None
      end
  end.
End Containers.

Fixpoint scan_value (fuel : nat) (s : string) : option (json * string) :=
  match fuel with
  | O => None
  | S f =>
      match s with
      | String "n"%char (String "u"%char (String "l"%char (String "l"%char r))) => Some (JNull, r)
      | String "t"%char (String "r"%char (String "u"%char (String "e"%char r))) => Some (JBool true, r)
      | String "f"%char (String "a"%char (String "l"%char (String "s"%char (String "e"%char r)))) =>
          Some (JBool false, r)
      | String "["%char r =>
          match skip_ws r with
          | String "]"%char r' => Some (JList [], r')
          | r1 =>
              match scan_elems (scan_value f) (String.length r1) r1 with
              | Some (vs, rest) => Some (JList vs, rest)
              | None => None
              end
          end
      | String "{"%char r =>
          match skip_ws r with
          | String "}"%char r' => Some (JDict [], r')
          | r1 =>
              match scan_members (scan_value f) (String.length r1) [] r1 with
              | Some (ms, rest) => Some (JDict ms, rest)
              | None => None
              end
          end
      | String c r =>
          if (ord c =? 34)%nat then
            match scan_string r with
            | Some (t, rest) => Some (JStr t, rest)
            | None => None
            end
          else scan_number s
      | EmptyString => None
      end
  end.

(** [json.loads(s)]; [None] stands for [json.JSONDecodeError]. *)
Definition json_loads (s : string) : option json :=
  match scan_value (S (String.length s)) (skip_ws s) with
  | Some (v, rest) => if str_empty (skip_ws rest) then Some v else None
  | None => None
  end.

Definition hex_digit (n : nat) : ascii :=
  if (n <? 10)%nat then chr (48 + n) else chr (87 + n).

(** One character of a string under [ensure_ascii=True]. *)
Definition json_escape_char (c : ascii) : string :=
  let n := ord c in
  if (n =? 34)%nat then String "\"%char (String dquote EmptyString)
  else if (n =? 92)%nat then "\\"
  else if (n =? 10)%nat then "\n"
  else if (n =? 13)%nat then "\r"
  else if (n =? 9)%nat then "\t"
  else if (n =? 8)%nat then "\b"
  else if (n =? 12)%nat then "\f"
  else if in_range 32 126 n then String c EmptyString
  else "\u00" +:+ String (hex_digit (n / 16)) (String (hex_digit (n mod 16)) EmptyString).

Fixpoint json_escape (s : string) : string :=
  match s with
  | EmptyString => EmptyString
  | String c r => json_escape_char c +:+ json_escape r
  end.

Definition json_quote (s : string) : string :=
  String dquote (json_escape s +:+ String dquote EmptyString).

Definition newline : string := String (chr 10) EmptyString.

Fixpoint spaces (n : nat) : string :=
  match n with
  | O => EmptyString
  | S n' => String " "%char (spaces n')
  end.

(** Line break and indentation in front of an item at nesting [level];
    empty when no [indent] is asked for. *)
Definition json_break (indent : option nat) (level : nat) : string :=
  match indent with
  | None => EmptyString
  | Some w => newline +:+ spaces (w * level)
  end.

Definition json_item_sep (indent : option nat) (level : nat) : string :=
  match indent with
  | None => ", "
  | Some _ => "," +:+ json_break indent level
  end.

Fixpoint json_dumps_at (indent : option nat) (level : nat) (v : json) : string :=
  match v with
  | JNull => "null"
  | JBool true => "true"
  | JBool false => "false"
  | JInt z => str_of_int z
  | JStr s => json_quote s
  | JList [] => "[]"
  | JList l =>
      "[" +:+ json_break indent (S level)
      +:+ str_join (json_item_sep indent (S level)) (map (json_dumps_at indent (S level)) l)
      +:+ json_break indent level +:+ "]"
  | JDict [] => "{}"
  | JDict l =>
      "{" +:+ json_break indent (S level)
      +:+ str_join (json_item_sep indent (S level))
            (map (fun kv => json_quote (fst kv) +:+ ": " +:+ json_dumps_at indent (S level) (snd kv)) l)
      +:+ json_break indent level +:+ "}"
  end.

(** [json.dumps(v)] and [json.dumps(v, indent=w)] *)
Definition json_dumps (indent : option nat) (v : json) : string := json_dumps_at indent 0 v.

(** ** Python values: [str(v)], [repr(v)] and [int(v)] *)

(** [c.isprintable()] below 256. *)
Definition char_isprintable (c : ascii) : bool :=
  let n := ord c in
  in_range 32 126 n || (in_range 161 255 n && negb (n =? 173)%nat).

Definition repr_char (quote : ascii) (c : ascii) : string :=
  let n := ord c in
  if (n =? 92)%nat then "\\"
  else if Ascii.eqb c quote then String "\"%char (String c EmptyString)
  else if (n =? 10)%nat then "\n"
  else if (n =? 13)%nat then "\r"
  else if (n =? 9)%nat then "\t"
  else if char_isprintable c then String c EmptyString
  else "\x" +:+ String (hex_digit (n / 16)) (String (hex_digit (n mod 16)) EmptyString).

Fixpoint repr_chars (quote : ascii) (s : string) : string :=
  match s with
  | EmptyString => EmptyString
  | String c r => repr_char quote c +:+ repr_chars quote r
  end.

Definition squote : ascii := "'"%char.

Definition has_char (c : ascii) (s : string) : bool :=
  str_contains (String c EmptyString) s.

(** [repr(s)] for a [str]. *)
Definition repr_str (s : string) : string :=
  let quote := if has_char squote s && negb (has_char dquote s) then dquote else squote in
  String quote (repr_chars quote s +:+ String quote EmptyString).

(** [repr(v)] for a decoded JSON value. *)
Fixpoint py_repr (v : json) : string :=
  match v with
  | JNull => "None"
  | JBool true => "True"
  | JBool false => "False"
  | JInt z => str_of_int z
  | JStr s => repr_str s
  | JList l => "[" +:+ str_join ", " (map py_repr l) +:+ "]"
  | JDict l =>
      "{" +:+ str_join ", " (map (fun kv => repr_str (fst kv) +:+ ": " +:+ py_repr (snd kv)) l) +:+ "}"
  end.

(** [str(v)] *)
Definition py_str (v : json) : string :=
  match v with
  | JStr s => s
  | _ => py_repr v
  end.

Definition py_type_name (v : json) : string :=
  match v with
  | JNull => "NoneType"
  | JBool _ => "bool"
  | JInt _ => "int"
  | JStr _ => "str"
  | JList _ => "list"
  | JDict _ => "dict"
  end.

(** Digits with single underscores between them, as [int] accepts. *)
Fixpoint int_digits (acc : Z) (after_digit : bool) (s : string) : option Z :=
  match s with
  | EmptyString => if after_digit then Some acc else None
  | String c r =>
      if is_ascii_digit c then int_digits (10 * acc + Z.of_nat (ord c - 48)) true r
      else if ((ord c =? 95)%nat && after_digit)%bool then
        match r with
        | String c' _ => if is_ascii_digit c' then int_digits acc false r else None
        | EmptyString => None
        end
      else None
  end.

(** [int(s)] for a [str]; [None] stands for [ValueError]. *)
Definition int_of_str (s : string) : option Z :=
  match str_strip s with
  | String "-"%char r => option_map Z.opp (int_digits 0 false r)
  | String "+"%char r => int_digits 0 false r
  | r => int_digits 0 false r
  end.

(** ** Exceptions, the log of a run and the monad of the script *)

Inductive exn_class : Type :=
| RuntimeError
| ValueError
| JSONDecodeError
| KeyError
| TypeError
| AttributeError
| OverflowError
| KeyboardInterrupt.

Record exn : Type := Exn { exn_kind : exn_class; exn_text : string }.

(** [isinstance(e, Exception)]: everything but [KeyboardInterrupt]. *)
Definition is_Exception (e : exn) : bool :=
  match exn_kind e with
  | KeyboardInterrupt => false
  | _ => true
  end.

(** The texts of the exceptions that the interpreter and the library raise
    depend on the Python version; the ones below are those of CPython 3.12,
    without the message and the position that a decode error reports.
    [create_issue_with_retry] searches that text for its markers, digits
    included: what it does after an answer that does not decode is
    therefore not told by the embedding, and no property below is about
    that case. *)
Definition decode_error : exn := Exn JSONDecodeError "Expecting value".
Definition key_error (k : string) : exn := Exn KeyError (repr_str k).
Definition not_subscriptable (v : json) : exn :=
  Exn TypeError ("'" +:+ py_type_name v +:+ "' object is not subscriptable").
Definition bad_index (v : json) : exn :=
  Exn TypeError
      (match v with
       | JStr _ => "string indices must be integers, not 'str'"
       | _ => py_type_name v +:+ " indices must be integers or slices, not str"
       end).
Definition no_attribute (v : json) (a : string) : exn :=
  Exn AttributeError ("'" +:+ py_type_name v +:+ "' object has no attribute '" +:+ a +:+ "'").
Definition int_type_error (v : json) : exn :=
  Exn TypeError ("int() argument must be a string, a bytes-like object or a real number, not '"
                 +:+ py_type_name v +:+ "'").
Definition int_value_error (s : string) : exn :=
  Exn ValueError ("invalid literal for int() with base 10: " +:+ repr_str s).
Definition lower_type_error (v : json) : exn :=
  Exn TypeError ("descriptor 'lower' for 'str' objects doesn't apply to a '"
                 +:+ py_type_name v +:+ "' object").
Definition unpack_error : exn :=
  Exn ValueError "not enough values to unpack (expected 2, got 1)".

(** What the [gh] process answers: exit code, standard output and standard
    error, unless the user interrupts the script while it waits. *)
Inductive reply : Type :=
| Reply (code : Z) (out err : string)
| Interrupted.

(** What a run does, in order.  A line printed is logged without its final
    newline; the retry notice and the progress bar format floating point
    numbers and are logged by their arguments. *)
Inductive event : Type :=
| Call (cmd : list string) (input : option string) (r : reply)
| Stdout (line : string)
| Stderr (line : string)
| RetryNotice (attempt retries : Z) (e : exn) (sleep_for : Q)
| Sleep (seconds : Q)
| Progress (done total : Z) (title : option string).

(** The remote side: the answer to a command, given the run so far. *)
Definition remote : Type := list event -> list string -> option string -> reply.

Inductive res (A : Type) : Type :=
| Ret (a : A)
| Raise (e : exn).
Arguments Ret {A} a.
Arguments Raise {A} e.

(** A computation over a state [St] that returns or raises. *)
Definition M (St A : Type) : Type := St -> res A * St.

Definition ret {St A} (a : A) : M St A := fun s => (Ret a, s).

Definition raise {St A} (e : exn) : M St A := fun s => (Raise e, s).

Definition bind {St A B} (m : M St A) (k : A -> M St B) : M St B :=
  fun s =>
    match m s with
    | (Ret a, s') => k a s'
    | (Raise e, s') => (Raise e, s')
    end.

(** [try: m  except Exception as e: h e] *)
Definition try_except {St A} (m : M St A) (h : exn -> M St A) : M St A :=
  fun s =>
    match m s with
    | (Ret a, s') => (Ret a, s')
    | (Raise e, s') => if is_Exception e then h e s' else (Raise e, s')
    end.

Notation "x <- m ;; k" := (bind m (fun x => k))
  (at level 100, m at next level, right associativity).
Notation "m ;; k" := (bind m (fun _ => k))
  (at level 100, right associativity).

Definition when {St} (b : bool) (m : M St unit) : M St unit :=
  if b then m else ret tt.

(** The helpers of the script only touch the log. *)
Definition T (A : Type) : Type := M (list event) A.

Definition emit (e : event) : T unit := fun tr => (Ret tt, tr ++ [e]).

Definition print (line : string) : T unit := emit (Stdout line).
Definition eprint (line : string) : T unit := emit (Stderr line).

(** [time.sleep(seconds)] first converts the duration to a number of
    nanoseconds in a signed integer of 64 bits: it raises [OverflowError]
    when the duration, about 292 years or more, does not fit, and
    [ValueError] when it is negative; only then does the script wait.  The
    texts are those of CPython 3.11 and 3.12.  (At the limit itself the
    rounding of the float product, and just below it the operating system,
    decide; these durations are taken here at their exact value, and as
    accepted.) *)
Definition sleep_error (seconds : Q) : option exn :=
  let ns := (seconds * inject_Z (10 ^ 9))%Q in
  if Qle_bool (inject_Z (2 ^ 63)) ns || negb (Qle_bool (inject_Z (- 2 ^ 63)) ns) then
    Some (Exn OverflowError "timestamp too large to convert to C _PyTime_t")
  else if negb (Qle_bool 0 seconds) then
    Some (Exn ValueError "sleep length must be non-negative")
  else None.

Definition sleep (seconds : Q) : T unit :=
  match sleep_error seconds with
  | Some e => raise e
  | None => emit (Sleep seconds)
  end.

(** [int(v)] *)
Definition py_int {St} (v : json) : M St Z :=
  match v with
  | JInt z => ret z
  | JBool b => ret (if b then 1 else 0)
  | JStr s =>
      match int_of_str s with
      | Some z => ret z
      | None => raise (int_value_error s)
      end
  | _ => raise (int_type_error v)
  end.

(** [v[k]] *)
Definition py_getitem {St} (v : json) (k : string) : M St json :=
  match v with
  | JDict d =>
      match dict_get k d with
      | Some x => ret x
      | None => raise (key_error k)
      end
  | JList _ | JStr _ => raise (bad_index v)
  | _ => raise (not_subscriptable v)
  end.

(** ** Utilities *)

Definition truthy (s : string) : bool := negb (str_empty s).

(** [x or None] for an optional text: the empty text counts as absent. *)
Definition or_none (o : option string) : option string :=
  match o with
  | Some s => if truthy s then Some s else None
  | None => None
  end.

Definition split_list (cell : string) : list string :=
  if negb (truthy cell) then []
  else List.filter (fun p => truthy p) (map str_strip (str_split ";"%char cell)).

(** ** Data types *)

Record IssueRow : Type := {
  title : string;
  body : string;
  labels : list string;
  assignees : list string;
  milestone : option string;
  project_owner : option string;
  project_number : option Z;
  state : string;
  close_reason : option string
}.

(** ** gh helpers *)

Definition interrupt : exn := Exn KeyboardInterrupt EmptyString.

Definition run (gh : remote) (cmd : list string) (input : option string) : T (Z * string * string) :=
  fun tr =>
    let r := gh tr cmd input in
    (match r with
     | Reply code out err => Ret (code, out, err)
     | Interrupted => Raise interrupt
     end, tr ++ [Call cmd input r]).

Section Helpers.
Variable gh : remote.

Definition gh_json (cmd : list string) : T json :=
  r <- run gh cmd None ;;
  let '(code, out, err) := r in
  if negb (code =? 0) then
    raise (Exn RuntimeError ("Command failed: " +:+ str_join " " cmd +:+ newline +:+ err))
  else
    match json_loads out with
    | Some v => ret v
    | None =>
        raise (Exn RuntimeError
                 ("Failed to parse JSON from: " +:+ str_join " " cmd +:+ newline
                  +:+ "Output was:" +:+ newline +:+ out +:+ newline
                  +:+ "Error: " +:+ exn_text decode_error))
    end.

(** The result is whatever [data["nameWithOwner"]] holds, a text or not. *)
Definition ensure_repo_name_with_owner (repo : option string) : T json :=
  match or_none repo with
  | Some r => ret (JStr r)
  | None =>
      data <- gh_json ["gh"; "repo"; "view"; "--json"; "nameWithOwner"] ;;
      match data with
      | JDict d =>
          match dict_get "nameWithOwner" d with
          | Some v => ret v
          | None =>
              raise (Exn RuntimeError
                       "Could not resolve current repository via `gh repo view`. Pass --repo.")
          end
      | _ =>
          raise (Exn RuntimeError
                   "Could not resolve current repository via `gh repo view`. Pass --repo.")
      end
  end.

(** [item.get("name", "")] for the items that are dicts. *)
Fixpoint label_names (data : list json) : list json :=
  match data with
  | [] => []
  | JDict d :: t =>
      match dict_get "name" d with
      | Some v => v :: label_names t
      | None => JStr EmptyString :: label_names t
      end
  | _ :: t => label_names t
  end.

Definition get_existing_labels (repo : string) : T (list json) :=
  data <- gh_json ["gh"; "label"; "list"; "--json"; "name"; "-R"; repo] ;;
  match data with
  | JList l => ret (label_names l)
  | _ => ret []
  end.

(** [set(map(str.lower, names))]: [str.lower] rejects what is not a text. *)
Fixpoint lower_names (names : list json) : T (list string) :=
  match names with
  | [] => ret []
  | JStr s :: t => r <- lower_names t ;; ret (str_lower s :: r)
  | v :: _ => raise (lower_type_error v)
  end.

Definition mem (s : string) (l : list string) : bool :=
  existsb (String.eqb s) l.

Fixpoint ensure_each_label (repo : string) (existing : list string) (dry_run : bool)
         (labels : list string) : T unit :=
  match labels with
  | [] => ret tt
  | label :: rest =>
      (if mem (str_lower label) existing then ret tt
       else if dry_run then
         print ("DRY-RUN: would create label '" +:+ label +:+ "' in " +:+ repo)
       else
         r <- run gh ["gh"; "label"; "create"; label; "-R"; repo] None ;;
         let '(code, out, err) := r in
         when (negb (code =? 0))
              (eprint ("WARN: failed to create label '" +:+ label +:+ "': " +:+ err))) ;;
      ensure_each_label repo existing dry_run rest
  end.

Definition ensure_labels (repo : string) (labels : list string) (dry_run : bool) : T unit :=
  match labels with
  | [] => ret tt
  | _ =>
      names <- get_existing_labels repo ;;
      existing <- lower_names names ;;
      ensure_each_label repo existing dry_run labels
  end.

(** The fallback of [get_milestones_map]: the lines that decode to a list
    are merged, the others are skipped. *)
Fixpoint merge_lines (lines : list string) : list json :=
  match lines with
  | [] => []
  | line :: rest =>
      let line := str_strip line in
      if negb (truthy line) then merge_lines rest
      else match json_loads line with
           | Some (JList part) => part ++ merge_lines rest
           | _ => merge_lines rest
           end
  end.

Definition has_key (k : string) (d : list (string * json)) : bool :=
  match dict_get k d with Some _ => true | None => false end.

Fixpoint milestones_of (items : list json) (mapping : gmap string Z) : T (gmap string Z) :=
  match items with
  | [] => ret mapping
  | JDict d :: rest =>
      match dict_get "title" d, dict_get "number" d with
      | Some t, Some n =>
          number <- py_int n ;;
          milestones_of rest (<[str_lower (py_str t) := number]> mapping)
      | _, _ => milestones_of rest mapping
      end
  | _ :: rest => milestones_of rest mapping
  end.

Definition get_milestones_map (owner repo_name : string) : T (gmap string Z) :=
  r <- run gh ["gh"; "api"; "--paginate"; "repos/" +:+ owner +:+ "/" +:+ repo_name +:+ "/milestones"]
           None ;;
  let '(code, out, err) := r in
  if negb (code =? 0) then raise (Exn RuntimeError ("Failed to list milestones: " +:+ err))
  else
    let items :=
      match json_loads out with
      | Some v => v
      | None => JList (merge_lines (str_splitlines out))
      end in
    match items with
    | JList l => milestones_of l ∅
    | _ => ret ∅
    end.

Definition ensure_milestone (owner repo_name title : string) (dry_run : bool) : T Z :=
  ms_map <- get_milestones_map owner repo_name ;;
  let key := str_lower title in
  match ms_map !! key with
  | Some number => ret number
  | None =>
      if dry_run then
        print ("DRY-RUN: would create milestone '" +:+ title +:+ "' in "
               +:+ owner +:+ "/" +:+ repo_name) ;;
        ret (-1)
      else
        r <- run gh ["gh"; "api"; "-X"; "POST";
                     "repos/" +:+ owner +:+ "/" +:+ repo_name +:+ "/milestones";
                     "-f"; "title=" +:+ title] None ;;
        let '(code, out, err) := r in
        if negb (code =? 0) then
          raise (Exn RuntimeError ("Failed to create milestone '" +:+ title +:+ "': " +:+ err))
        else
          match json_loads out with
          | None => raise decode_error
          | Some (JDict d) =>
              match dict_get "number" d with
              | Some n => py_int n
              | None => py_int JNull
              end
          | Some v => raise (no_attribute v "get")
          end
  end.
(** The request body that [create_issue_via_api] builds. *)
Definition issue_payload (row : IssueRow) (milestone_number : option Z) : list (string * json) :=
  [("title", JStr (title row))]
  ++ (if truthy (body row) then [("body", JStr (body row))] else [])
  ++ (match labels row with [] => [] | l => [("labels", JList (map JStr l))] end)
  ++ (match assignees row with [] => [] | l => [("assignees", JList (map JStr l))] end)
  ++ (match milestone_number with
      | Some n => if 0 <? n then [("milestone", JInt n)] else []
      | None => []
      end).

Definition issues_endpoint (owner repo_name : string) : string :=
  "repos/" +:+ owner +:+ "/" +:+ repo_name +:+ "/issues".

Definition create_issue_via_api (owner repo_name : string) (row : IssueRow)
           (milestone_number : option Z) (dry_run : bool) : T (Z * string) :=
  let endpoint := issues_endpoint owner repo_name in
  let payload := JDict (issue_payload row milestone_number) in
  if dry_run then
    print ("DRY-RUN: would POST JSON to " +:+ endpoint) ;;
    print (json_dumps (Some 2%nat) payload) ;;
    ret (-1, "DRY-RUN")
  else
    r <- run gh ["gh"; "api"; "-X"; "POST"; endpoint; "--input"; "-"]
             (Some (json_dumps None payload)) ;;
    let '(code, out, err) := r in
    if negb (code =? 0) then
      raise (Exn RuntimeError
               ("Issue creation failed for '" +:+ title row +:+ "': " +:+ err +:+ newline
                +:+ "Request: " +:+ json_dumps None payload))
    else
      match json_loads out with
      | None => raise decode_error
      | Some data =>
          n <- py_getitem data "number" ;;
          number <- py_int n ;;
          u <- py_getitem data "html_url" ;;
          ret (number, py_str u)
      end.

Definition transient_markers : list string :=
  ["timeout"; "timed out"; "rate limit"; "502"; "503"; "500"; "network";
   "temporarily unavailable"].

(** [any(token in str(e).lower() for token in [...])] *)
Definition is_transient (e : exn) : bool :=
  existsb (fun token => str_contains token (str_lower (exn_text e))) transient_markers.

(** [retry_base_delay * (2 ** (attempt - 1))].  The power is an [int] and
    the delay a float: the conversion of the power raises [OverflowError]
    from 2^1024 on.  (A product beyond the largest float is [inf] in
    Python; the rational is kept here, and [time.sleep] refuses both.) *)
Definition backoff_error (attempt : Z) : option exn :=
  if 1024 <=? attempt - 1 then Some (Exn OverflowError "int too large to convert to float")
  else None.

Definition backoff (retry_base_delay : Q) (attempt : Z) : Q :=
  (retry_base_delay * inject_Z (2 ^ (attempt - 1)))%Q.

(** What the pause before the next attempt raises, if anything: the
    exception of the product or that of [time.sleep]. *)
Definition wait_error (retry_base_delay : Q) (attempt : Z) : option exn :=
  match backoff_error attempt with
  | Some e => Some e
  | None => sleep_error (backoff retry_base_delay attempt)
  end.

(** Lines 217 to 219: the delay is computed, the retry is announced, the
    script sleeps. *)
Definition retry_pause (retries : Z) (retry_base_delay : Q) (attempt : Z) (e : exn) : T unit :=
  match backoff_error attempt with
  | Some e' => raise e'
  | None =>
      let sleep_for := backoff retry_base_delay attempt in
      emit (RetryNotice attempt retries e sleep_for) ;;
      sleep sleep_for
  end.

(** The [while True] loop of [create_issue_with_retry], entered with the
    number of attempts made so far; [None] when [fuel] iterations were not
    enough to leave it.  An exception raised in the handler, by the pause,
    leaves the function. *)
Fixpoint retry_loop (owner repo_name : string) (row : IssueRow) (milestone_number : option Z)
         (dry_run : bool) (retries : Z) (retry_base_delay : Q)
         (fuel : nat) (attempt : Z) (tr : list event) : option (res (Z * string) * list event) :=
  match fuel with
  | O => None
  | S fuel' =>
      let attempt := attempt + 1 in
      match create_issue_via_api owner repo_name row milestone_number dry_run tr with
      | (Ret r, tr') => Some (Ret r, tr')
      | (Raise e, tr') =>
          if negb (is_Exception e) then Some (Raise e, tr')
          else if (retries <=? attempt) || negb (is_transient e) || dry_run then
            Some (Raise e, tr')
          else
            match retry_pause retries retry_base_delay attempt e tr' with
            | (Ret _, tr'') =>
                retry_loop owner repo_name row milestone_number dry_run retries
                           retry_base_delay fuel' attempt tr''
            | (Raise e', tr'') => Some (Raise e', tr'')
            end
      end
  end.

(** The loop leaves after at most [max 1 retries] iterations (see
    [retry_loop_terminates]), so the last case is never taken. *)
Definition create_issue_with_retry (owner repo_name : string) (row : IssueRow)
           (milestone_number : option Z) (dry_run : bool) (retries : Z)
           (retry_base_delay : Q) : T (Z * string) :=
  fun tr =>
    match retry_loop owner repo_name row milestone_number dry_run retries retry_base_delay
                     (S (Z.to_nat retries)) 0 tr with
    | Some r => r
    | None => (Raise (Exn RuntimeError "retry loop did not finish"), tr)
    end.

(** [c.isalnum()] below 256. *)
Definition char_isalnum (c : ascii) : bool :=
  let n := ord c in
  in_range 48 57 n || in_range 65 90 n || in_range 97 122 n
  || (n =? 170)%nat || (n =? 178)%nat || (n =? 179)%nat || (n =? 181)%nat
  || (n =? 185)%nat || (n =? 186)%nat || in_range 188 190 n
  || in_range 192 214 n || in_range 216 246 n || in_range 248 255 n.

(** [s.replace("'", "'\''")]: in the source the replacement is written
    between double quotes, where [\'] is a plain quote. *)
Fixpoint replace_squote (s : string) : string :=
  match s with
  | EmptyString => EmptyString
  | String c r =>
      if Ascii.eqb c squote then "'''" +:+ replace_squote r else String c (replace_squote r)
  end.

Definition sh_quote (s : string) : string :=
  if negb (truthy s) then "''"
  else if str_forallb (fun c => char_isalnum c || has_char c "/._-=:,[]{}") s then s
  else "'" +:+ replace_squote s +:+ "'".

Definition print_command (args : list string) : T unit :=
  print "DRY-RUN: would run:" ;;
  print ("  " +:+ str_join " " (map sh_quote args)).

Definition add_issue_to_project_v2 (project_owner : string) (project_number : Z)
           (issue_url : string) (dry_run : bool) : T unit :=
  let args := ["gh"; "project"; "item-add"; str_of_int project_number;
               "--owner"; project_owner; "--url"; issue_url] in
  if dry_run then print_command args
  else
    r <- run gh args None ;;
    let '(code, out, err) := r in
    when (negb (code =? 0))
         (raise (Exn RuntimeError
                   ("Failed to add issue to project " +:+ project_owner +:+ "/"
                    +:+ str_of_int project_number +:+ ": " +:+ err))).

Definition close_issue (issue_url_or_number repo : string) (reason : option string)
           (dry_run : bool) : T unit :=
  let args := ["gh"; "issue"; "close"; issue_url_or_number; "-R"; repo]
              ++ (match or_none reason with
                  | Some r => ["--reason"; r]
                  | None => []
                  end) in
  if dry_run then print_command args
  else
    r <- run gh args None ;;
    let '(code, out, err) := r in
    when (negb (code =? 0))
         (raise (Exn RuntimeError
                   ("Failed to close issue " +:+ issue_url_or_number +:+ ": " +:+ err))).
End Helpers.

(** ** Main flow: the record parser *)

(** What [csv.DictReader] puts under a key: the text of a cell, [None] for a
    cell that the line lacks, or the list of the cells in excess (under the
    key [None]). *)
Inductive cell : Type :=
| Text (s : string)
| Missing
| Rest (l : list string).

Definition raw_record : Type := list (option string * cell).

Definition key_eqb (a b : option string) : bool :=
  match a, b with
  | Some x, Some y => String.eqb x y
  | None, None => true
  | _, _ => false
  end.

(** [dict(zip(fieldnames, row))] *)
Fixpoint zip_dict (fieldnames row : list string) (d : raw_record) : raw_record :=
  match fieldnames, row with
  | k :: ks, v :: vs => zip_dict ks vs (assoc_set key_eqb (Some k) (Text v) d)
  | _, _ => d
  end.

(** One record of [csv.DictReader], with [restkey] and [restval] left at
    [None]. *)
Definition dict_row (fieldnames row : list string) : raw_record :=
  let d := zip_dict fieldnames row [] in
  let lf := length fieldnames in
  let lr := length row in
  if (lf <? lr)%nat then assoc_set key_eqb None (Rest (skipn lf row)) d
  else fold_left (fun d k => assoc_set key_eqb (Some k) Missing d) (skipn lr fieldnames) d.

Definition is_nil {A} (l : list A) : bool :=
  match l with [] => true | _ => false end.

(** [csv.DictReader(f)] over the lines that [csv.reader] yields: the first
    line holds the field names, empty lines are passed over. *)
Definition dict_reader (lines : list (list string)) : list raw_record :=
  match lines with
  | [] => []
  | fieldnames :: rest => map (dict_row fieldnames) (List.filter (fun row => negb (is_nil row)) rest)
  end.

Definition strip_error : exn := Exn AttributeError "'list' object has no attribute 'strip'".

(** [{(k or "").strip().lower(): (v or "").strip() for k, v in raw.items()}] *)
Fixpoint normalize (raw : raw_record) (norm : gmap string string) : T (gmap string string) :=
  match raw with
  | [] => ret norm
  | (k, v) :: rest =>
      let key := str_lower (str_strip (default EmptyString k)) in
      match v with
      | Text s => normalize rest (<[key := str_strip s]> norm)
      | Missing | Rest [] => normalize rest (<[key := EmptyString]> norm)
      | Rest (_ :: _) => raise strip_error
      end
  end.

Definition get_or (norm : gmap string string) (k : string) : string :=
  default EmptyString (norm !! k).

Fixpoint read_records (i : Z) (records : list raw_record) : T (list IssueRow) :=
  match records with
  | [] => ret []
  | raw :: rest =>
      if is_nil raw then read_records (i + 1) rest
      else
        norm <- normalize raw ∅ ;;
        let title := get_or norm "title" in
        if negb (truthy title) then
          print ("Skipping row " +:+ str_of_int i +:+ ": missing title") ;;
          read_records (i + 1) rest
        else
          let pn := or_none (norm !! "project_number") in
          project_number <-
            match pn with
            | Some p =>
                if str_isdigit p then
                  match int_of_str p with
                  | Some n => ret (Some n)
                  | None => raise (int_value_error p)
                  end
                else ret None
            | None => ret None
            end ;;
          let row :=
            {| title := title;
               body := get_or norm "body";
               labels := split_list (get_or norm "labels");
               assignees := split_list (get_or norm "assignees");
               milestone := or_none (norm !! "milestone");
               project_owner := or_none (norm !! "project_owner");
               project_number := project_number;
               state := str_lower (default "open" (or_none (norm !! "state")));
               close_reason := or_none (norm !! "close_reason") |} in
          rows <- read_records (i + 1) rest ;;
          ret (row :: rows)
  end.

(** [read_csv], given the lines that [csv.reader] yields for the file. *)
Definition read_csv (lines : list (list string)) : T (list IssueRow) :=
  read_records 2 (dict_reader lines).

(** ** Main flow: the driver *)

Record Args : Type := {
  arg_csv : string;
  arg_repo : option string;
  arg_delay : Q;
  arg_dry_run : bool;
  arg_no_label_create : bool;
  arg_no_milestone_create : bool;
  arg_retries : Z;
  arg_retry_base_delay : Q;
  arg_no_progress : bool
}.

(** The local variables of [main] that the loop over the rows updates,
    and the log. *)
Record driver : Type := {
  milestone_cache : option (gmap string Z);
  created : list (Z * string * string);
  errors : list string;
  log : list event
}.

Definition D (A : Type) : Type := M driver A.

Definition set_log (tr : list event) (s : driver) : driver :=
  {| milestone_cache := milestone_cache s; created := created s; errors := errors s; log := tr |}.

Definition set_cache (m : gmap string Z) (s : driver) : driver :=
  {| milestone_cache := Some m; created := created s; errors := errors s; log := log s |}.

Definition add_created (c : Z * string * string) (s : driver) : driver :=
  {| milestone_cache := milestone_cache s; created := created s ++ [c];
     errors := errors s; log := log s |}.

Definition add_error (msg : string) (s : driver) : driver :=
  {| milestone_cache := milestone_cache s; created := created s;
     errors := errors s ++ [msg]; log := log s |}.

(** A helper run from [main]: it sees and extends the log only. *)
Definition lift {A} (m : T A) : D A :=
  fun s => let (r, tr) := m (log s) in (r, set_log tr s).

Definition gets {A} (f : driver -> A) : D A := fun s => (Ret (f s), s).
Definition modify (f : driver -> driver) : D unit := fun s => (Ret tt, f s).

(** [max(a, b)] on numbers: [b] when it is greater, else [a]. *)
Definition q_lt (a b : Q) : bool := negb (Qle_bool b a).
Definition q_max (a b : Q) : Q := if q_lt a b then b else a.

Definition insert_label (x : string) : list string -> list string :=
  fix go (l : list string) : list string :=
    match l with
    | [] => [x]
    | y :: t =>
        if String.eqb x y then l
        else if String.ltb x y then x :: l
        else y :: go t
    end.

(** [sorted({lbl for r in rows for lbl in r.labels})] *)
Definition all_labels (rows : list IssueRow) : list string :=
  fold_right insert_label [] (flat_map labels rows).

Definition failure_message (idx : Z) (row : IssueRow) (e : exn) : string :=
  "Row " +:+ str_of_int idx +:+ " ('" +:+ title row +:+ "') failed: " +:+ exn_text e.

Section Driver.
Variable gh : remote.
Variable args : Args.

Section Rows.
Variables owner repo_name repo_full : string.
Variable total : Z.

Definition render_progress (done : Z) (current_title : option string) : D unit :=
  if arg_no_progress args then ret tt
  else lift (emit (Progress done total current_title)).

(** Lines 344 to 356 of [main]: the milestone number of a row. *)
Definition resolve_milestone (row : IssueRow) : D (option Z) :=
  match or_none (milestone row) with
  | None => ret None
  | Some name =>
      cache <- gets milestone_cache ;;
      cache <- match cache with
               | Some m => ret m
               | None =>
                   m <- lift (get_milestones_map gh owner repo_name) ;;
                   modify (set_cache m) ;;
                   ret m
               end ;;
      let key := str_lower name in
      match cache !! key with
      | Some _ => ret tt
      | None =>
          if arg_no_milestone_create args then
            lift (print ("INFO: milestone '" +:+ name +:+ "' missing; skipping milestone for '"
                         +:+ title row +:+ "'"))
          else
            msn <- lift (ensure_milestone gh owner repo_name name (arg_dry_run args)) ;;
            when (0 <? msn) (modify (set_cache (<[key := msn]> cache)))
      end ;;
      cache <- gets milestone_cache ;;
      ret (default ∅ cache !! key)
  end.

Definition new_issue_url : string :=
  "https://github.com/" +:+ owner +:+ "/" +:+ repo_name +:+ "/issues/<new>".

(** Lines 344 to 373: milestone, creation with retry, project board. *)
Definition create_and_attach (row : IssueRow) : D (Z * string) :=
  milestone_number <- resolve_milestone row ;;
  r <- lift (create_issue_with_retry gh owner repo_name row milestone_number
               (arg_dry_run args) (Z.max 1 (arg_retries args))
               (q_max (1 # 10) (arg_retry_base_delay args))) ;;
  let '(number, url) := r in
  let url := if arg_dry_run args then new_issue_url else url in
  match or_none (project_owner row), project_number row with
  | Some po, Some pn =>
      when (negb (pn =? 0)) (lift (add_issue_to_project_v2 gh po pn url (arg_dry_run args)))
  | _, _ => ret tt
  end ;;
  ret (number, url).

(** The body of the [try] statement, lines 344 to 381. *)
Definition row_steps (idx : Z) (row : IssueRow) : D unit :=
  r <- create_and_attach row ;;
  let '(number, url) := r in
  when (String.eqb (state row) "closed")
       (lift (close_issue gh url repo_full (close_reason row) (arg_dry_run args))) ;;
  modify (add_created (idx, str_of_int number, url)) ;;
  when (q_lt 0 (arg_delay args) && negb (arg_dry_run args)) (lift (sleep (arg_delay args))).

Definition record_failure (idx : Z) (row : IssueRow) (e : exn) : D unit :=
  let msg := failure_message idx row e in
  lift (eprint ("ERROR: " +:+ msg)) ;;
  modify (add_error msg).

(** The [try] statement of the loop, lines 343 to 385. *)
Definition try_row (idx : Z) (row : IssueRow) : D unit :=
  try_except (row_steps idx row) (record_failure idx row).

(** One iteration of the loop over the rows. *)
Definition process_row (idx : Z) (row : IssueRow) : D unit :=
  when (negb (arg_no_progress args)) (render_progress (idx - 1) (Some (title row))) ;;
  try_row idx row ;;
  when (negb (arg_no_progress args)) (render_progress idx None).

Fixpoint process_rows (idx : Z) (rows : list IssueRow) : D unit :=
  match rows with
  | [] => ret tt
  | row :: rest => process_row idx row ;; process_rows (idx + 1) rest
  end.
End Rows.

Fixpoint print_all (lines : list string) : T unit :=
  match lines with
  | [] => ret tt
  | l :: rest => print l ;; print_all rest
  end.

Fixpoint eprint_all (lines : list string) : T unit :=
  match lines with
  | [] => ret tt
  | l :: rest => eprint l ;; eprint_all rest
  end.

Definition created_line (c : Z * string * string) : string :=
  let '(_, num, url) := c in "   - #" +:+ num +:+ " -> " +:+ url.

(** Lines 394 to 404: the summary and the value that [main] returns. *)
Definition summary : D Z :=
  done <- gets created ;;
  failed <- gets errors ;;
  lift (print (newline +:+ "Summary:")) ;;
  lift (print ("  Created: " +:+ str_of_int (Z.of_nat (length done)) +:+ " issues")) ;;
  lift (print_all (map created_line done)) ;;
  if is_nil failed then ret 0
  else
    lift (eprint ("  Errors: " +:+ str_of_int (Z.of_nat (length failed)))) ;;
    lift (eprint_all (map (fun e => "   - " +:+ e) failed)) ;;
    ret 1.

(** Lines 310 to 404 of [main]: what is done once the rows are read and
    there is at least one. *)
Definition import_rows (owner repo_name repo_full : string) (rows : list IssueRow) : D Z :=
  when (negb (arg_no_label_create args))
       (lift (ensure_labels gh repo_full (all_labels rows) (arg_dry_run args))) ;;
  let total := Z.of_nat (length rows) in
  when (negb (arg_no_progress args))
       (lift (print ("Importing " +:+ str_of_int total +:+ " issues...")) ;;
        render_progress total 0 None) ;;
  process_rows owner repo_name repo_full total 1 rows ;;
  when (negb (arg_no_progress args)) (lift (print EmptyString)) ;;
  summary.

(** [main], given the parsed arguments and the file system: the lines that
    [csv.reader] yields for a path, [None] for a path that does not exist. *)
Definition main (fs : string -> option (list (list string))) : D Z :=
  match fs (arg_csv args) with
  | None =>
      lift (eprint ("CSV not found: " +:+ arg_csv args)) ;;
      ret 2
  | Some lines =>
      repo <- lift (ensure_repo_name_with_owner gh (arg_repo args)) ;;
      match repo with
      | JStr repo_full =>
          match str_split1 "/"%char repo_full with
          | [owner; repo_name] =>
              rows <- lift (read_csv lines) ;;
              if is_nil rows then
                lift (print "No rows found in CSV.") ;;
                ret 0
              else import_rows owner repo_name repo_full rows
          | _ => raise unpack_error
          end
      | v => raise (no_attribute v "split")
      end
  end.
End Driver.

(** How the process ends: with an exit status, or with the traceback of an
    exception that nothing caught. *)
Inductive outcome : Type :=
| Exit (status : Z)
| Traceback (e : exn).

Definition start : driver :=
  {| milestone_cache := None; created := []; errors := []; log := [] |}.

(** The [__main__] block: [sys.exit(main())], and status 130 on
    [KeyboardInterrupt]. *)
Definition script (gh : remote) (args : Args) (fs : string -> option (list (list string)))
  : outcome * driver :=
  match main gh args fs start with
  | (Ret status, s) => (Exit status, s)
  | (Raise e, s) =>
      if is_Exception e then (Traceback e, s)
      else (Exit 130, set_log (log s ++ [Stdout "Aborted."]) s)
  end.

(** ** The properties in the words of the specification *)

(** [marker] occurs in [text] when case is ignored ([marker] is lower case). *)
Definition contains_ci (marker text : string) : Prop :=
  exists before after, str_lower text = before +:+ marker +:+ after.

Section RetryPolicy.
Variable gh : remote.
Variables owner repo_name : string.
Variable row : IssueRow.
Variable milestone_number : option Z.
Variable dry_run : bool.
Variable retries : Z.
Variable retry_base_delay : Q.

(** The retry policy as the specification words it, with what happens
    when the pause cannot be made.  [retry_run n tr k out]: the [n]-th
    creation call starts with the log [tr]; [k] calls are made from there on
    and the wrapper ends with [out].  After the [n]-th call has failed with
    a transient error and calls remain, the wrapper announces the retry,
    sleeps [retry_base_delay * 2^(n-1)] seconds and calls again; a success,
    an error that is not transient, the last call allowed and dry-run mode
    end it at once; and so does a pause that raises: the wrapper ends with
    that exception, with the notice printed if the sleep itself raised. *)
Inductive retry_run : Z -> list event -> nat -> res (Z * string) * list event -> Prop :=
| retry_success n tr r tr' :
    create_issue_via_api gh owner repo_name row milestone_number dry_run tr = (Ret r, tr') ->
    retry_run n tr 1 (Ret r, tr')
| retry_propagate n tr e tr' :
    create_issue_via_api gh owner repo_name row milestone_number dry_run tr = (Raise e, tr') ->
    is_Exception e = false \/ is_transient e = false \/ retries <= n \/ dry_run = true ->
    retry_run n tr 1 (Raise e, tr')
| retry_again n tr e tr' k out :
    create_issue_via_api gh owner repo_name row milestone_number dry_run tr = (Raise e, tr') ->
    is_Exception e = true ->
    is_transient e = true ->
    n < retries ->
    dry_run = false ->
    wait_error retry_base_delay n = None ->
    retry_run (n + 1)
              (tr' ++ [RetryNotice n retries e (retry_base_delay * inject_Z (2 ^ (n - 1)))%Q;
                       Sleep (retry_base_delay * inject_Z (2 ^ (n - 1)))%Q])
              k out ->
    retry_run n tr (S k) out
| retry_refused n tr e tr' e' :
    create_issue_via_api gh owner repo_name row milestone_number dry_run tr = (Raise e, tr') ->
    is_Exception e = true ->
    is_transient e = true ->
    n < retries ->
    dry_run = false ->
    wait_error retry_base_delay n = Some e' ->
    retry_run n tr 1
              (Raise e',
               tr' ++ match backoff_error n with
                      | Some _ => []
                      | None =>
                          [RetryNotice n retries e (retry_base_delay * inject_Z (2 ^ (n - 1)))%Q]
                      end).
End RetryPolicy.

(** A command that changes the repository: creating a label, a milestone or
    an issue, adding an issue to a project, closing an issue. *)
Definition word (n : nat) (cmd : list string) : string := nth n cmd EmptyString.

Definition is_mutation (cmd : list string) : bool :=
  String.eqb (word 0 cmd) "gh" &&
  ((String.eqb (word 1 cmd) "label" && String.eqb (word 2 cmd) "create")
   || (String.eqb (word 1 cmd) "api" && String.eqb (word 2 cmd) "-X" && String.eqb (word 3 cmd) "POST")
   || (String.eqb (word 1 cmd) "project" && String.eqb (word 2 cmd) "item-add")
   || (String.eqb (word 1 cmd) "issue" && String.eqb (word 2 cmd) "close")).

(** An event that leaves the repository as it is. *)
Definition harmless (e : event) : Prop :=
  match e with
  | Call cmd _ _ => is_mutation cmd = false
  | _ => True
  end.

(** The trace of one attempt to create an issue starts with the request, or
    in dry-run mode with its announcement. *)
Definition is_attempt (owner repo_name : string) (e : event) : Prop :=
  match e with
  | Call cmd (Some _) _ =>
      cmd = ["gh"; "api"; "-X"; "POST"; issues_endpoint owner repo_name; "--input"; "-"]
  | Stdout line => line = "DRY-RUN: would POST JSON to " +:+ issues_endpoint owner repo_name
  | _ => False
  end.


(** ** Invariants of computations *)

(** [m] takes every state to a state related to it by [R], whether it
    returns or raises. *)
Definition steady {St A : Type} (R : St -> St -> Prop) (m : M St A) : Prop :=
  forall s, R s (snd (m s)).

(** The log is extended by events that all satisfy [P]. *)
Definition grows_by (P : event -> Prop) (tr tr' : list event) : Prop :=
  exists ext, tr' = tr ++ ext /\ Forall P ext.

Definition log_grows_by (P : event -> Prop) (s s' : driver) : Prop :=
  grows_by P (log s) (log s').

(** The lists of created issues and of failures are left as they are. *)
Definition same_results (s s' : driver) : Prop :=
  created s' = created s /\ errors s' = errors s.


(** The pause of [--delay] seconds after a row, where the script makes it,
    is one that [time.sleep] accepts. *)
Definition pause_accepted (args : Args) : Prop :=
  q_lt 0 (arg_delay args) && negb (arg_dry_run args) = true ->
  sleep_error (arg_delay args) = None.




(** The command that lists the labels of a repository. *)
Definition label_list_cmd (repo : string) : list string :=
  ["gh"; "label"; "list"; "--json"; "name"; "-R"; repo].

(** The milestone cache of [main] is [m] once a row with a milestone has
    been met: it was there already, or it has just been read. *)
Definition cache_ready (gh : remote) (owner repo_name : string) (s : driver)
           (m : gmap string Z) (s1 : driver) : Prop :=
  (milestone_cache s = Some m /\ s1 = s)
  \/ (milestone_cache s = None
      /\ exists tr1, get_milestones_map gh owner repo_name (log s) = (Ret m, tr1)
                     /\ s1 = set_cache m (set_log tr1 s)).

Definition milestone_notice (owner repo_name title : string) : event :=
  Stdout ("DRY-RUN: would create milestone '" +:+ title +:+ "' in "
          +:+ owner +:+ "/" +:+ repo_name).

(** The invariant of the data model as the specification states it. *)
Definition row_invariant (r : IssueRow) : Prop :=
  title r <> EmptyString /\ (state r = "open" \/ state r = "closed").

(** What [read_csv] establishes: a title, and a state that is a lower-case
    text, not empty. *)
Definition row_well_formed (r : IssueRow) : Prop :=
  title r <> EmptyString /\ state r <> EmptyString /\ str_lower (state r) = state r.

(** ** Sample runs *)

(** A remote that answers every command as GitHub does when all is well:
    the repository is [o/r], it has no label and one milestone, [v1]. *)
Definition gh_reply (cmd : list string) : reply :=
  if String.eqb (word 1 cmd) "repo" then Reply 0 (dq "{'nameWithOwner': 'o/r'}") EmptyString
  else if String.eqb (word 1 cmd) "label" && String.eqb (word 2 cmd) "list" then
    Reply 0 "[]" EmptyString
  else if String.eqb (word 1 cmd) "api" && String.eqb (word 2 cmd) "--paginate" then
    Reply 0 (dq "[{'title': 'v1', 'number': 1}]") EmptyString
  else if String.eqb (word 1 cmd) "api" && String.eqb (word 4 cmd) "repos/o/r/milestones" then
    Reply 0 (dq "{'number': 2}") EmptyString
  else if String.eqb (word 1 cmd) "api" then
    Reply 0 (dq "{'number': 7, 'html_url': 'https://github.com/o/r/issues/7'}") EmptyString
  else Reply 0 EmptyString EmptyString.

Definition gh_ok : remote := fun _ cmd _ => gh_reply cmd.

(** The same remote, except that the commands selected by [fails] end with
    status 1 and the given error text. *)
Definition gh_failing (fails : list string -> bool) (err : string) : remote :=
  fun _ cmd _ => if fails cmd then Reply 1 EmptyString err else gh_reply cmd.

Definition is_label_list (cmd : list string) : bool :=
  String.eqb (word 1 cmd) "label" && String.eqb (word 2 cmd) "list".
Definition is_label_create (cmd : list string) : bool :=
  String.eqb (word 1 cmd) "label" && String.eqb (word 2 cmd) "create".
Definition is_milestone_list (cmd : list string) : bool :=
  String.eqb (word 1 cmd) "api" && String.eqb (word 2 cmd) "--paginate".
Definition is_issue_close (cmd : list string) : bool :=
  String.eqb (word 1 cmd) "issue" && String.eqb (word 2 cmd) "close".
Definition is_issue_post (cmd : list string) : bool :=
  String.eqb (word 1 cmd) "api" && String.eqb (word 4 cmd) "repos/o/r/issues".

Definition count_calls (p : list string -> bool) (tr : list event) : nat :=
  length (List.filter (fun e => match e with Call cmd _ _ => p cmd | _ => false end) tr).

(** A remote whose first [n] answers to the creation of an issue are the
    error [err]. *)
Definition gh_flaky (n : nat) (err : string) : remote :=
  fun tr cmd _ =>
    if is_issue_post cmd && (count_calls is_issue_post tr <? n)%nat
    then Reply 1 EmptyString err
    else gh_reply cmd.

(** A remote that lists the milestones as the given text. *)
Definition gh_milestones (out : string) : remote :=
  fun _ cmd _ => if is_milestone_list cmd then Reply 0 out EmptyString else gh_reply cmd.

Definition sample_args (dry_run : bool) : Args :=
  {| arg_csv := "issues.csv";
     arg_repo := Some "o/r";
     arg_delay := 0;
     arg_dry_run := dry_run;
     arg_no_label_create := false;
     arg_no_milestone_create := false;
     arg_retries := 3;
     arg_retry_base_delay := 1;
     arg_no_progress := true |}.

Definition one_file (lines : list (list string)) : string -> option (list (list string)) :=
  fun path => if String.eqb path "issues.csv" then Some lines else None.

(** One row to be closed, with a label. *)
Definition closed_row_file : list (list string) :=
  [["title"; "labels"; "state"; "close_reason"]; ["Fix login"; "bug"; "closed"; "completed"]].

(** One row with a milestone that the repository lacks. *)
Definition milestone_row_file : list (list string) :=
  [["Title"; "Milestone"]; ["Plan release"; "v2"]].

(** A state that is neither [open] nor [closed]. *)
Definition odd_state_file : list (list string) :=
  [["title"; "state"]; ["Write docs"; "Done"]].

Definition sample_row : IssueRow :=
  {| title := "Fix login"; body := EmptyString; labels := ["bug"]; assignees := [];
     milestone := Some "v2"; project_owner := None; project_number := None;
     state := "closed"; close_reason := None |}.

(** The row that [read_csv] yields for [closed_row_file]. *)
Definition closed_row : IssueRow :=
  {| title := "Fix login"; body := EmptyString; labels := ["bug"]; assignees := [];
     milestone := None; project_owner := None; project_number := None;
     state := "closed"; close_reason := Some "completed" |}.

(** The row that [read_csv] yields for [milestone_row_file]. *)
Definition milestone_row : IssueRow :=
  {| title := "Plan release"; body := EmptyString; labels := []; assignees := [];
     milestone := Some "v2"; project_owner := None; project_number := None;
     state := "open"; close_reason := None |}.


Definition issue_7_url : string := "https://github.com/o/r/issues/7".

Definition issue_post_cmd : list string :=
  ["gh"; "api"; "-X"; "POST"; "repos/o/r/issues"; "--input"; "-"].

Definition issue_7_reply : reply :=
  Reply 0 (dq "{'number': 7, 'html_url': 'https://github.com/o/r/issues/7'}") EmptyString.

Definition milestone_list_call : event :=
  Call ["gh"; "api"; "--paginate"; "repos/o/r/milestones"] None
       (Reply 0 (dq "[{'title': 'v1', 'number': 1}]") EmptyString).

(** The milestones of the sample repository. *)
Definition v1_only : gmap string Z := {["v1" := 1]}.

(** Two pages of milestones, as [gh api --paginate] prints them. *)
Definition page_1 : string := dq "[{'title': 'v1', 'number': 1}]".
Definition page_2 : string := dq "[{'title': 'v2', 'number': 2}]".

(** ** Further notions used to state properties of the script *)

(** [p] is a stripped, non-empty text without the separator of list cells. *)
Definition is_list_item (p : string) : Prop :=
  p <> EmptyString /\ str_strip p = p /\ has_char ";"%char p = false.

(** The characters that [sh_quote] leaves unquoted. *)
Definition shell_safe (c : ascii) : bool := char_isalnum c || has_char c "/._-=:,[]{}".

(** A list of texts in strictly increasing order of code points. *)
Fixpoint strictly_sorted (l : list string) : Prop :=
  match l with
  | [] => True
  | x :: t => Forall (fun y => String.ltb x y = true) t /\ strictly_sorted t
  end.

(** The commands of the calls in a log, in order. *)
Fixpoint commands (tr : list event) : list (list string) :=
  match tr with
  | [] => []
  | Call cmd _ _ :: rest => cmd :: commands rest
  | _ :: rest => commands rest
  end.

Definition label_create_cmd (repo label : string) : list string :=
  ["gh"; "label"; "create"; label; "-R"; repo].

(** A remote that lists the labels of the repository as the given text. *)
Definition gh_labels (out : string) : remote :=
  fun _ cmd _ => if is_label_list cmd then Reply 0 out EmptyString else gh_reply cmd.

(** [item] is a JSON object with the title and the number of [p]. *)
Definition milestone_entry (p : string * Z) (item : json) : Prop :=
  exists d, item = JDict d
            /\ dict_get "title" d = Some (JStr (fst p))
            /\ dict_get "number" d = Some (JInt (snd p)).

Definition milestone_list_cmd (owner repo_name : string) : list string :=
  ["gh"; "api"; "--paginate"; "repos/" +:+ owner +:+ "/" +:+ repo_name +:+ "/milestones"].

Definition milestone_key (p : string * Z) : string := str_lower (fst p).

Definition milestone_post_call : event :=
  Call ["gh"; "api"; "-X"; "POST"; "repos/o/r/milestones"; "-f"; "title=v2"] None
       (Reply 0 (dq "{'number': 2}") EmptyString).

(** The durations of the sleeps in a log, in order. *)
Fixpoint sleeps (tr : list event) : list Q :=
  match tr with
  | [] => []
  | Sleep d :: rest => d :: sleeps rest
  | _ :: rest => sleeps rest
  end.

(** The request that creates the issue of a row. *)
Definition issue_request_cmd (owner repo_name : string) : list string :=
  ["gh"; "api"; "-X"; "POST"; issues_endpoint owner repo_name; "--input"; "-"].

Definition issue_request_body (row : IssueRow) (milestone_number : option Z) : option string :=
  Some (json_dumps None (JDict (issue_payload row milestone_number))).

(** What [create_issue_via_api] raises when the request ends with an error
    status and the text [err]. *)
Definition creation_failure (row : IssueRow) (milestone_number : option Z) (err : string) : exn :=
  Exn RuntimeError
      ("Issue creation failed for '" +:+ title row +:+ "': " +:+ err +:+ newline
       +:+ "Request: " +:+ json_dumps None (JDict (issue_payload row milestone_number))).

(** A row whose title holds the marker [timeout]. *)
Definition timeout_row : IssueRow :=
  {| title := "Handle Timeout of uploads"; body := EmptyString; labels := []; assignees := [];
     milestone := None; project_owner := None; project_number := None;
     state := "open"; close_reason := None |}.

(** What [read_csv] prints for a record without a title. *)
Definition skip_notice (i : Z) : event :=
  Stdout ("Skipping row " +:+ str_of_int i +:+ ": missing title").

(** The data lines that [csv.DictReader] turns into records. *)
Definition data_lines (lines : list (list string)) : list (list string) :=
  List.filter (fun row => negb (is_nil row)) (tl lines).

(** The waits that a run is meant to make: none in dry-run mode; else the
    pause of [--delay] seconds after a row, when it is positive, and the
    pause before the retry that follows the [k]-th failed attempt, with the
    number of attempts and the base delay as [main] passes them. *)
Definition planned_wait (args : Args) (e : event) : Prop :=
  match e with
  | Sleep d =>
      arg_dry_run args = false
      /\ ((d = arg_delay args /\ q_lt 0 (arg_delay args) = true)
          \/ exists k, 1 <= k < Z.max 1 (arg_retries args)
                       /\ d = backoff (q_max (1 # 10) (arg_retry_base_delay args)) k)
  | RetryNotice k _ _ _ => arg_dry_run args = false /\ 1 <= k < Z.max 1 (arg_retries args)
  | _ => True
  end.

(** The number of the row of an entry of [created]. *)
Definition row_index (c : Z * string * string) : Z := fst (fst c).

(** The numbers of [l] are at least [lo] and strictly increasing. *)
Fixpoint increasing_from (lo : Z) (l : list Z) : Prop :=
  match l with
  | [] => True
  | x :: t => lo <= x /\ increasing_from (x + 1) t
  end.

(** The name under which [read_csv] looks a column up. *)
Definition column_name (k : string) : string := str_lower (str_strip k).

(** A record of [csv.DictReader] with its keys as [read_csv] normalises them. *)
Definition normal_form (raw : raw_record) : list (string * cell) :=
  map (fun p => (str_lower (str_strip (default EmptyString (fst p))), snd p)) raw.

(** The command that adds an issue to a project board. *)
Definition project_add_cmd (project_owner : string) (project_number : Z) (issue_url : string)
  : list string :=
  ["gh"; "project"; "item-add"; str_of_int project_number;
   "--owner"; project_owner; "--url"; issue_url].

(** What [add_issue_to_project_v2] raises when the command ends with an
    error status and the text [err]. *)
Definition project_failure (project_owner : string) (project_number : Z) (err : string) : exn :=
  Exn RuntimeError ("Failed to add issue to project " +:+ project_owner +:+ "/"
                    +:+ str_of_int project_number +:+ ": " +:+ err).

(** A row to be put on the board 5 of [octo] and closed. *)
Definition board_row : IssueRow :=
  {| title := "Fix login"; body := EmptyString; labels := []; assignees := [];
     milestone := None; project_owner := Some "octo"; project_number := Some 5;
     state := "closed"; close_reason := None |}.

Definition is_project_add (cmd : list string) : bool :=
  String.eqb (word 1 cmd) "project" && String.eqb (word 2 cmd) "item-add".

Definition repo_view_cmd : list string := ["gh"; "repo"; "view"; "--json"; "nameWithOwner"].

Definition milestone_create_cmd (owner repo_name title : string) : list string :=
  ["gh"; "api"; "-X"; "POST"; "repos/" +:+ owner +:+ "/" +:+ repo_name +:+ "/milestones";
   "-f"; "title=" +:+ title].

Definition issue_close_cmd (issue repo : string) (reason : option string) : list string :=
  ["gh"; "issue"; "close"; issue; "-R"; repo]
  ++ (match or_none reason with
      | Some r => ["--reason"; r]
      | None => []
      end).

(** The commands that a run may start, with what they read on their
    standard input, under the options of the command line. *)
Inductive permitted_call (args : Args) : list string -> option string -> Prop :=
| call_repo_view :
    or_none (arg_repo args) = None ->
    permitted_call args repo_view_cmd None
| call_label_list repo :
    arg_no_label_create args = false ->
    permitted_call args (label_list_cmd repo) None
| call_label_create repo label :
    arg_no_label_create args = false ->
    arg_dry_run args = false ->
    permitted_call args (label_create_cmd repo label) None
| call_milestone_list owner repo_name :
    permitted_call args (milestone_list_cmd owner repo_name) None
| call_milestone_create owner repo_name title :
    arg_no_milestone_create args = false ->
    arg_dry_run args = false ->
    permitted_call args (milestone_create_cmd owner repo_name title) None
| call_issue_create owner repo_name body :
    arg_dry_run args = false ->
    permitted_call args (issue_request_cmd owner repo_name) (Some body)
| call_project_add project_owner project_number issue_url :
    arg_dry_run args = false ->
    permitted_call args (project_add_cmd project_owner project_number issue_url) None
| call_issue_close issue repo reason :
    arg_dry_run args = false ->
    permitted_call args (issue_close_cmd issue repo reason) None.

(** What a run may do: start a permitted command, make a planned wait,
    print. *)
Definition permitted (args : Args) (e : event) : Prop :=
  match e with
  | Call cmd input _ => permitted_call args cmd input
  | _ => planned_wait args e
  end.

(** An optional text of a row is absent or a non-empty text without white
    space at either end. *)
Definition clean_option (o : option string) : Prop :=
  forall s, o = Some s -> s <> EmptyString /\ str_strip s = s.

(** The form in which [read_csv] hands the cells of a line over. *)
Definition row_normalised (r : IssueRow) : Prop :=
  str_strip (title r) = title r
  /\ str_strip (body r) = body r
  /\ Forall is_list_item (labels r)
  /\ Forall is_list_item (assignees r)
  /\ clean_option (milestone r)
  /\ clean_option (project_owner r)
  /\ clean_option (close_reason r)
  /\ (forall n, project_number r = Some n -> 0 <= n).

(** The stripped cell of a line in the column of a header that is called
    [name] once its name is normalised; empty when the header has no such
    column or the line is too short to have the cell. *)
Fixpoint cell_text (name : string) (header line : list string) : string :=
  match header, line with
  | h :: hs, c :: cs => if String.eqb (column_name h) name then str_strip c else cell_text name hs cs
  | _, _ => EmptyString
  end.

(** The state of a row as the specification words it: the lower-cased
    text of the state cell, [open] when the cell is empty or absent. *)
Definition state_of_cell (c : string) : string :=
  if truthy c then str_lower c else "open".

(** The row [r] has the title and the state of the line. *)
Definition row_of_line (header line : list string) (r : IssueRow) : Prop :=
  title r = cell_text "title" header line
  /\ state r = state_of_cell (cell_text "state" header line).

(** The data lines that give a row: they are not empty and have a title. *)
Definition titled_lines (lines : list (list string)) : list (list string) :=
  List.filter (fun line => truthy (cell_text "title" (hd [] lines) line)) (data_lines lines).

(** * Properties *)

(** ** Text *)

Lemma append_cons (c : ascii) (s t : string) : String c s +:+ t = String c (s +:+ t).
Proof. reflexivity. Qed.

Lemma append_empty (t : string) : EmptyString +:+ t = t.
Proof. reflexivity. Qed.

Lemma prefix_spec (tok s : string) :
  String.prefix tok s = true <-> exists after, s = tok +:+ after.
Proof.
  revert s. induction tok as [|c tok IH]; intros s; simpl.
  - split; [intros _; exists s; reflexivity | intros _; destruct s; reflexivity].
  - destruct s as [|d s]; simpl.
    + split; [discriminate | intros [after H]; discriminate].
    + destruct (ascii_dec c d) as [->|Hne].
      * rewrite IH. split; intros [after H]; exists after; rewrite append_cons in *; congruence.
      * split; [discriminate | intros [after H]; rewrite append_cons in H; congruence].
Qed.

Lemma str_contains_spec (tok s : string) :
  str_contains tok s = true <-> exists before after, s = before +:+ tok +:+ after.
Proof.
  induction s as [|c s IH].
  - change (str_contains tok EmptyString) with (String.prefix tok EmptyString || false).
    rewrite orb_false_r, prefix_spec. split.
    + intros [after H]. exists EmptyString, after. exact H.
    + intros [before [after H]]. destruct before; [exists after; exact H | discriminate].
  - change (str_contains tok (String c s))
      with (String.prefix tok (String c s) || str_contains tok s).
    rewrite orb_true_iff, prefix_spec, IH. split.
    + intros [[after H] | [before [after H]]].
      * exists EmptyString, after. exact H.
      * exists (String c before), after. rewrite append_cons. congruence.
    + intros [before [after H]]. destruct before as [|d before].
      * left. exists after. exact H.
      * right. exists before, after. rewrite append_cons in H. congruence.
Qed.

Lemma is_transient_spec (e : exn) :
  is_transient e = true <->
  exists marker, In marker transient_markers /\ contains_ci marker (exn_text e).
Proof.
  unfold is_transient, contains_ci. rewrite existsb_exists.
  split; intros [marker [Hin H]]; exists marker; split; auto; apply str_contains_spec; exact H.
Qed.

(** ** The retry wrapper *)

(** ** The pause before a retry *)

Lemma sleep_accepted (d : Q) (tr : list event) :
  sleep_error d = None -> sleep d tr = (Ret tt, tr ++ [Sleep d]).
Proof. intros H. unfold sleep. rewrite H. reflexivity. Qed.

Lemma sleep_refused (d : Q) (e : exn) (tr : list event) :
  sleep_error d = Some e -> sleep d tr = (Raise e, tr).
Proof. intros H. unfold sleep. rewrite H. reflexivity. Qed.

Lemma sleep_error_is_Exception (d : Q) (e : exn) :
  sleep_error d = Some e -> is_Exception e = true.
Proof.
  unfold sleep_error. intros H.
  destruct (Qle_bool (inject_Z (2 ^ 63)) (d * inject_Z (10 ^ 9))
            || negb (Qle_bool (inject_Z (- 2 ^ 63)) (d * inject_Z (10 ^ 9))));
    [injection H as <-; reflexivity|].
  destruct (negb (Qle_bool 0 d)); [injection H as <-; reflexivity | discriminate].
Qed.

Lemma wait_error_is_Exception (base : Q) (n : Z) (e : exn) :
  wait_error base n = Some e -> is_Exception e = true.
Proof.
  unfold wait_error, backoff_error. destruct (1024 <=? n - 1).
  - intros H. injection H as <-. reflexivity.
  - apply sleep_error_is_Exception.
Qed.

Lemma retry_pause_accepted (retries : Z) (base : Q) (n : Z) (e : exn) (tr : list event) :
  wait_error base n = None ->
  retry_pause retries base n e tr
  = (Ret tt, tr ++ [RetryNotice n retries e (backoff base n); Sleep (backoff base n)]).
Proof.
  unfold wait_error, retry_pause. destruct (backoff_error n); [discriminate|].
  intros H. unfold bind, emit. rewrite (sleep_accepted _ _ H), <- app_assoc. reflexivity.
Qed.

Lemma retry_pause_refused (retries : Z) (base : Q) (n : Z) (e e' : exn) (tr : list event) :
  wait_error base n = Some e' ->
  retry_pause retries base n e tr
  = (Raise e',
     tr ++ match backoff_error n with
           | Some _ => []
           | None => [RetryNotice n retries e (backoff base n)]
           end).
Proof.
  unfold wait_error, retry_pause. destruct (backoff_error n).
  - intros H. injection H as <-. rewrite app_nil_r. reflexivity.
  - intros H. unfold bind, emit. rewrite (sleep_refused _ _ _ H). reflexivity.
Qed.

Lemma retry_pause_grows (retries : Z) (base : Q) (n : Z) (e : exn) (tr : list event) :
  exists ext, snd (retry_pause retries base n e tr) = tr ++ ext.
Proof.
  destruct (wait_error base n) as [e'|] eqn:Hw.
  - rewrite (retry_pause_refused _ _ _ _ _ _ Hw). eexists. reflexivity.
  - rewrite (retry_pause_accepted _ _ _ _ _ Hw). eexists. reflexivity.
Qed.

Section RetryProofs.
Variable gh : remote.
Variables owner repo_name : string.
Variable row : IssueRow.
Variable milestone_number : option Z.
Variable dry_run : bool.
Variable retries : Z.
Variable retry_base_delay : Q.

Local Abbreviation attempt :=
  (create_issue_via_api gh owner repo_name row milestone_number dry_run).
Local Abbreviation loop :=
  (retry_loop gh owner repo_name row milestone_number dry_run retries retry_base_delay).
Local Abbreviation policy :=
  (retry_run gh owner repo_name row milestone_number dry_run retries retry_base_delay).

Lemma retry_loop_step (fuel : nat) (made : Z) (tr : list event) :
  loop (S fuel) made tr =
  match attempt tr with
  | (Ret r, tr') => Some (Ret r, tr')
  | (Raise e, tr') =>
      if negb (is_Exception e) then Some (Raise e, tr')
      else if (retries <=? made + 1) || negb (is_transient e) || dry_run then Some (Raise e, tr')
      else match retry_pause retries retry_base_delay (made + 1) e tr' with
           | (Ret _, tr'') => loop fuel (made + 1) tr''
           | (Raise e', tr'') => Some (Raise e', tr'')
           end
  end.
Proof. reflexivity. Qed.

(** The loop follows the policy. *)
Lemma retry_loop_policy (fuel : nat) :
  forall made tr out, loop fuel made tr = Some out ->
  exists k, policy (made + 1) tr k out /\ (k <= fuel)%nat.
Proof.
  induction fuel as [|fuel IH]; intros made tr out H; [discriminate|].
  rewrite retry_loop_step in H.
  destruct (attempt tr) as [[r|e] tr'] eqn:Ha.
  - injection H as <-. exists 1%nat. split; [|lia]. apply retry_success. exact Ha.
  - destruct (is_Exception e) eqn:He; simpl in H.
    + destruct (retries <=? made + 1) eqn:Hr; simpl in H.
      { injection H as <-. exists 1%nat. split; [|lia].
        apply retry_propagate; [exact Ha|]. right. right. left. apply Z.leb_le in Hr. lia. }
      destruct (is_transient e) eqn:Ht; simpl in H.
      * destruct (bool_dec dry_run true) as [Hd|Hd].
        { rewrite Hd in H. injection H as <-. exists 1%nat. split; [|lia].
          apply retry_propagate; [exact Ha|]. right. right. right. exact Hd. }
        apply not_true_is_false in Hd.
        assert (Hif : forall (X : Type) (a b : X), (if dry_run then a else b) = b)
          by (intros; rewrite Hd; reflexivity).
        rewrite Hif in H. apply Z.leb_gt in Hr.
        destruct (wait_error retry_base_delay (made + 1)) as [e'|] eqn:Hw.
        -- rewrite (retry_pause_refused _ _ _ _ _ _ Hw) in H. injection H as <-.
           exists 1%nat. split; [|lia].
           eapply retry_refused; [exact Ha | exact He | exact Ht | lia | exact Hd | exact Hw].
        -- rewrite (retry_pause_accepted _ _ _ _ _ Hw) in H.
           apply IH in H. destruct H as [k [Hk Hle]].
           exists (S k). split; [|lia].
           unfold backoff in Hk.
           eapply retry_again; [exact Ha | exact He | exact Ht | lia | exact Hd | exact Hw
                                | exact Hk].
      * injection H as <-. exists 1%nat. split; [|lia].
        apply retry_propagate; [exact Ha|]. right. left. exact Ht.
    + injection H as <-. exists 1%nat. split; [|lia].
      apply retry_propagate; [exact Ha|]. left. exact He.
Qed.

(** The loop is left as soon as [retries] calls have been made. *)
Lemma retry_loop_terminates (fuel : nat) :
  forall made tr, (1 <= fuel)%nat -> (Z.to_nat (retries - made) <= fuel)%nat ->
  exists out, loop fuel made tr = Some out.
Proof.
  induction fuel as [|fuel IH]; intros made tr H1 Hf; [lia|].
  rewrite retry_loop_step.
  destruct (attempt tr) as [[r|e] tr']; [eauto|].
  destruct (negb (is_Exception e)); [eauto|].
  destruct (retries <=? made + 1) eqn:Hr; simpl; [eauto|].
  destruct (negb (is_transient e) || dry_run); [eauto|].
  destruct (retry_pause retries retry_base_delay (made + 1) e tr') as [[[]|e'] tr'']; [|eauto].
  apply IH; lia.
Qed.

(** More fuel does not change what the loop computes. *)
Lemma retry_loop_more_fuel (fuel : nat) :
  forall fuel' made tr out, loop fuel made tr = Some out -> (fuel <= fuel')%nat ->
  loop fuel' made tr = Some out.
Proof.
  induction fuel as [|fuel IH]; intros fuel' made tr out H Hle; [discriminate|].
  destruct fuel' as [|fuel']; [lia|].
  rewrite retry_loop_step in *.
  destruct (attempt tr) as [[r|e] tr']; [exact H|].
  destruct (negb (is_Exception e)); [exact H|].
  destruct ((retries <=? made + 1) || negb (is_transient e) || dry_run); [exact H|].
  destruct (retry_pause retries retry_base_delay (made + 1) e tr') as [[[]|e'] tr''];
    [|exact H].
  apply IH; [exact H | lia].
Qed.

Lemma policy_bound (n : Z) (tr : list event) (k : nat) (out : res (Z * string) * list event) :
  policy n tr k out -> (1 <= k)%nat /\ Z.of_nat k <= Z.max 1 (retries - n + 1).
Proof.
  induction 1; split; lia.
Qed.

Lemma policy_dry_run (n : Z) (tr : list event) (k : nat) (out : res (Z * string) * list event) :
  policy n tr k out -> dry_run = true -> k = 1%nat.
Proof. intros H Hd. destruct H; try reflexivity. congruence. Qed.

Lemma create_issue_with_retry_loop (tr : list event) :
  loop (S (Z.to_nat retries)) 0 tr =
  Some (create_issue_with_retry gh owner repo_name row milestone_number dry_run retries
                                retry_base_delay tr).
Proof.
  unfold create_issue_with_retry.
  destruct (retry_loop_terminates (S (Z.to_nat retries)) 0 tr) as [out Hout]; [lia | lia |].
  rewrite Hout. reflexivity.
Qed.

Lemma create_issue_with_retry_not_transient (tr tr' : list event) (e : exn) :
  attempt tr = (Raise e, tr') -> is_transient e = false ->
  create_issue_with_retry gh owner repo_name row milestone_number dry_run retries
                          retry_base_delay tr = (Raise e, tr').
Proof.
  intros Ha Ht. pose proof (create_issue_with_retry_loop tr) as H.
  rewrite retry_loop_step, Ha, Ht in H.
  destruct (negb (is_Exception e)); [congruence|].
  rewrite orb_true_r in H. simpl in H. congruence.
Qed.

(** C2. The retry wrapper classifies an error as transient iff its text,
    case ignored, contains one of the eight fixed markers, which are
    listed; it follows the retry policy ([retry_run]: after the n-th
    failed call with a transient error and calls remaining it announces
    the retry, sleeps base * 2^(n-1) seconds and calls again, unless that
    pause raises: a duration that [time.sleep] refuses, or a power of two
    too large for a float, ends the wrapper with that exception and
    without another call); it makes at least one and at most
    [max 1 retries] calls, hence at most [retries] when [retries] is at
    least 1, and exactly one in dry-run mode; and an error of the first
    call that is not transient propagates with the log of that call alone,
    hence without a sleep. *)
Theorem create_issue_with_retry_policy (tr : list event) :
  (forall e, is_transient e = true <->
             exists marker,
               In marker ["timeout"; "timed out"; "rate limit"; "502"; "503"; "500";
                          "network"; "temporarily unavailable"]
               /\ contains_ci marker (exn_text e))
  /\ (exists k,
        policy 1 tr k (create_issue_with_retry gh owner repo_name row milestone_number dry_run
                                               retries retry_base_delay tr)
        /\ (1 <= k)%nat /\ Z.of_nat k <= Z.max 1 retries
        /\ (1 <= retries -> Z.of_nat k <= retries)
        /\ (dry_run = true -> k = 1%nat))
  /\ (forall e tr', attempt tr = (Raise e, tr') -> is_transient e = false ->
                    create_issue_with_retry gh owner repo_name row milestone_number dry_run
                                            retries retry_base_delay tr = (Raise e, tr')).
Proof.
  split; [exact is_transient_spec|]. split.
  - destruct (retry_loop_policy _ _ _ _ (create_issue_with_retry_loop tr)) as [k [Hk _]].
    exists k. split; [exact Hk|].
    destruct (policy_bound _ _ _ _ Hk) as [H1 H2].
    split; [exact H1|]. split; [lia|]. split; [lia|]. apply (policy_dry_run _ _ _ _ Hk).
  - intros e tr'. apply create_issue_with_retry_not_transient.
Qed.
End RetryProofs.

(** ** Invariants of computations *)

Section Steady.
Context {St : Type} (R : St -> St -> Prop).
Hypothesis R_refl : forall s, R s s.
Hypothesis R_trans : forall s1 s2 s3, R s1 s2 -> R s2 s3 -> R s1 s3.

Lemma steady_ret {A} (a : A) : steady R (ret a).
Proof. intros s. apply R_refl. Qed.

Lemma steady_raise {A} (e : exn) : steady R (raise (A := A) e).
Proof. intros s. apply R_refl. Qed.

Lemma steady_bind {A B} (m : M St A) (k : A -> M St B) :
  steady R m -> (forall a, steady R (k a)) -> steady R (bind m k).
Proof.
  intros Hm Hk s. unfold bind. specialize (Hm s).
  destruct (m s) as [[a|e] s']; simpl in *; [|exact Hm].
  eapply R_trans; [exact Hm | apply Hk].
Qed.

Lemma steady_try_except {A} (m : M St A) (h : exn -> M St A) :
  steady R m -> (forall e, steady R (h e)) -> steady R (try_except m h).
Proof.
  intros Hm Hh s. unfold try_except. specialize (Hm s).
  destruct (m s) as [[a|e] s']; simpl in *; [exact Hm|].
  destruct (is_Exception e); [|exact Hm].
  eapply R_trans; [exact Hm | apply Hh].
Qed.

Lemma steady_when (b : bool) (m : M St unit) : steady R m -> steady R (when b m).
Proof. intros Hm. destruct b; [exact Hm | apply steady_ret]. Qed.

Lemma steady_py_int (v : json) : steady R (py_int (St := St) v).
Proof.
  destruct v; simpl; try apply steady_raise; try apply steady_ret.
  destruct (int_of_str s); [apply steady_ret | apply steady_raise].
Qed.

Lemma steady_py_getitem (v : json) (k : string) : steady R (py_getitem (St := St) v k).
Proof.
  destruct v; simpl; try apply steady_raise.
  destruct (dict_get k l); [apply steady_ret | apply steady_raise].
Qed.
End Steady.

Lemma grows_by_refl (P : event -> Prop) (tr : list event) : grows_by P tr tr.
Proof. exists []. split; [symmetry; apply app_nil_r | constructor]. Qed.

Lemma grows_by_trans (P : event -> Prop) (t1 t2 t3 : list event) :
  grows_by P t1 t2 -> grows_by P t2 t3 -> grows_by P t1 t3.
Proof.
  intros [e1 [-> H1]] [e2 [-> H2]]. exists (e1 ++ e2).
  split; [symmetry; apply app_assoc | apply Forall_app; split; assumption].
Qed.

Lemma grows_by_one (P : event -> Prop) (tr : list event) (e : event) :
  P e -> grows_by P tr (tr ++ [e]).
Proof. intros H. exists [e]. split; [reflexivity | repeat constructor; exact H]. Qed.

Lemma same_results_refl (s : driver) : same_results s s.
Proof. split; reflexivity. Qed.

Lemma same_results_trans (s1 s2 s3 : driver) :
  same_results s1 s2 -> same_results s2 s3 -> same_results s1 s3.
Proof. intros [H1 H2] [H3 H4]. split; congruence. Qed.

Lemma log_grows_by_refl (P : event -> Prop) (s : driver) : log_grows_by P s s.
Proof. apply grows_by_refl. Qed.

Lemma log_grows_by_trans (P : event -> Prop) (s1 s2 s3 : driver) :
  log_grows_by P s1 s2 -> log_grows_by P s2 s3 -> log_grows_by P s1 s3.
Proof. apply grows_by_trans. Qed.

Lemma lift_eq {A} (m : T A) (s : driver) :
  lift m s = (fst (m (log s)), set_log (snd (m (log s))) s).
Proof. unfold lift. destruct (m (log s)); reflexivity. Qed.

Lemma steady_lift_results {A} (m : T A) : steady same_results (lift m).
Proof. intros s. rewrite lift_eq. split; reflexivity. Qed.

Lemma steady_lift_log (P : event -> Prop) {A} (m : T A) :
  steady (grows_by P) m -> steady (log_grows_by P) (lift m).
Proof. intros H s. rewrite lift_eq. apply H. Qed.

Lemma steady_emit (P : event -> Prop) (e : event) : P e -> steady (grows_by P) (emit e).
Proof. intros H tr. apply grows_by_one. exact H. Qed.

Lemma steady_sleep (P : event -> Prop) (d : Q) :
  P (Sleep d) -> steady (grows_by P) (sleep d).
Proof.
  intros H tr. unfold sleep. destruct (sleep_error d); [apply grows_by_refl|].
  apply grows_by_one. exact H.
Qed.

Lemma steady_run (P : event -> Prop) (gh : remote) (cmd : list string) (input : option string) :
  (forall r, P (Call cmd input r)) -> steady (grows_by P) (run gh cmd input).
Proof. intros H tr. apply grows_by_one. apply H. Qed.

Lemma steady_gets (R : driver -> driver -> Prop) {A} (f : driver -> A) :
  (forall s, R s s) -> steady R (gets f).
Proof. intros H s. apply H. Qed.

Lemma steady_modify (R : driver -> driver -> Prop) (f : driver -> driver) :
  (forall s, R s (f s)) -> steady R (modify f).
Proof. intros H s. apply H. Qed.

Create HintDb steady discriminated.

#[local] Hint Resolve grows_by_refl grows_by_trans same_results_refl same_results_trans
  log_grows_by_refl log_grows_by_trans : steady.

(** Takes a computation apart along its syntax; leaves the calls and the
    events to be justified. *)
Ltac steady_step :=
  lazymatch goal with
  | |- steady _ (ret _) => apply steady_ret; eauto with steady
  | |- steady _ (raise _) => apply steady_raise; eauto with steady
  | |- steady _ (bind _ _) => apply steady_bind; [solve [eauto with steady] | | intros ?]
  | |- steady _ (try_except _ _) =>
      apply steady_try_except; [solve [eauto with steady] | | intros ?]
  | |- steady _ (when _ _) => apply steady_when; [solve [eauto with steady] | ]
  | |- steady _ (py_int _) => apply steady_py_int; eauto with steady
  | |- steady _ (py_getitem _ _) => apply steady_py_getitem; eauto with steady
  | |- steady _ (lift _) => first [apply steady_lift_results | apply steady_lift_log]
  | |- steady _ (gets _) => apply steady_gets; eauto with steady
  | |- steady _ (modify _) => apply steady_modify; intros ?
  | |- steady _ (print _) => apply steady_emit
  | |- steady _ (eprint _) => apply steady_emit
  | |- steady _ (sleep _) => apply steady_sleep
  | |- steady _ (emit _) => apply steady_emit
  | |- steady _ (run _ _ _) => apply steady_run; intros ?
  | |- steady _ (match ?x with _ => _ end) => destruct x
  end.

Ltac steady_auto :=
  repeat steady_step; try exact I; try reflexivity; try (split; reflexivity);
  try apply grows_by_refl.

(** ** Dry-run mode makes no call that changes the repository *)

Section DryRun.
Variable gh : remote.

Local Abbreviation quiet := (steady (grows_by harmless)).
Local Abbreviation quietD := (steady (log_grows_by harmless)).

Lemma quiet_gh_json (cmd : list string) : is_mutation cmd = false -> quiet (gh_json gh cmd).
Proof. intros H. unfold gh_json. steady_auto. exact H. Qed.

Lemma quiet_ensure_repo (repo : option string) : quiet (ensure_repo_name_with_owner gh repo).
Proof.
  unfold ensure_repo_name_with_owner.
  destruct (or_none repo); [steady_auto|].
  apply steady_bind; [solve [eauto with steady] | apply quiet_gh_json; reflexivity |].
  intros data. steady_auto.
Qed.

Lemma quiet_get_existing_labels (repo : string) : quiet (get_existing_labels gh repo).
Proof.
  unfold get_existing_labels.
  apply steady_bind; [solve [eauto with steady] | apply quiet_gh_json; reflexivity |].
  intros data. steady_auto.
Qed.

Lemma quiet_lower_names (names : list json) : quiet (lower_names names).
Proof.
  induction names as [|v names IH]; simpl; [steady_auto|].
  destruct v; try solve [steady_auto].
  apply steady_bind; [solve [eauto with steady] | exact IH |]. intros r. steady_auto.
Qed.

Lemma quiet_ensure_each_label (repo : string) (existing labels : list string) :
  quiet (ensure_each_label gh repo existing true labels).
Proof.
  induction labels as [|label rest IH]; simpl; [steady_auto|].
  apply steady_bind; [solve [eauto with steady] | | intros _; exact IH].
  steady_auto.
Qed.

Lemma quiet_ensure_labels (repo : string) (labels : list string) :
  quiet (ensure_labels gh repo labels true).
Proof.
  unfold ensure_labels. destruct labels as [|l labels]; [steady_auto|].
  apply steady_bind; [solve [eauto with steady] | apply quiet_get_existing_labels |]. intros names.
  apply steady_bind; [solve [eauto with steady] | apply quiet_lower_names |]. intros existing.
  apply quiet_ensure_each_label.
Qed.

Lemma quiet_milestones_of (items : list json) :
  forall mapping, quiet (milestones_of items mapping).
Proof.
  induction items as [|m items IH]; intros mapping; simpl; [steady_auto|].
  destruct m; try apply IH.
  destruct (dict_get "title" l); [|apply IH].
  destruct (dict_get "number" l); [|apply IH].
  apply steady_bind; [solve [eauto with steady] | steady_auto |]. intros number. apply IH.
Qed.

Lemma quiet_get_milestones_map (owner repo_name : string) :
  quiet (get_milestones_map gh owner repo_name).
Proof.
  unfold get_milestones_map.
  apply steady_bind; [solve [eauto with steady] | apply steady_run; intros r; reflexivity |].
  intros [[code out] err].
  destruct (negb (code =? 0)); [steady_auto|].
  destruct (json_loads out) as [v|]; [destruct v; try solve [steady_auto]|];
    apply quiet_milestones_of.
Qed.

Lemma quiet_ensure_milestone (owner repo_name title : string) :
  quiet (ensure_milestone gh owner repo_name title true).
Proof.
  unfold ensure_milestone.
  apply steady_bind; [solve [eauto with steady] | apply quiet_get_milestones_map |].
  intros ms_map. steady_auto.
Qed.

Lemma quiet_create_issue_via_api (owner repo_name : string) (row : IssueRow)
      (milestone_number : option Z) :
  quiet (create_issue_via_api gh owner repo_name row milestone_number true).
Proof. unfold create_issue_via_api. steady_auto. Qed.

Lemma quiet_print_command (args : list string) : quiet (print_command args).
Proof. unfold print_command. steady_auto. Qed.

Lemma quiet_add_issue_to_project_v2 (project_owner : string) (project_number : Z)
      (issue_url : string) :
  quiet (add_issue_to_project_v2 gh project_owner project_number issue_url true).
Proof. apply quiet_print_command. Qed.

Lemma quiet_close_issue (issue repo : string) (reason : option string) :
  quiet (close_issue gh issue repo reason true).
Proof. apply quiet_print_command. Qed.
End DryRun.

Section DryRunDriver.
Variable gh : remote.
Variable args : Args.
Hypothesis dry : arg_dry_run args = true.

Local Abbreviation quiet := (steady (grows_by harmless)).
Local Abbreviation quietD := (steady (log_grows_by harmless)).

Lemma quiet_retry_loop (owner repo_name : string) (row : IssueRow) (mn : option Z)
      (retries : Z) (base : Q) (fuel : nat) :
  forall made tr out,
    retry_loop gh owner repo_name row mn true retries base fuel made tr = Some out ->
    grows_by harmless tr (snd out).
Proof.
  induction fuel as [|fuel IH]; intros made tr out H; [discriminate|].
  rewrite retry_loop_step in H.
  pose proof (quiet_create_issue_via_api gh owner repo_name row mn tr) as Hq.
  destruct (create_issue_via_api gh owner repo_name row mn true tr) as [[r|e] tr'];
    simpl in Hq; [injection H as <-; exact Hq|].
  destruct (negb (is_Exception e)); [injection H as <-; exact Hq|].
  rewrite !orb_true_r in H. injection H as <-. exact Hq.
Qed.

Lemma quiet_create_issue_with_retry (owner repo_name : string) (row : IssueRow)
      (mn : option Z) (retries : Z) (base : Q) :
  quiet (create_issue_with_retry gh owner repo_name row mn true retries base).
Proof.
  intros tr. eapply quiet_retry_loop. apply create_issue_with_retry_loop.
Qed.

Lemma quiet_normalize (raw : raw_record) : forall norm, quiet (normalize raw norm).
Proof.
  induction raw as [|[k v] raw IH]; intros norm; simpl; [steady_auto|].
  destruct v as [s| |[|x l]]; try apply IH. steady_auto.
Qed.

Lemma quiet_read_records (records : list raw_record) : forall i, quiet (read_records i records).
Proof.
  induction records as [|raw records IH]; intros i; simpl; [steady_auto|].
  destruct (is_nil raw); [apply IH|].
  apply steady_bind; [solve [eauto with steady] | apply quiet_normalize |]. intros norm.
  destruct (negb (truthy (get_or norm "title"))).
  - apply steady_bind; [solve [eauto with steady] | steady_auto | intros _; apply IH].
  - apply steady_bind; [solve [eauto with steady] | steady_auto |]. intros pn.
    apply steady_bind; [solve [eauto with steady] | apply IH |]. intros rows. steady_auto.
Qed.

Lemma quiet_print_all (lines : list string) : quiet (print_all lines).
Proof. induction lines; simpl; [steady_auto|]. apply steady_bind; eauto with steady. steady_auto. Qed.

Lemma quiet_eprint_all (lines : list string) : quiet (eprint_all lines).
Proof. induction lines; simpl; [steady_auto|]. apply steady_bind; eauto with steady. steady_auto. Qed.

Lemma log_grows_by_set_cache (m : gmap string Z) (s : driver) :
  log_grows_by harmless s (set_cache m s).
Proof. apply grows_by_refl. Qed.

Lemma log_grows_by_add_created (c : Z * string * string) (s : driver) :
  log_grows_by harmless s (add_created c s).
Proof. apply grows_by_refl. Qed.

Lemma log_grows_by_add_error (msg : string) (s : driver) :
  log_grows_by harmless s (add_error msg s).
Proof. apply grows_by_refl. Qed.

Lemma quiet_render_progress (total done : Z) (current : option string) :
  quietD (render_progress args total done current).
Proof. unfold render_progress. steady_auto. Qed.

Lemma quiet_resolve_milestone (owner repo_name : string) (row : IssueRow) :
  quietD (resolve_milestone gh args owner repo_name row).
Proof.
  unfold resolve_milestone. rewrite dry.
  destruct (or_none (milestone row)) as [name|]; [|steady_auto].
  apply steady_bind; [solve [eauto with steady] | steady_auto |]. intros cache.
  apply steady_bind; [solve [eauto with steady] | |].
  { destruct cache; [steady_auto|].
    apply steady_bind; [solve [eauto with steady] | |].
    - apply steady_lift_log. apply quiet_get_milestones_map.
    - intros m. apply steady_bind; [solve [eauto with steady] | |].
      + apply steady_modify. apply log_grows_by_set_cache.
      + intros _. steady_auto. }
  intros m. apply steady_bind; [solve [eauto with steady] | | intros _; steady_auto].
  destruct (m !! str_lower name); [steady_auto|].
  destruct (arg_no_milestone_create args); [steady_auto|].
  apply steady_bind; [solve [eauto with steady] | |].
  - apply steady_lift_log. apply quiet_ensure_milestone.
  - intros msn. apply steady_when; [solve [eauto with steady]|].
    apply steady_modify. apply log_grows_by_set_cache.
Qed.

Lemma quiet_create_and_attach (owner repo_name : string) (row : IssueRow) :
  quietD (create_and_attach gh args owner repo_name row).
Proof.
  unfold create_and_attach. rewrite dry.
  apply steady_bind; [solve [eauto with steady] | apply quiet_resolve_milestone |]. intros mn.
  apply steady_bind; [solve [eauto with steady] | |].
  { apply steady_lift_log. apply quiet_create_issue_with_retry. }
  intros [number url].
  apply steady_bind; [solve [eauto with steady] | | intros _; steady_auto].
  destruct (or_none (project_owner row)); [|steady_auto].
  destruct (project_number row); [|steady_auto].
  apply steady_when; [solve [eauto with steady]|].
  apply steady_lift_log. apply quiet_add_issue_to_project_v2.
Qed.

Lemma quiet_row_steps (owner repo_name repo_full : string) (idx : Z) (row : IssueRow) :
  quietD (row_steps gh args owner repo_name repo_full idx row).
Proof.
  unfold row_steps. rewrite dry.
  apply steady_bind; [solve [eauto with steady] | apply quiet_create_and_attach |].
  intros [number url].
  apply steady_bind; [solve [eauto with steady] | |].
  { apply steady_when; [solve [eauto with steady]|].
    apply steady_lift_log. apply quiet_close_issue. }
  intros _. apply steady_bind; [solve [eauto with steady] | |].
  { apply steady_modify. apply log_grows_by_add_created. }
  intros _. steady_auto.
Qed.

Lemma quiet_record_failure (idx : Z) (row : IssueRow) (e : exn) :
  quietD (record_failure idx row e).
Proof.
  unfold record_failure.
  apply steady_bind; [solve [eauto with steady] | steady_auto |]. intros _.
  apply steady_modify. apply log_grows_by_add_error.
Qed.

Lemma quiet_process_row (owner repo_name repo_full : string) (total idx : Z) (row : IssueRow) :
  quietD (process_row gh args owner repo_name repo_full total idx row).
Proof.
  unfold process_row.
  apply steady_bind; [solve [eauto with steady] | |].
  { apply steady_when; [solve [eauto with steady] | apply quiet_render_progress]. }
  intros _. apply steady_bind; [solve [eauto with steady] | |].
  { unfold try_row.
    apply steady_try_except; [solve [eauto with steady] | apply quiet_row_steps |].
    intros e. apply quiet_record_failure. }
  intros _. apply steady_when; [solve [eauto with steady] | apply quiet_render_progress].
Qed.

Lemma quiet_process_rows (owner repo_name repo_full : string) (total : Z)
      (rows : list IssueRow) :
  forall idx, quietD (process_rows gh args owner repo_name repo_full total idx rows).
Proof.
  induction rows as [|row rows IH]; intros idx; simpl; [steady_auto|].
  apply steady_bind; [solve [eauto with steady] | apply quiet_process_row |].
  intros _. apply IH.
Qed.

Lemma quiet_summary : quietD summary.
Proof.
  unfold summary.
  apply steady_bind; [solve [eauto with steady] | steady_auto |]. intros done.
  apply steady_bind; [solve [eauto with steady] | steady_auto |]. intros failed.
  apply steady_bind; [solve [eauto with steady] | steady_auto |]. intros _.
  apply steady_bind; [solve [eauto with steady] | steady_auto |]. intros _.
  apply steady_bind; [solve [eauto with steady] | |].
  { apply steady_lift_log. apply quiet_print_all. }
  intros _. destruct (is_nil failed); [steady_auto|].
  apply steady_bind; [solve [eauto with steady] | steady_auto |]. intros _.
  apply steady_bind; [solve [eauto with steady] | |].
  { apply steady_lift_log. apply quiet_eprint_all. }
  intros _. steady_auto.
Qed.

Lemma quiet_import_rows (owner repo_name repo_full : string) (rows : list IssueRow) :
  quietD (import_rows gh args owner repo_name repo_full rows).
Proof.
  unfold import_rows. rewrite dry.
  apply steady_bind; [solve [eauto with steady] | |].
  { apply steady_when; [solve [eauto with steady]|].
    apply steady_lift_log. apply quiet_ensure_labels. }
  intros _. apply steady_bind; [solve [eauto with steady] | |].
  { apply steady_when; [solve [eauto with steady]|].
    apply steady_bind; [solve [eauto with steady] | steady_auto |].
    intros _. apply quiet_render_progress. }
  intros _. apply steady_bind; [solve [eauto with steady] | apply quiet_process_rows |].
  intros _. apply steady_bind; [solve [eauto with steady] | steady_auto |].
  intros _. apply quiet_summary.
Qed.

Lemma quiet_main (fs : string -> option (list (list string))) : quietD (main gh args fs).
Proof.
  unfold main.
  destruct (fs (arg_csv args)) as [lines|]; [|steady_auto].
  apply steady_bind; [solve [eauto with steady] | |].
  { apply steady_lift_log. apply quiet_ensure_repo. }
  intros repo. destruct repo; try solve [steady_auto].
  destruct (str_split1 "/" s) as [|owner [|repo_name [|x l]]]; try solve [steady_auto].
  apply steady_bind; [solve [eauto with steady] | |].
  { apply steady_lift_log. apply quiet_read_records. }
  intros rows. destruct (is_nil rows); [steady_auto|].
  apply quiet_import_rows.
Qed.

Lemma quiet_script (fs : string -> option (list (list string))) :
  Forall harmless (log (snd (script gh args fs))).
Proof.
  unfold script. pose proof (quiet_main fs start) as [ext [Hlog Hext]].
  destruct (main gh args fs start) as [[status|e] s]; simpl in Hlog; subst ext.
  - exact Hext.
  - destruct (is_Exception e); simpl; [exact Hext|].
    apply Forall_app. split; [exact Hext | repeat constructor].
Qed.
End DryRunDriver.

(** ** The loop over the rows *)

Section Loop.
Variable gh : remote.
Variable args : Args.
Variables owner repo_name repo_full : string.
Variable total : Z.

Lemma results_render_progress (done : Z) (current : option string) :
  steady same_results (render_progress args total done current).
Proof. unfold render_progress. steady_auto. Qed.

Lemma results_resolve_milestone (row : IssueRow) :
  steady same_results (resolve_milestone gh args owner repo_name row).
Proof. unfold resolve_milestone. steady_auto. Qed.

Lemma results_create_and_attach (row : IssueRow) :
  steady same_results (create_and_attach gh args owner repo_name row).
Proof.
  unfold create_and_attach.
  apply steady_bind; [solve [eauto with steady] | apply results_resolve_milestone |].
  intros mn. steady_auto.
Qed.

Lemma when_lift_results (b : bool) (m : T unit) (s : driver) :
  same_results s (snd (when b (lift m) s)).
Proof. destruct b; simpl; [apply steady_lift_results | apply same_results_refl]. Qed.

(** The body of the [try]: a row that goes through adds one issue to the
    list of the issues created; a row that raises leaves both lists,
    unless it is the pause after the row that raises: the issue is in the
    list by then. *)
Lemma row_steps_spec (idx : Z) (row : IssueRow) (s : driver) :
  match row_steps gh args owner repo_name repo_full idx row s with
  | (Ret _, s') =>
      errors s' = errors s /\
      exists number url, created s' = created s ++ [(idx, number, url)]
  | (Raise e, s') =>
      same_results s s'
      \/ (errors s' = errors s
          /\ (exists number url, created s' = created s ++ [(idx, number, url)])
          /\ is_Exception e = true
          /\ ~ pause_accepted args)
  end.
Proof.
  unfold row_steps, bind.
  pose proof (results_create_and_attach row s) as H1.
  destruct (create_and_attach gh args owner repo_name row s) as [[[number url]|e] s1];
    simpl in H1; [|left; exact H1].
  pose proof (when_lift_results (String.eqb (state row) "closed")
                (close_issue gh url repo_full (close_reason row) (arg_dry_run args)) s1) as H2.
  destruct (when (String.eqb (state row) "closed")
              (lift (close_issue gh url repo_full (close_reason row) (arg_dry_run args))) s1)
    as [[[]|e] s2]; simpl in H2; [|left; eapply same_results_trans; eassumption].
  unfold modify. destruct H1 as [H1 H1'], H2 as [H2 H2'].
  destruct (q_lt 0 (arg_delay args) && negb (arg_dry_run args)) eqn:Hwait; cbn [when].
  - rewrite lift_eq. destruct (sleep_error (arg_delay args)) as [e|] eqn:Hs.
    + rewrite (sleep_refused _ _ _ Hs). simpl. right.
      split; [congruence|]. split; [exists (str_of_int number), url; congruence|].
      split; [eapply sleep_error_is_Exception; exact Hs|].
      intros Hok. rewrite (Hok Hwait) in Hs. discriminate.
    + rewrite (sleep_accepted _ _ Hs). simpl.
      split; [congruence | exists (str_of_int number), url; congruence].
  - simpl. split; [congruence | exists (str_of_int number), url; congruence].
Qed.

(** One iteration records the row, as created or as failed, or as both when
    the pause after it raises; only a user interrupt leaves it by an
    exception. *)
Lemma process_row_spec (idx : Z) (row : IssueRow) (s : driver) :
  match process_row gh args owner repo_name repo_full total idx row s with
  | (Ret _, s') =>
      (errors s' = errors s /\ exists number url, created s' = created s ++ [(idx, number, url)])
      \/ (created s' = created s /\ exists e, errors s' = errors s ++ [failure_message idx row e])
      \/ ((exists number url, created s' = created s ++ [(idx, number, url)])
          /\ (exists e, errors s' = errors s ++ [failure_message idx row e])
          /\ ~ pause_accepted args)
  | (Raise e, s') => is_Exception e = false
  end.
Proof.
  unfold process_row, bind.
  pose proof (results_render_progress (idx - 1) (Some (title row))) as H0.
  apply (steady_when same_results same_results_refl (negb (arg_no_progress args))) in H0.
  specialize (H0 s).
  assert (Hret : forall b d c st, exists st', when b (render_progress args total d c) st = (Ret tt, st')).
  { intros b d c st. destruct b; simpl; [|eauto]. unfold render_progress.
    destruct (arg_no_progress args); [unfold ret; eauto|]. rewrite lift_eq. simpl. eauto. }
  destruct (Hret (negb (arg_no_progress args)) (idx - 1) (Some (title row)) s) as [s0 E0].
  rewrite E0 in *. simpl in H0.
  unfold try_row, try_except.
  pose proof (row_steps_spec idx row s0) as H1.
  destruct (row_steps gh args owner repo_name repo_full idx row s0) as [[[]|e] s1].
  - destruct (Hret (negb (arg_no_progress args)) idx None s1) as [s2 E2]. rewrite E2.
    pose proof (steady_when same_results same_results_refl (negb (arg_no_progress args)) _
                  (results_render_progress idx None) s1) as H2.
    rewrite E2 in H2. simpl in H2. left.
    destruct H0 as [Ha Hb], H1 as [Hc [number [url Hd]]], H2 as [He Hf].
    split; [congruence | exists number, url; congruence].
  - assert (Hx : is_Exception e = false \/ is_Exception e = true)
      by (destruct (is_Exception e); auto).
    destruct Hx as [Hx|Hx].
    { rewrite Hx. destruct H1 as [_ | [_ [_ [Hx' _]]]]; [exact Hx | congruence]. }
    rewrite Hx.
    unfold record_failure, bind. rewrite lift_eq. simpl.
    destruct (Hret (negb (arg_no_progress args)) idx None
                (add_error (failure_message idx row e)
                   (set_log (log s1 ++ [Stderr ("ERROR: " +:+ failure_message idx row e)]) s1)))
      as [s2 E2].
    unfold modify. rewrite E2.
    pose proof (steady_when same_results same_results_refl (negb (arg_no_progress args)) _
                  (results_render_progress idx None)
                  (add_error (failure_message idx row e)
                     (set_log (log s1 ++ [Stderr ("ERROR: " +:+ failure_message idx row e)]) s1)))
      as H2.
    rewrite E2 in H2. unfold same_results in *. simpl in H2. right.
    destruct H0 as [Ha Hb], H2 as [He' Hf].
    destruct H1 as [[Hc Hd] | [Hd [[number [url Hc]] [_ Hno]]]].
    + left. split; [congruence | exists e; congruence].
    + right. split; [exists number, url; congruence|].
      split; [exists e; congruence | exact Hno].
Qed.
End Loop.

Section Run.
Variable gh : remote.
Variable args : Args.








End Run.

(** ** The exit status *)



(** ** A close call that fails *)

Lemma try_row_close_fails (gh : remote) (args : Args) (owner repo_name repo_full : string)
      (idx : Z) (row : IssueRow) (s s1 : driver) (number : Z) (url : string) (e : exn)
      (tr2 : list event) :
  state row = "closed" ->
  create_and_attach gh args owner repo_name row s = (Ret (number, url), s1) ->
  close_issue gh url repo_full (close_reason row) (arg_dry_run args) (log s1) = (Raise e, tr2) ->
  is_Exception e = true ->
  try_row gh args owner repo_name repo_full idx row s =
  (Ret tt, add_error (failure_message idx row e)
             (set_log (tr2 ++ [Stderr ("ERROR: " +:+ failure_message idx row e)]) s1)).
Proof.
  intros Hst Hcreate Hclose He.
  unfold try_row, try_except, row_steps, bind. rewrite Hcreate, Hst. simpl.
  rewrite lift_eq, Hclose. simpl. rewrite He.
  unfold record_failure, bind. rewrite lift_eq. reflexivity.
Qed.

(** C1 (as amended). For a row whose state is [closed], if the issue is
    created (and attached) but the close call then fails, the [try]
    statement of the row adds a failure message for the row to the list of
    failures and leaves the list of created issues as it was: the tuple of
    the issue is not recorded. *)
Theorem close_failure_is_recorded_as_failure_only
        (gh : remote) (args : Args) (owner repo_name repo_full : string)
        (idx : Z) (row : IssueRow) (s s1 : driver) (number : Z) (url : string) (e : exn)
        (tr2 : list event) :
  state row = "closed" ->
  create_and_attach gh args owner repo_name row s = (Ret (number, url), s1) ->
  close_issue gh url repo_full (close_reason row) (arg_dry_run args) (log s1) = (Raise e, tr2) ->
  is_Exception e = true ->
  exists s',
    try_row gh args owner repo_name repo_full idx row s = (Ret tt, s')
    /\ errors s' = errors s ++ [failure_message idx row e]
    /\ created s' = created s.
Proof.
  intros Hst Hcreate Hclose He. eexists. split.
  - eapply try_row_close_fails; eassumption.
  - pose proof (results_create_and_attach gh args owner repo_name row s) as [Hc Hr].
    rewrite Hcreate in Hc, Hr. simpl in *. split; congruence.
Qed.

(** ** The arguments of the retry wrapper *)

Lemma q_max_lower_bound (a b : Q) : (a <= q_max a b)%Q.
Proof.
  unfold q_max, q_lt. destruct (Qle_bool b a) eqn:H; simpl.
  - apply Qle_refl.
  - apply Qlt_le_weak. apply Qnot_le_lt. intros Hle.
    apply Qle_bool_iff in Hle. congruence.
Qed.

Section Attempts.
Variable gh : remote.
Variables owner repo_name : string.
Variable row : IssueRow.

Local Abbreviation grows := (steady (grows_by (fun _ => True))).

Lemma grows_create_issue_via_api (mn : option Z) (dry_run : bool) :
  grows (create_issue_via_api gh owner repo_name row mn dry_run).
Proof. unfold create_issue_via_api. steady_auto. Qed.

Lemma grows_add_issue_to_project_v2 (po : string) (pn : Z) (url : string) (dry_run : bool) :
  grows (add_issue_to_project_v2 gh po pn url dry_run).
Proof. unfold add_issue_to_project_v2, print_command. steady_auto. Qed.

Local Abbreviation silent := (steady (fun t t' : list event => t' = t)).

Lemma silent_trans (t1 t2 t3 : list event) : t2 = t1 -> t3 = t2 -> t3 = t1.
Proof. congruence. Qed.

Lemma silent_response (code : Z) (out : string) (e0 : exn) (t : list event) :
  snd ((if negb (code =? 0) then raise e0
        else
          match json_loads out with
          | None => raise decode_error
          | Some data =>
              n <- py_getitem data "number" ;;
              number <- py_int n ;;
              u <- py_getitem data "html_url" ;;
              ret (number, py_str u)
          end) t) = t :> list event.
Proof.
  revert t. change (silent (if negb (code =? 0) then raise (A := Z * string) e0
        else
          match json_loads out with
          | None => raise decode_error
          | Some data =>
              n <- py_getitem data "number" ;;
              number <- py_int n ;;
              u <- py_getitem data "html_url" ;;
              ret (number, py_str u)
          end)).
  destruct (negb (code =? 0)); [intros t; reflexivity|].
  destruct (json_loads out) as [data|]; [|intros t; reflexivity].
  apply steady_bind; [exact silent_trans | apply steady_py_getitem; reflexivity |].
  intros n. apply steady_bind; [exact silent_trans | apply steady_py_int; reflexivity |].
  intros number. apply steady_bind; [exact silent_trans | apply steady_py_getitem; reflexivity |].
  intros u t. reflexivity.
Qed.

(** Every call of [create_issue_via_api] starts with the request, or with
    its announcement in dry-run mode. *)
Lemma create_issue_via_api_first_event (mn : option Z) (dry_run : bool) (tr : list event) :
  exists e ext,
    is_attempt owner repo_name e
    /\ snd (create_issue_via_api gh owner repo_name row mn dry_run tr) = tr ++ e :: ext.
Proof.
  unfold create_issue_via_api. destruct dry_run.
  - eexists. eexists. split; [|unfold bind, print, emit; simpl; rewrite <- app_assoc; reflexivity].
    reflexivity.
  - exists (Call ["gh"; "api"; "-X"; "POST"; issues_endpoint owner repo_name; "--input"; "-"]
                 (Some (json_dumps None (JDict (issue_payload row mn))))
                 (gh tr ["gh"; "api"; "-X"; "POST"; issues_endpoint owner repo_name;
                         "--input"; "-"]
                     (Some (json_dumps None (JDict (issue_payload row mn)))))), [].
    split; [reflexivity|].
    unfold bind, run.
    destruct (gh tr _ _) as [code out err|]; [|reflexivity].
    apply silent_response.
Qed.

Section Wrapper.
Variable mn : option Z.
Variable dry_run : bool.
Variable retries : Z.
Variable base : Q.

(** The log that the wrapper leaves starts with the log of a first call. *)
Lemma retry_run_first_call (n : Z) (tr : list event) (k : nat)
      (out : res (Z * string) * list event) :
  retry_run gh owner repo_name row mn dry_run retries base n tr k out ->
  exists ext,
    snd out = snd (create_issue_via_api gh owner repo_name row mn dry_run tr) ++ ext.
Proof.
  induction 1 as [n tr r tr' Ha | n tr e tr' Ha Hstop
                  | n tr e tr' k out Ha He Ht Hn Hd Hw Hrun IH
                  | n tr e tr' e' Ha He Ht Hn Hd Hw].
  - exists []. rewrite Ha, app_nil_r. reflexivity.
  - exists []. rewrite Ha, app_nil_r. reflexivity.
  - destruct IH as [ext IH]. rewrite Ha. simpl.
    destruct (grows_create_issue_via_api mn dry_run
                (tr' ++ [RetryNotice n retries e (base * inject_Z (2 ^ (n - 1)))%Q;
                         Sleep (base * inject_Z (2 ^ (n - 1)))%Q])) as [ext' [Hg _]].
    rewrite IH, Hg, <- !app_assoc. eexists. reflexivity.
  - rewrite Ha. simpl. eexists. reflexivity.
Qed.

Lemma create_issue_with_retry_first_event (tr : list event) :
  exists e ext,
    is_attempt owner repo_name e
    /\ snd (create_issue_with_retry gh owner repo_name row mn dry_run retries base tr)
       = tr ++ e :: ext.
Proof.
  destruct (retry_loop_policy gh owner repo_name row mn dry_run retries base _ _ _ _
              (create_issue_with_retry_loop gh owner repo_name row mn dry_run retries base tr))
    as [k [Hk _]].
  apply retry_run_first_call in Hk. destruct Hk as [ext Hk].
  destruct (create_issue_via_api_first_event mn dry_run tr) as [e [ext' [He Hfirst]]].
  exists e, (ext' ++ ext). split; [exact He|].
  rewrite Hk, Hfirst, <- app_assoc. reflexivity.
Qed.
End Wrapper.
End Attempts.

Lemma bind_log_grows (P : event -> Prop) {A B} (m : D A) (k : A -> D B) (s : driver) :
  (forall a, steady (log_grows_by P) (k a)) ->
  log_grows_by P (snd (m s)) (snd (bind m k s)).
Proof.
  intros H. unfold bind. destruct (m s) as [[a|e] s']; simpl; [apply H | apply grows_by_refl].
Qed.

(** C10 (as amended). Whatever the values of [--retries] and
    [--retry-base-delay], the driver calls the retry wrapper with a number
    of attempts of at least 1 and a base delay of at least 0.1 second; for
    every row whose milestone resolution returns, the wrapper is run on the
    log reached there and makes at least one attempt to create the issue. *)
Theorem retry_arguments_are_clamped (gh : remote) (args : Args) (owner repo_name : string)
        (row : IssueRow) (s : driver) :
  1 <= Z.max 1 (arg_retries args)
  /\ (1 # 10 <= q_max (1 # 10) (arg_retry_base_delay args))%Q
  /\ match resolve_milestone gh args owner repo_name row s with
     | (Ret mn, s1) =>
         let wrapped :=
           create_issue_with_retry gh owner repo_name row mn (arg_dry_run args)
                                   (Z.max 1 (arg_retries args))
                                   (q_max (1 # 10) (arg_retry_base_delay args)) (log s1) in
         (exists e ext, is_attempt owner repo_name e /\ snd wrapped = log s1 ++ e :: ext)
         /\ (exists ext,
               log (snd (create_and_attach gh args owner repo_name row s)) = snd wrapped ++ ext)
     | (Raise _, _) => True
     end.
Proof.
  split; [lia|]. split; [apply q_max_lower_bound|].
  destruct (resolve_milestone gh args owner repo_name row s) as [[mn|e] s1] eqn:Hres; [|exact I].
  split; [apply create_issue_with_retry_first_event|].
  unfold create_and_attach. unfold bind at 1. rewrite Hres.
  match goal with |- context [bind (lift ?w) ?k s1] =>
    pose proof (bind_log_grows (fun _ => True) (lift w) k s1) as Hg
  end.
  rewrite lift_eq in Hg at 1. simpl in Hg. destruct Hg as [ext [Hg _]].
  - intros [number url].
    apply steady_bind; [solve [eauto with steady] | | intros _; steady_auto].
    destruct (or_none (project_owner row)) as [po|]; [|steady_auto].
    destruct (project_number row) as [pn|]; [|steady_auto].
    apply steady_when; [solve [eauto with steady]|].
    apply steady_lift_log. apply grows_add_issue_to_project_v2.
  - exists ext. exact Hg.
Qed.

(** ** Labels *)

Lemma run_eq (gh : remote) (cmd : list string) (input : option string) (tr : list event) :
  run gh cmd input tr =
  (match gh tr cmd input with
   | Reply code out err => Ret (code, out, err)
   | Interrupted => Raise interrupt
   end, tr ++ [Call cmd input (gh tr cmd input)]).
Proof. reflexivity. Qed.

(** What [get_existing_labels] makes of each answer of the remote. *)
Lemma get_existing_labels_cases (gh : remote) (repo : string) (tr : list event) :
  let cmd := label_list_cmd repo in
  let tr' := tr ++ [Call cmd None (gh tr cmd None)] in
  match gh tr cmd None with
  | Reply code out err =>
      if code =? 0 then
        match json_loads out with
        | Some (JList l) => get_existing_labels gh repo tr = (Ret (label_names l), tr')
        | Some _ => get_existing_labels gh repo tr = (Ret [], tr')
        | None =>
            exists text, get_existing_labels gh repo tr = (Raise (Exn RuntimeError text), tr')
        end
      else exists text, get_existing_labels gh repo tr = (Raise (Exn RuntimeError text), tr')
  | Interrupted => get_existing_labels gh repo tr = (Raise interrupt, tr')
  end.
Proof.
  unfold get_existing_labels, gh_json, bind, label_list_cmd. rewrite run_eq.
  destruct (gh tr _ None) as [code out err|]; [|reflexivity].
  destruct (code =? 0); simpl; [|eexists; reflexivity].
  destruct (json_loads out) as [v|]; [|eexists; reflexivity].
  destruct v; reflexivity.
Qed.

Lemma ensure_labels_raises (gh : remote) (repo : string) (labels : list string) (dry_run : bool)
      (tr tr' : list event) (e : exn) :
  labels <> [] ->
  get_existing_labels gh repo tr = (Raise e, tr') ->
  ensure_labels gh repo labels dry_run tr = (Raise e, tr').
Proof.
  intros Hl H. unfold ensure_labels, bind. destruct labels; [congruence|]. rewrite H. reflexivity.
Qed.

Lemma import_rows_raises (gh : remote) (args : Args) (owner repo_name repo_full : string)
      (rows : list IssueRow) (s : driver) (tr' : list event) (e : exn) :
  arg_no_label_create args = false ->
  ensure_labels gh repo_full (all_labels rows) (arg_dry_run args) (log s) = (Raise e, tr') ->
  import_rows gh args owner repo_name repo_full rows s = (Raise e, set_log tr' s).
Proof.
  intros Hno H. unfold import_rows, bind. rewrite Hno. simpl. rewrite lift_eq, H. reflexivity.
Qed.

(** C3 (as amended). Fetching the existing labels degrades to the empty
    list when the call returns JSON that is not a list.  When the call ends
    with an error status, or returns text that is not JSON, it raises a
    [RuntimeError]; [ensure_labels] passes it on and so does [main], which
    calls it outside of any [try]: the run ends there, with no row
    processed. *)
Theorem get_existing_labels_degrades_on_non_list_only
        (gh : remote) (repo : string) (tr : list event) :
  (let cmd := label_list_cmd repo in
   let tr' := tr ++ [Call cmd None (gh tr cmd None)] in
   match gh tr cmd None with
   | Reply code out err =>
       if code =? 0 then
         match json_loads out with
         | Some (JList l) => get_existing_labels gh repo tr = (Ret (label_names l), tr')
         | Some _ => get_existing_labels gh repo tr = (Ret [], tr')
         | None =>
             exists text, get_existing_labels gh repo tr = (Raise (Exn RuntimeError text), tr')
         end
       else exists text, get_existing_labels gh repo tr = (Raise (Exn RuntimeError text), tr')
   | Interrupted => get_existing_labels gh repo tr = (Raise interrupt, tr')
   end)
  /\ (forall labels dry_run e tr',
        labels <> [] ->
        get_existing_labels gh repo tr = (Raise e, tr') ->
        ensure_labels gh repo labels dry_run tr = (Raise e, tr'))
  /\ (forall args owner repo_name rows s e tr',
        arg_no_label_create args = false ->
        ensure_labels gh repo (all_labels rows) (arg_dry_run args) (log s) = (Raise e, tr') ->
        import_rows gh args owner repo_name repo rows s = (Raise e, set_log tr' s)).
Proof.
  split; [apply get_existing_labels_cases|]. split.
  - intros labels dry_run e tr'. apply ensure_labels_raises.
  - intros args owner repo_name rows s e tr'. apply import_rows_raises.
Qed.

Lemma ensure_each_label_cons (gh : remote) (repo : string) (existing : list string)
      (dry_run : bool) (label : string) (rest : list string) :
  ensure_each_label gh repo existing dry_run (label :: rest) =
  bind (if mem (str_lower label) existing then ret tt
        else if dry_run then
          print ("DRY-RUN: would create label '" +:+ label +:+ "' in " +:+ repo)
        else
          bind (run gh ["gh"; "label"; "create"; label; "-R"; repo] None)
               (fun r => let '(code, out, err) := r in
                         when (negb (code =? 0))
                              (eprint ("WARN: failed to create label '" +:+ label +:+ "': "
                                       +:+ err))))
       (fun _ => ensure_each_label gh repo existing dry_run rest).
Proof. reflexivity. Qed.





(** ** Milestones *)

Lemma ensure_milestone_dry_run (gh : remote) (owner repo_name title : string) (tr : list event) :
  ensure_milestone gh owner repo_name title true tr =
  match get_milestones_map gh owner repo_name tr with
  | (Ret m, tr') =>
      match m !! str_lower title with
      | Some number => (Ret number, tr')
      | None => (Ret (-1), tr' ++ [milestone_notice owner repo_name title])
      end
  | (Raise e, tr') => (Raise e, tr')
  end.
Proof.
  unfold ensure_milestone, bind.
  destruct (get_milestones_map gh owner repo_name tr) as [[m|e] tr']; [|reflexivity].
  destruct (m !! str_lower title); reflexivity.
Qed.

(** The caller of [ensure_milestone] stores the number it gets only when
    the number is positive, and passes on what the cache holds. *)
Lemma resolve_milestone_guard (gh : remote) (args : Args) (owner repo_name : string)
      (row : IssueRow) (name : string) (s s1 : driver) (m : gmap string Z) (msn : Z)
      (tr' : list event) :
  arg_no_milestone_create args = false ->
  or_none (milestone row) = Some name ->
  cache_ready gh owner repo_name s m s1 ->
  m !! str_lower name = None ->
  ensure_milestone gh owner repo_name name (arg_dry_run args) (log s1) = (Ret msn, tr') ->
  resolve_milestone gh args owner repo_name row s =
  if 0 <? msn then (Ret (Some msn), set_cache (<[str_lower name := msn]> m) (set_log tr' s1))
  else (Ret None, set_log tr' s1).
Proof.
  intros Hno Hname Hready Hkey Hens.
  unfold resolve_milestone. rewrite Hname, Hno. unfold bind at 1. unfold gets at 1.
  assert (Hfetch :
    (cache <- match milestone_cache s with
              | Some m0 => ret m0
              | None =>
                  m0 <- lift (get_milestones_map gh owner repo_name) ;;
                  modify (set_cache m0) ;; ret m0
              end ;; ret cache) s = (Ret m, s1) /\ milestone_cache s1 = Some m).
  { destruct Hready as [[Hc ->] | [Hc [tr1 [Hget ->]]]].
    - split; [rewrite Hc; reflexivity | exact Hc].
    - split; [rewrite Hc; unfold bind; rewrite lift_eq, Hget; reflexivity | reflexivity]. }
  destruct Hfetch as [Hfetch Hcache]. unfold bind in Hfetch |- *.
  destruct (match milestone_cache s with
            | Some m0 => ret m0
            | None => _
            end s) as [[m0|e] s0]; [|discriminate].
  unfold ret in Hfetch. injection Hfetch as -> ->.
  rewrite Hkey, lift_eq, Hens. simpl.
  destruct (0 <? msn); simpl.
  - unfold gets. simpl. rewrite lookup_insert_eq. reflexivity.
  - unfold gets. simpl. rewrite Hcache. simpl. rewrite Hkey. reflexivity.
Qed.

Lemma issue_payload_milestone (row : IssueRow) (mn : option Z) :
  dict_get "milestone" (issue_payload row mn) =
  match mn with
  | Some n => if 0 <? n then Some (JInt n) else None
  | None => None
  end.
Proof.
  unfold issue_payload.
  destruct (truthy (body row)), (labels row), (assignees row), mn as [n|];
    try destruct (0 <? n); reflexivity.
Qed.

(** C8. In dry-run mode [ensure_milestone] returns the sentinel -1 for a
    milestone that its lookup does not find, having only announced the
    creation.  Its caller, the loop of [main], does not store the sentinel:
    the milestone cache is left as it is, and the row gets no milestone
    number.  The request body has a milestone field exactly when the number
    it is given is positive. *)
Theorem dry_run_milestone_sentinel
        (gh : remote) (args : Args) (owner repo_name : string) (row : IssueRow) (name : string)
        (s s1 : driver) (m m' : gmap string Z) (tr' : list event) :
  arg_dry_run args = true ->
  arg_no_milestone_create args = false ->
  or_none (milestone row) = Some name ->
  cache_ready gh owner repo_name s m s1 ->
  m !! str_lower name = None ->
  get_milestones_map gh owner repo_name (log s1) = (Ret m', tr') ->
  m' !! str_lower name = None ->
  ensure_milestone gh owner repo_name name true (log s1)
  = (Ret (-1), tr' ++ [milestone_notice owner repo_name name])
  /\ resolve_milestone gh args owner repo_name row s
     = (Ret None, set_log (tr' ++ [milestone_notice owner repo_name name]) s1)
  /\ milestone_cache (set_log (tr' ++ [milestone_notice owner repo_name name]) s1) = Some m
  /\ (forall r mn,
        dict_get "milestone" (issue_payload r mn) =
        match mn with
        | Some n => if 0 <? n then Some (JInt n) else None
        | None => None
        end).
Proof.
  intros Hdry Hno Hname Hready Hkey Hget Hkey'.
  assert (Hens : ensure_milestone gh owner repo_name name true (log s1)
                 = (Ret (-1), tr' ++ [milestone_notice owner repo_name name])).
  { rewrite ensure_milestone_dry_run, Hget, Hkey'. reflexivity. }
  split; [exact Hens|]. split; [|split].
  - rewrite <- Hdry in Hens.
    rewrite (resolve_milestone_guard gh args owner repo_name row name s s1 m (-1) _
               Hno Hname Hready Hkey Hens).
    reflexivity.
  - simpl. destruct Hready as [[Hc ->] | [_ [tr1 [_ ->]]]]; [exact Hc | reflexivity].
  - apply issue_payload_milestone.
Qed.

(** ** Dry-run mode *)

Lemma ensure_each_label_dry_run (gh : remote) (repo : string) (existing : list string)
      (label : string) (rest : list string) (tr : list event) :
  ensure_each_label gh repo existing true (label :: rest) tr =
  ensure_each_label gh repo existing true rest
    (if mem (str_lower label) existing then tr
     else tr ++ [Stdout ("DRY-RUN: would create label '" +:+ label +:+ "' in " +:+ repo)]).
Proof.
  rewrite ensure_each_label_cons. unfold bind.
  destruct (mem (str_lower label) existing); reflexivity.
Qed.

Lemma create_issue_via_api_dry_run (gh : remote) (owner repo_name : string) (row : IssueRow)
      (mn : option Z) (tr : list event) :
  create_issue_via_api gh owner repo_name row mn true tr =
  (Ret (-1, "DRY-RUN"),
   tr ++ [Stdout ("DRY-RUN: would POST JSON to " +:+ issues_endpoint owner repo_name);
          Stdout (json_dumps (Some 2%nat) (JDict (issue_payload row mn)))]).
Proof.
  unfold create_issue_via_api, bind, print, emit, ret. rewrite <- app_assoc. reflexivity.
Qed.

Lemma print_command_eq (args : list string) (tr : list event) :
  print_command args tr =
  (Ret tt, tr ++ [Stdout "DRY-RUN: would run:";
                  Stdout ("  " +:+ str_join " " (map sh_quote args))]).
Proof. unfold print_command, bind, print, emit. rewrite <- app_assoc. reflexivity. Qed.

(** The five commands by which the script changes a repository are the
    ones that [is_mutation] recognises; its three reads are not. *)
Lemma is_mutation_commands (owner repo_name repo label title url owner' number : string)
      (reason : list string) :
  is_mutation ["gh"; "label"; "create"; label; "-R"; repo] = true
  /\ is_mutation ["gh"; "api"; "-X"; "POST";
                  "repos/" +:+ owner +:+ "/" +:+ repo_name +:+ "/milestones";
                  "-f"; "title=" +:+ title] = true
  /\ is_mutation ["gh"; "api"; "-X"; "POST"; issues_endpoint owner repo_name; "--input"; "-"]
     = true
  /\ is_mutation ["gh"; "project"; "item-add"; number; "--owner"; owner'; "--url"; url] = true
  /\ is_mutation (["gh"; "issue"; "close"; url; "-R"; repo] ++ reason) = true
  /\ is_mutation ["gh"; "repo"; "view"; "--json"; "nameWithOwner"] = false
  /\ is_mutation (label_list_cmd repo) = false
  /\ is_mutation ["gh"; "api"; "--paginate";
                  "repos/" +:+ owner +:+ "/" +:+ repo_name +:+ "/milestones"] = false.
Proof. repeat split; reflexivity. Qed.

(** C4. In dry-run mode the whole run makes no call that changes the
    repository: every call in its log is a read.  Each operation that would
    create a label, a milestone or an issue, attach an issue to a project or
    close an issue prints what it would do instead, and returns. *)
Theorem dry_run_makes_no_mutation (gh : remote) (args : Args)
        (fs : string -> option (list (list string))) :
  arg_dry_run args = true ->
  Forall harmless (log (snd (script gh args fs)))
  /\ (forall repo existing label rest tr,
        ensure_each_label gh repo existing true (label :: rest) tr =
        ensure_each_label gh repo existing true rest
          (if mem (str_lower label) existing then tr
           else tr ++ [Stdout ("DRY-RUN: would create label '" +:+ label +:+ "' in "
                               +:+ repo)]))
  /\ (forall owner repo_name title tr,
        ensure_milestone gh owner repo_name title true tr =
        match get_milestones_map gh owner repo_name tr with
        | (Ret m, tr') =>
            match m !! str_lower title with
            | Some number => (Ret number, tr')
            | None => (Ret (-1), tr' ++ [milestone_notice owner repo_name title])
            end
        | (Raise e, tr') => (Raise e, tr')
        end)
  /\ (forall owner repo_name row mn tr,
        create_issue_via_api gh owner repo_name row mn true tr =
        (Ret (-1, "DRY-RUN"),
         tr ++ [Stdout ("DRY-RUN: would POST JSON to " +:+ issues_endpoint owner repo_name);
                Stdout (json_dumps (Some 2%nat) (JDict (issue_payload row mn)))]))
  /\ (forall project_owner project_number issue_url tr,
        add_issue_to_project_v2 gh project_owner project_number issue_url true tr =
        (Ret tt,
         tr ++ [Stdout "DRY-RUN: would run:";
                Stdout ("  " +:+ str_join " "
                          (map sh_quote ["gh"; "project"; "item-add";
                                         str_of_int project_number; "--owner"; project_owner;
                                         "--url"; issue_url]))]))
  /\ (forall issue repo reason tr,
        close_issue gh issue repo reason true tr =
        (Ret tt,
         tr ++ [Stdout "DRY-RUN: would run:";
                Stdout ("  " +:+ str_join " "
                          (map sh_quote (["gh"; "issue"; "close"; issue; "-R"; repo]
                                         ++ match or_none reason with
                                            | Some r => ["--reason"; r]
                                            | None => []
                                            end)))])).
Proof.
  intros Hdry. split; [apply quiet_script; exact Hdry|].
  split; [intros; apply ensure_each_label_dry_run|].
  split; [intros; apply ensure_milestone_dry_run|].
  split; [intros; apply create_issue_via_api_dry_run|].
  split; intros; apply print_command_eq.
Qed.

(** ** The record parser *)

Lemma char_lower_idempotent (c : ascii) : char_lower (char_lower c) = char_lower c.
Proof.
  destruct c as [b0 b1 b2 b3 b4 b5 b6 b7].
  destruct b0, b1, b2, b3, b4, b5, b6, b7; vm_compute; reflexivity.
Qed.

Lemma str_lower_idempotent (s : string) : str_lower (str_lower s) = str_lower s.
Proof.
  induction s as [|c s IH]; simpl; [reflexivity|].
  rewrite char_lower_idempotent, IH. reflexivity.
Qed.

Lemma str_lower_not_empty (s : string) : truthy s = true -> str_lower s <> EmptyString.
Proof. destruct s; simpl; [discriminate | discriminate]. Qed.

Lemma or_none_truthy (o : option string) (s : string) : or_none o = Some s -> truthy s = true.
Proof.
  unfold or_none. destruct o as [t|]; [|discriminate].
  destruct (truthy t) eqn:H; [|discriminate]. intros [= <-]. exact H.
Qed.

Lemma read_state_well_formed (o : option string) :
  let st := str_lower (default "open" (or_none o)) in
  st <> EmptyString /\ str_lower st = st.
Proof.
  simpl. split; [|apply str_lower_idempotent].
  destruct (or_none o) as [s|] eqn:H; simpl; [|discriminate].
  apply str_lower_not_empty. eapply or_none_truthy. exact H.
Qed.

Lemma read_records_well_formed (records : list raw_record) :
  forall i tr rows tr',
    read_records i records tr = (Ret rows, tr') -> Forall row_well_formed rows.
Proof.
  induction records as [|raw records IH]; intros i tr rows tr' H; simpl in H.
  - injection H as <- <-. constructor.
  - destruct (is_nil raw); [eapply IH; exact H|].
    unfold bind in H.
    destruct (normalize raw ∅ tr) as [[norm|e] tr1]; [|discriminate].
    destruct (negb (truthy (get_or norm "title"))) eqn:Htitle.
    + unfold print, emit in H. eapply IH. exact H.
    + match type of H with
      | match ?c with _ => _ end = _ => destruct c as [[pn|e] tr2]; [|discriminate]
      end.
      destruct (read_records (i + 1) records tr2) as [[rest|e] tr3] eqn:Hrest; [|discriminate].
      injection H as <- <-. constructor; [|eapply IH; exact Hrest].
      unfold row_well_formed. simpl. split.
      * apply negb_false_iff in Htitle. destruct (get_or norm "title"); [discriminate | discriminate].
      * apply read_state_well_formed.
Qed.

(** ** The milestone lookup *)

Lemma merge_lines_app (l1 l2 : list string) :
  merge_lines (l1 ++ l2) = merge_lines l1 ++ merge_lines l2.
Proof.
  induction l1 as [|line l1 IH]; simpl; [reflexivity|].
  destruct (negb (truthy (str_strip line))); [exact IH|].
  destruct (json_loads (str_strip line)) as [[]|]; try exact IH.
  rewrite IH, app_assoc. reflexivity.
Qed.

Lemma merge_lines_skips (line : string) (rest : list string) :
  json_loads (str_strip line) = None -> merge_lines (line :: rest) = merge_lines rest.
Proof.
  intros H. simpl. rewrite H. destruct (negb (truthy (str_strip line))); reflexivity.
Qed.

Lemma get_milestones_map_decoded (gh : remote) (owner repo_name : string) (tr : list event)
      (out err : string) :
  let cmd := ["gh"; "api"; "--paginate";
              "repos/" +:+ owner +:+ "/" +:+ repo_name +:+ "/milestones"] in
  gh tr cmd None = Reply 0 out err ->
  get_milestones_map gh owner repo_name tr =
  match json_loads out with
  | Some (JList l) => milestones_of l ∅ (tr ++ [Call cmd None (Reply 0 out err)])
  | Some _ => (Ret ∅, tr ++ [Call cmd None (Reply 0 out err)])
  | None =>
      milestones_of (merge_lines (str_splitlines out)) ∅
                    (tr ++ [Call cmd None (Reply 0 out err)])
  end.
Proof.
  intros cmd H. unfold get_milestones_map, bind. rewrite run_eq. fold cmd. rewrite H. simpl.
  destruct (json_loads out) as [[]|]; reflexivity.
Qed.

(** ** Sample runs *)

(** C1, counterexample: the issue of the row is created, the close call
    fails; the row is in the list of failures, and its tuple is not in the
    list of the issues created. *)
Lemma close_failure_drops_created_issue :
  let s := snd (script (gh_failing is_issue_close "boom") (sample_args false)
                       (one_file closed_row_file)) in
  In (Call issue_post_cmd (Some (dq "{'title': 'Fix login', 'labels': ['bug']}")) issue_7_reply)
     (log s)
  /\ In (Call ["gh"; "issue"; "close"; issue_7_url; "-R"; "o/r"; "--reason"; "completed"] None
              (Reply 1 EmptyString "boom")) (log s)
  /\ errors s = ["Row 1 ('Fix login') failed: Failed to close issue "
                 +:+ issue_7_url +:+ ": boom"]
  /\ ~ In (1, "7", issue_7_url) (created s).
Proof. vm_compute. intuition. Qed.

Lemma close_failure_sample :
  state closed_row = "closed"
  /\ exists s',
      try_row (gh_failing is_issue_close "boom") (sample_args false) "o" "r" "o/r" 1
              closed_row start = (Ret tt, s')
      /\ errors s' = errors start
                     ++ [failure_message 1 closed_row
                           (Exn RuntimeError ("Failed to close issue " +:+ issue_7_url
                                              +:+ ": boom"))]
      /\ created s' = created start.
Proof.
  split; [reflexivity|].
  eapply (close_failure_is_recorded_as_failure_only
            (gh_failing is_issue_close "boom") (sample_args false) "o" "r" "o/r" 1
            closed_row start
            (set_log [Call issue_post_cmd
                           (Some (dq "{'title': 'Fix login', 'labels': ['bug']}"))
                           issue_7_reply] start)
            7 issue_7_url).
  - reflexivity.
  - vm_compute. reflexivity.
  - vm_compute. reflexivity.
  - reflexivity.
Defined.

(** C2, two runs of the wrapper: a rate limit twice, then success, with
    sleeps of 1/2 and 1 second for a base delay of 1/2; and a validation
    error, which is not retried. *)
Example retry_after_rate_limit :
  create_issue_with_retry (gh_flaky 2 "API rate limit exceeded") "o" "r" closed_row None false
                          3 (1 # 2) [] =
  let failure :=
    Exn RuntimeError ("Issue creation failed for 'Fix login': API rate limit exceeded"
                      +:+ newline +:+ "Request: "
                      +:+ dq "{'title': 'Fix login', 'labels': ['bug']}") in
  let request r :=
    Call issue_post_cmd (Some (dq "{'title': 'Fix login', 'labels': ['bug']}")) r in
  (Ret (7, issue_7_url),
   [request (Reply 1 EmptyString "API rate limit exceeded");
    RetryNotice 1 3 failure (backoff (1 # 2) 1); Sleep (backoff (1 # 2) 1);
    request (Reply 1 EmptyString "API rate limit exceeded");
    RetryNotice 2 3 failure (backoff (1 # 2) 2); Sleep (backoff (1 # 2) 2);
    request issue_7_reply]).
Proof. vm_compute. reflexivity. Qed.

Example no_retry_on_validation_error :
  create_issue_with_retry (gh_flaky 2 "422 validation failed") "o" "r" closed_row None false
                          3 1 [] =
  (Raise (Exn RuntimeError ("Issue creation failed for 'Fix login': 422 validation failed"
                            +:+ newline +:+ "Request: "
                            +:+ dq "{'title': 'Fix login', 'labels': ['bug']}")),
   [Call issue_post_cmd (Some (dq "{'title': 'Fix login', 'labels': ['bug']}"))
         (Reply 1 EmptyString "422 validation failed")]).
Proof. vm_compute. reflexivity. Qed.

(** C2, counterexample: with a base delay of 10^10 seconds the first
    request fails with a rate limit, two attempts remain and the second
    request would succeed; the wrapper announces the retry, [time.sleep]
    refuses the duration, and the wrapper ends with that [OverflowError]:
    it has neither slept nor called again. *)
Lemma retry_stops_when_sleep_is_refused :
  let gh := gh_flaky 1 "API rate limit exceeded" in
  let failure :=
    Exn RuntimeError ("Issue creation failed for 'Fix login': API rate limit exceeded"
                      +:+ newline +:+ "Request: "
                      +:+ dq "{'title': 'Fix login', 'labels': ['bug']}") in
  let request r :=
    Call issue_post_cmd (Some (dq "{'title': 'Fix login', 'labels': ['bug']}")) r in
  let tr' := [request (Reply 1 EmptyString "API rate limit exceeded");
              RetryNotice 1 3 failure (backoff (10000000000 # 1) 1)] in
  is_transient failure = true
  /\ create_issue_with_retry gh "o" "r" closed_row None false 3 (10000000000 # 1) []
     = (Raise (Exn OverflowError "timestamp too large to convert to C _PyTime_t"), tr')
  /\ create_issue_via_api gh "o" "r" closed_row None false tr'
     = (Ret (7, issue_7_url), tr' ++ [request issue_7_reply]).
Proof. vm_compute. repeat split; reflexivity. Qed.

(** C5: with a delay of 10^10 seconds between the rows, the issue of the
    one row of the file is created and recorded, [time.sleep] then refuses
    the pause, and the row is recorded as failed as well: the status is 1. *)
Example refused_pause_records_the_row_twice :
  let args :=
    {| arg_csv := "issues.csv"; arg_repo := Some "o/r"; arg_delay := 10000000000 # 1;
       arg_dry_run := false; arg_no_label_create := true;
       arg_no_milestone_create := false; arg_retries := 3;
       arg_retry_base_delay := 1; arg_no_progress := true |} in
  let run := script gh_ok args (one_file closed_row_file) in
  fst run = Exit 1
  /\ created (snd run) = [(1, "7", issue_7_url)]
  /\ errors (snd run)
     = [failure_message 1 closed_row
          (Exn OverflowError "timestamp too large to convert to C _PyTime_t")].
Proof. vm_compute. repeat split; reflexivity. Qed.

(** C3, counterexample: the label list call ends with an error status;
    [get_existing_labels] raises instead of returning the empty list, and
    the run ends with a traceback. *)
Lemma label_list_error_ends_the_run :
  let failure :=
    Exn RuntimeError ("Command failed: gh label list --json name -R o/r" +:+ newline +:+ "boom") in
  fst (get_existing_labels (gh_failing is_label_list "boom") "o/r" []) = Raise failure
  /\ script (gh_failing is_label_list "boom") (sample_args false) (one_file closed_row_file)
     = (Traceback failure,
        set_log [Call (label_list_cmd "o/r") None (Reply 1 EmptyString "boom")] start).
Proof. vm_compute. split; reflexivity. Qed.

Lemma label_list_error_sample :
  let failure :=
    Exn RuntimeError ("Command failed: gh label list --json name -R o/r" +:+ newline +:+ "boom") in
  let tr' := [Call (label_list_cmd "o/r") None (Reply 1 EmptyString "boom")] in
  import_rows (gh_failing is_label_list "boom") (sample_args false) "o" "r" "o/r" [closed_row]
              start = (Raise failure, set_log tr' start).
Proof.
  apply (proj2 (proj2 (get_existing_labels_degrades_on_non_list_only
                         (gh_failing is_label_list "boom") "o/r" []))).
  - reflexivity.
  - vm_compute. reflexivity.
Defined.

(** C4, a dry run of the sample file against a remote on which every
    command would succeed. *)
Lemma dry_run_sample :
  arg_dry_run (sample_args true) = true
  /\ Forall harmless (log (snd (script gh_ok (sample_args true) (one_file closed_row_file)))).
Proof.
  split; [reflexivity|].
  apply (dry_run_makes_no_mutation gh_ok (sample_args true) (one_file closed_row_file)).
  reflexivity.
Defined.


(** C6: the two pages come one after the other on the same line, as
    [gh api --paginate] prints them; each is a JSON array, but the lookup
    returns the empty map instead of the two milestones. *)
Theorem get_milestones_map_loses_concatenated_pages :
  json_loads page_1 = Some (JList [JDict [("title", JStr "v1"); ("number", JInt 1)]])
  /\ json_loads page_2 = Some (JList [JDict [("title", JStr "v2"); ("number", JInt 2)]])
  /\ get_milestones_map (gh_milestones (page_1 +:+ page_2)) "o" "r" []
     = (Ret ∅, [Call ["gh"; "api"; "--paginate"; "repos/o/r/milestones"] None
                     (Reply 0 (page_1 +:+ page_2) EmptyString)]).
Proof. vm_compute. repeat split; reflexivity. Qed.

(** With a line break between the pages the lookup finds both milestones. *)
Example get_milestones_map_line_delimited_pages :
  exists m tr,
    get_milestones_map (gh_milestones (page_1 +:+ newline +:+ page_2)) "o" "r" [] = (Ret m, tr)
    /\ m !! "v1" = Some 1 /\ m !! "v2" = Some 2.
Proof. eexists. eexists. split; [reflexivity|]. vm_compute. split; reflexivity. Qed.



(** C8, a dry run in which the milestone [v2] of the row is missing. *)
Lemma dry_run_milestone_sample :
  let s1 := set_cache v1_only (set_log [milestone_list_call] start) in
  let tr' := [milestone_list_call; milestone_list_call] in
  arg_dry_run (sample_args true) = true
  /\ cache_ready gh_ok "o" "r" start v1_only s1
  /\ v1_only !! str_lower "v2" = None
  /\ get_milestones_map gh_ok "o" "r" (log s1) = (Ret v1_only, tr')
  /\ ensure_milestone gh_ok "o" "r" "v2" true (log s1)
     = (Ret (-1), tr' ++ [milestone_notice "o" "r" "v2"])
  /\ resolve_milestone gh_ok (sample_args true) "o" "r" milestone_row start
     = (Ret None, set_log (tr' ++ [milestone_notice "o" "r" "v2"]) s1).
Proof.
  assert (Hready : cache_ready gh_ok "o" "r" start v1_only
                     (set_cache v1_only (set_log [milestone_list_call] start))).
  { right. split; [reflexivity|]. exists [milestone_list_call]. split; reflexivity. }
  assert (Hget : get_milestones_map gh_ok "o" "r" [milestone_list_call]
                 = (Ret v1_only, [milestone_list_call; milestone_list_call]))
    by reflexivity.
  split; [reflexivity|]. split; [exact Hready|]. split; [reflexivity|]. split; [exact Hget|].
  destruct (dry_run_milestone_sentinel gh_ok (sample_args true) "o" "r" milestone_row "v2"
              start _ v1_only v1_only _ eq_refl eq_refl eq_refl Hready eq_refl Hget eq_refl)
    as [H1 [H2 _]].
  split; [exact H1 | exact H2].
Defined.

(** C9, counterexample: a state cell [Done] gives a row whose state is
    neither [open] nor [closed]. *)
Lemma read_csv_keeps_unknown_state :
  exists rows, read_csv odd_state_file [] = (Ret rows, []) /\ ~ Forall row_invariant rows.
Proof.
  eexists. split; [reflexivity|].
  intros H. inversion H as [|r rest [_ [Hst | Hst]] _]; discriminate Hst.
Qed.

(** C10, counterexample: the milestone list call fails for a row with a
    milestone; the row fails without any attempt to create its issue. *)
Lemma milestone_failure_prevents_any_attempt :
  let s := snd (script (gh_failing is_milestone_list "boom") (sample_args false)
                       (one_file milestone_row_file)) in
  errors s = ["Row 1 ('Plan release') failed: Failed to list milestones: boom"]
  /\ created s = []
  /\ count_calls is_issue_post (log s) = 0%nat
  /\ Forall (fun e => ~ is_attempt "o" "r" e) (log s).
Proof.
  vm_compute. repeat split; try reflexivity.
  repeat constructor; intros H; try exact H; discriminate H.
Qed.

(** * Further properties of the script *)

(** ** Cells that hold a list *)

Lemma str_lstrip_cases (s : string) :
  str_lstrip s = EmptyString
  \/ exists c r, str_lstrip s = String c r /\ is_space c = false.
Proof.
  induction s as [|c s IH]; simpl; [left; reflexivity|].
  destruct (is_space c) eqn:Hc; [exact IH|]. right. exists c, s. split; [reflexivity | exact Hc].
Qed.

Lemma str_lstrip_head (c : ascii) (r : string) :
  is_space c = false -> str_lstrip (String c r) = String c r.
Proof. intros H. simpl. rewrite H. reflexivity. Qed.

Lemma str_rstrip_head (c : ascii) (r : string) :
  is_space c = false -> str_rstrip (String c r) = String c (str_rstrip r).
Proof. intros H. simpl. rewrite H. reflexivity. Qed.

Lemma str_rstrip_idempotent (s : string) : str_rstrip (str_rstrip s) = str_rstrip s.
Proof.
  induction s as [|c s IH]; simpl; [reflexivity|].
  destruct (is_space c && str_empty (str_rstrip s)) eqn:H; [reflexivity|].
  simpl. rewrite IH, H. reflexivity.
Qed.

Lemma str_strip_idempotent (s : string) : str_strip (str_strip s) = str_strip s.
Proof.
  unfold str_strip. destruct (str_lstrip_cases s) as [H | [c [r [H Hc]]]]; rewrite H.
  - reflexivity.
  - rewrite (str_rstrip_head c r Hc), (str_lstrip_head c _ Hc), <- (str_rstrip_head c r Hc).
    apply str_rstrip_idempotent.
Qed.

Lemma str_forallb_lstrip (p : ascii -> bool) (s : string) :
  str_forallb p s = true -> str_forallb p (str_lstrip s) = true.
Proof.
  induction s as [|c s IH]; simpl; [reflexivity|].
  intros H. apply andb_true_iff in H. destruct H as [Hc Hs].
  destruct (is_space c); [apply IH; exact Hs | simpl; rewrite Hc, Hs; reflexivity].
Qed.

Lemma str_forallb_rstrip (p : ascii -> bool) (s : string) :
  str_forallb p s = true -> str_forallb p (str_rstrip s) = true.
Proof.
  induction s as [|c s IH]; simpl; [reflexivity|].
  intros H. apply andb_true_iff in H. destruct H as [Hc Hs].
  destruct (is_space c && str_empty (str_rstrip s)); [reflexivity|].
  simpl. rewrite Hc, (IH Hs). reflexivity.
Qed.

Lemma str_forallb_strip (p : ascii -> bool) (s : string) :
  str_forallb p s = true -> str_forallb p (str_strip s) = true.
Proof. intros H. apply str_forallb_rstrip, str_forallb_lstrip, H. Qed.

(** A text holds the character [c] unless all its characters differ from it. *)
Lemma has_char_forallb (c : ascii) (s : string) :
  has_char c s = negb (str_forallb (fun d => negb (Ascii.eqb d c)) s).
Proof.
  unfold has_char. induction s as [|d s IH].
  - reflexivity.
  - change (str_contains (String c EmptyString) (String d s))
      with (String.prefix (String c EmptyString) (String d s)
            || str_contains (String c EmptyString) s).
    rewrite IH. simpl. destruct (ascii_dec c d) as [->|Hne].
    + rewrite Ascii.eqb_refl. destruct s; reflexivity.
    + assert (Hd : Ascii.eqb d c = false) by (apply Ascii.eqb_neq; congruence).
      rewrite Hd. reflexivity.
Qed.

Lemma str_split_pieces (sep : ascii) (s : string) :
  Forall (fun p => str_forallb (fun d => negb (Ascii.eqb d sep)) p = true) (str_split sep s).
Proof.
  induction s as [|c s IH]; simpl; [repeat constructor|].
  destruct (Ascii.eqb c sep) eqn:Hc; [constructor; [reflexivity | exact IH]|].
  destruct (str_split sep s) as [|h t]; [repeat constructor; simpl; rewrite Hc; reflexivity|].
  inversion IH as [|? ? Hh Ht]; subst. constructor; [|exact Ht].
  simpl. rewrite Hc, Hh. reflexivity.
Qed.

Lemma split_list_item_in (cell p : string) : In p (split_list cell) -> is_list_item p.
Proof.
  unfold split_list. destruct (negb (truthy cell)); [intros []|].
  intros Hp. apply filter_In in Hp. destruct Hp as [Hin Hp].
  apply in_map_iff in Hin. destruct Hin as [q [<- Hq]].
  split; [|split].
  - intros H. rewrite H in Hp. discriminate.
  - apply str_strip_idempotent.
  - rewrite has_char_forallb. apply negb_false_iff. apply str_forallb_strip.
    pose proof (str_split_pieces ";"%char cell) as Hall.
    rewrite List.Forall_forall in Hall. apply Hall. exact Hq.
Qed.

(** X1. Every item that [split_list] returns is a non-empty text, without
    white space at either end and without a semicolon. *)
Theorem split_list_items (cell : string) : Forall is_list_item (split_list cell).
Proof. apply List.Forall_forall. intros p. apply split_list_item_in. Qed.

Lemma str_split_upto_sep (sep : ascii) (x rest : string) :
  str_forallb (fun d => negb (Ascii.eqb d sep)) x = true ->
  str_split sep (x +:+ String sep rest) = x :: str_split sep rest.
Proof.
  induction x as [|c x IH]; intros H.
  - rewrite append_empty. simpl. rewrite Ascii.eqb_refl. reflexivity.
  - simpl in H. apply andb_true_iff in H. destruct H as [Hc Hx].
    rewrite append_cons. simpl. apply negb_true_iff in Hc. rewrite Hc, (IH Hx). reflexivity.
Qed.

Lemma str_split_no_sep (sep : ascii) (x : string) :
  str_forallb (fun d => negb (Ascii.eqb d sep)) x = true -> str_split sep x = [x].
Proof.
  induction x as [|c x IH]; intros H; [reflexivity|].
  simpl in H. apply andb_true_iff in H. destruct H as [Hc Hx].
  simpl. apply negb_true_iff in Hc. rewrite Hc, (IH Hx). reflexivity.
Qed.

Lemma str_split_join (sep : ascii) (items : list string) :
  items <> [] ->
  Forall (fun p => str_forallb (fun d => negb (Ascii.eqb d sep)) p = true) items ->
  str_split sep (str_join (String sep EmptyString) items) = items.
Proof.
  unfold str_join. induction items as [|x items IH]; intros Hne Hall; [congruence|].
  inversion Hall as [|? ? Hx Hrest]; subst.
  destruct items as [|y items]; [apply str_split_no_sep; exact Hx|].
  change (String.concat (String sep EmptyString) (x :: y :: items))
    with (x +:+ String sep EmptyString +:+ String.concat (String sep EmptyString) (y :: items)).
  rewrite append_cons, append_empty, (str_split_upto_sep sep x _ Hx).
  rewrite IH; [reflexivity | discriminate | exact Hrest].
Qed.

Lemma truthy_append (x y : string) : truthy x = true -> truthy (x +:+ y) = true.
Proof. destruct x; [discriminate | reflexivity]. Qed.

(** X2. [split_list] undoes the joining of items with semicolons: for items
    that are non-empty, stripped and without a semicolon, splitting the
    joined cell gives the items back, in order. *)
Theorem split_list_join (items : list string) :
  Forall is_list_item items -> split_list (str_join ";" items) = items.
Proof.
  intros Hall. destruct items as [|x items]; [reflexivity|].
  assert (Hsep : Forall (fun p => str_forallb (fun d => negb (Ascii.eqb d ";"%char)) p = true)
                        (x :: items)).
  { eapply List.Forall_impl; [|exact Hall]. intros p [_ [_ Hp]].
    rewrite has_char_forallb in Hp. apply negb_false_iff in Hp. exact Hp. }
  assert (Htruthy : truthy (str_join ";" (x :: items)) = true).
  { inversion Hall as [|? ? [Hx _] _]; subst. unfold str_join.
    destruct items as [|y items]; simpl.
    - destruct x; [congruence | reflexivity].
    - apply truthy_append. destruct x; [congruence | reflexivity]. }
  unfold split_list. rewrite Htruthy. simpl negb. cbv iota.
  rewrite (str_split_join ";"%char (x :: items)); [|discriminate | exact Hsep].
  clear Hsep Htruthy. induction Hall as [|p l [Hp [Hstrip _]] Hl IH]; [reflexivity|].
  simpl. rewrite Hstrip. destruct p; [congruence|]. simpl. f_equal. exact IH.
Qed.

Lemma split_list_join_sample :
  Forall is_list_item ["bug"; "good first issue"]
  /\ split_list (str_join ";" ["bug"; "good first issue"]) = ["bug"; "good first issue"].
Proof.
  assert (H : Forall is_list_item ["bug"; "good first issue"]).
  { repeat constructor; try discriminate. }
  split; [exact H | apply (split_list_join _ H)].
Defined.

(** ** Quoting for display *)

Lemma length_append (a b : string) :
  String.length (a +:+ b) = (String.length a + String.length b)%nat.
Proof. induction a as [|c a IH]; [reflexivity|]. rewrite append_cons. simpl. rewrite IH. reflexivity. Qed.

Lemma length_replace_squote (s : string) :
  (String.length s <= String.length (replace_squote s))%nat.
Proof.
  induction s as [|c s IH]; simpl; [lia|].
  destruct (Ascii.eqb c squote); [rewrite length_append|]; simpl; lia.
Qed.

(** X3. [sh_quote] never returns the empty text, and it returns its
    argument unchanged exactly when the argument is not empty and made of
    letters, digits and the characters [/._-=:,[]{}] only. *)
Theorem sh_quote_unchanged_iff_safe (s : string) :
  sh_quote s <> EmptyString
  /\ (sh_quote s = s <-> truthy s = true /\ str_forallb shell_safe s = true).
Proof.
  unfold sh_quote. fold shell_safe.
  destruct (truthy s) eqn:Ht; simpl.
  - destruct (str_forallb shell_safe s) eqn:Hs.
    + split; [destruct s; [discriminate Ht | discriminate] | tauto].
    + split; [discriminate|]. split; [|intros [_ H]; discriminate H].
      intros H. apply (f_equal String.length) in H.
      rewrite append_cons, append_empty in H. simpl in H. rewrite length_append in H.
      pose proof (length_replace_squote s). simpl in H. lia.
  - split; [discriminate|]. split; [|intros [H _]; discriminate H].
    destruct s; [discriminate | discriminate Ht].
Qed.

(** ** The labels of a run *)

Lemma string_compare_refl (s : string) : String.compare s s = Eq.
Proof.
  induction s as [|c s IH]; simpl; [reflexivity|].
  unfold Ascii.compare. rewrite N.compare_refl. exact IH.
Qed.

Lemma string_compare_lt_trans (a : string) :
  forall b c, String.compare a b = Lt -> String.compare b c = Lt -> String.compare a c = Lt.
Proof.
  induction a as [|x a IH]; intros [|y b] [|z c]; simpl; try discriminate; try reflexivity.
  unfold Ascii.compare.
  destruct (N.compare_spec (N_of_ascii x) (N_of_ascii y)) as [Hxy|Hxy|Hxy];
    destruct (N.compare_spec (N_of_ascii y) (N_of_ascii z)) as [Hyz|Hyz|Hyz];
    try discriminate; intros H1 H2.
  - rewrite Hxy, Hyz, N.compare_refl. eapply IH; eassumption.
  - rewrite Hxy. apply N.compare_lt_iff in Hyz. rewrite Hyz. reflexivity.
  - rewrite <- Hyz. apply N.compare_lt_iff in Hxy. rewrite Hxy. reflexivity.
  - assert (H : (N_of_ascii x < N_of_ascii z)%N) by lia.
    apply N.compare_lt_iff in H. rewrite H. reflexivity.
Qed.

Lemma ltb_trans (a b c : string) :
  String.ltb a b = true -> String.ltb b c = true -> String.ltb a c = true.
Proof.
  unfold String.ltb. intros H1 H2.
  destruct (String.compare a b) eqn:Hab; try discriminate.
  destruct (String.compare b c) eqn:Hbc; try discriminate.
  rewrite (string_compare_lt_trans a b c Hab Hbc). reflexivity.
Qed.

Lemma ltb_irrefl (a : string) : String.ltb a a = false.
Proof. unfold String.ltb. rewrite string_compare_refl. reflexivity. Qed.

(** Of two different texts one is below the other. *)
Lemma ltb_total (a b : string) :
  String.eqb a b = false -> String.ltb a b = false -> String.ltb b a = true.
Proof.
  unfold String.ltb. intros Hne Hlt. rewrite (String.compare_antisym b a).
  destruct (String.compare a b) eqn:H; try discriminate; [|reflexivity].
  apply String.compare_eq_iff in H. subst. rewrite String.eqb_refl in Hne. discriminate.
Qed.

Lemma insert_label_cons (x y : string) (t : list string) :
  insert_label x (y :: t) =
  if String.eqb x y then y :: t
  else if String.ltb x y then x :: y :: t
  else y :: insert_label x t.
Proof. reflexivity. Qed.

Lemma insert_label_in (x : string) (l : list string) (z : string) :
  In z (insert_label x l) <-> z = x \/ In z l.
Proof.
  induction l as [|y t IH]; [simpl; intuition|].
  rewrite insert_label_cons.
  destruct (String.eqb x y) eqn:Hxy.
  - apply String.eqb_eq in Hxy. subst. simpl. intuition.
  - destruct (String.ltb x y); simpl; [intuition|]. rewrite IH. intuition.
Qed.

Lemma insert_label_sorted (x : string) (l : list string) :
  strictly_sorted l -> strictly_sorted (insert_label x l).
Proof.
  induction l as [|y t IH]; intros Hs; [simpl; split; [constructor | exact I]|].
  rewrite insert_label_cons. destruct Hs as [Hy Ht].
  destruct (String.eqb x y) eqn:Hxy; [split; assumption|].
  destruct (String.ltb x y) eqn:Hlt.
  - split; [|split; assumption]. constructor; [exact Hlt|].
    eapply List.Forall_impl; [|exact Hy]. intros z Hz. eapply ltb_trans; eassumption.
  - split; [|apply IH; exact Ht].
    apply List.Forall_forall. intros z Hz. apply insert_label_in in Hz.
    destruct Hz as [-> | Hz]; [apply ltb_total; assumption|].
    rewrite List.Forall_forall in Hy. apply Hy. exact Hz.
Qed.

Lemma strictly_sorted_NoDup (l : list string) : strictly_sorted l -> List.NoDup l.
Proof.
  induction l as [|x t IH]; intros Hs; [constructor|].
  destruct Hs as [Hx Ht]. apply List.NoDup_cons; [|apply IH; exact Ht].
  intros Hin. rewrite List.Forall_forall in Hx. specialize (Hx x Hin).
  rewrite ltb_irrefl in Hx. discriminate.
Qed.

Lemma all_labels_sorted (rows : list IssueRow) : strictly_sorted (all_labels rows).
Proof.
  unfold all_labels. induction (flat_map labels rows) as [|x l IH]; [exact I|].
  simpl. apply insert_label_sorted. exact IH.
Qed.

Lemma all_labels_in (rows : list IssueRow) (x : string) :
  In x (all_labels rows) <-> exists r, In r rows /\ In x (labels r).
Proof.
  unfold all_labels. rewrite <- in_flat_map.
  induction (flat_map labels rows) as [|y l IH]; [reflexivity|].
  simpl. rewrite insert_label_in, IH. intuition.
Qed.

(** X4. The labels that [main] passes to [ensure_labels] are the labels
    of the rows, each once, in increasing order of code points. *)
Theorem all_labels_sorted_set (rows : list IssueRow) :
  strictly_sorted (all_labels rows)
  /\ List.NoDup (all_labels rows)
  /\ (forall x, In x (all_labels rows) <-> exists r, In r rows /\ In x (labels r)).
Proof.
  split; [apply all_labels_sorted|]. split.
  - apply strictly_sorted_NoDup, all_labels_sorted.
  - apply all_labels_in.
Qed.

Lemma mem_in (s : string) (l : list string) : mem s l = true <-> In s l.
Proof.
  unfold mem. rewrite existsb_exists. split.
  - intros [x [Hin Hx]]. apply String.eqb_eq in Hx. subst. exact Hin.
  - intros H. exists s. split; [exact H | apply String.eqb_refl].
Qed.

Lemma lower_names_texts (ns : list string) (tr : list event) :
  lower_names (map JStr ns) tr = (Ret (map str_lower ns), tr).
Proof.
  induction ns as [|n ns IH]; [reflexivity|].
  simpl. unfold bind. rewrite IH. reflexivity.
Qed.

Lemma ensure_each_label_all_exist (gh : remote) (repo : string) (existing : list string)
      (dry_run : bool) (labels : list string) (tr : list event) :
  (forall l, In l labels -> In (str_lower l) existing) ->
  ensure_each_label gh repo existing dry_run labels tr = (Ret tt, tr).
Proof.
  induction labels as [|label rest IH]; intros H; [reflexivity|].
  rewrite ensure_each_label_cons.
  assert (Hm : mem (str_lower label) existing = true) by (apply mem_in, H; left; reflexivity).
  rewrite Hm. unfold bind. simpl. apply IH. intros l Hl. apply H. right. exact Hl.
Qed.

(** X5. Labels are matched against the labels of the repository with case
    ignored: when each label asked for is listed by the repository under
    some capitalisation, [ensure_labels] makes the list call and nothing
    else, in dry-run mode or not. *)
Theorem ensure_labels_existing_labels
        (gh : remote) (repo : string) (labels : list string) (dry_run : bool)
        (tr : list event) (out err : string) (items : list json) (ns : list string) :
  labels <> [] ->
  gh tr (label_list_cmd repo) None = Reply 0 out err ->
  json_loads out = Some (JList items) ->
  label_names items = map JStr ns ->
  (forall l, In l labels -> In (str_lower l) (map str_lower ns)) ->
  ensure_labels gh repo labels dry_run tr
  = (Ret tt, tr ++ [Call (label_list_cmd repo) None (Reply 0 out err)]).
Proof.
  intros Hne Hgh Hout Hnames Hall.
  pose proof (get_existing_labels_cases gh repo tr) as Hget. simpl in Hget.
  rewrite Hgh, Hout in Hget. simpl in Hget.
  unfold ensure_labels. destruct labels as [|l labels]; [congruence|].
  unfold bind. rewrite Hget, Hnames, lower_names_texts.
  apply ensure_each_label_all_exist. exact Hall.
Qed.

Lemma ensure_labels_existing_sample :
  let gh := gh_labels (dq "[{'name': 'Bug'}, {'name': 'docs'}]") in
  ensure_labels gh "o/r" ["bug"; "DOCS"] false []
  = (Ret tt, [Call (label_list_cmd "o/r") None
                   (Reply 0 (dq "[{'name': 'Bug'}, {'name': 'docs'}]") EmptyString)]).
Proof.
  apply (ensure_labels_existing_labels
           (gh_labels (dq "[{'name': 'Bug'}, {'name': 'docs'}]")) "o/r" ["bug"; "DOCS"] false []
           (dq "[{'name': 'Bug'}, {'name': 'docs'}]") EmptyString
           [JDict [("name", JStr "Bug")]; JDict [("name", JStr "docs")]] ["Bug"; "docs"]).
  - discriminate.
  - reflexivity.
  - vm_compute. reflexivity.
  - reflexivity.
  - intros l [<- | [<- | []]]; vm_compute; auto.
Defined.

Lemma commands_app (t1 t2 : list event) : commands (t1 ++ t2) = commands t1 ++ commands t2.
Proof.
  induction t1 as [|e t1 IH]; [reflexivity|].
  destruct e; simpl; rewrite IH; reflexivity.
Qed.

(** X6. When it is not interrupted, [ensure_labels] asks for the creation
    of each label that the listing lacks (case ignored), once and in the
    order of the list, whether or not an earlier creation failed. *)
Theorem ensure_each_label_commands
        (gh : remote) (repo : string) (existing labels : list string) :
  forall tr tr',
    ensure_each_label gh repo existing false labels tr = (Ret tt, tr') ->
    exists ext,
      tr' = tr ++ ext
      /\ commands ext
         = map (label_create_cmd repo)
               (List.filter (fun l => negb (mem (str_lower l) existing)) labels).
Proof.
  induction labels as [|label rest IH]; intros tr tr' H.
  - injection H as <-. exists []. split; [symmetry; apply app_nil_r | reflexivity].
  - rewrite ensure_each_label_cons in H. unfold bind in H. simpl. revert H.
    destruct (mem (str_lower label) existing); intros H; [apply IH; exact H|].
    rewrite run_eq in H. simpl negb. cbv iota.
    destruct (gh tr ["gh"; "label"; "create"; label; "-R"; repo] None) as [code out err|] eqn:Hgh;
      [|discriminate].
    destruct (negb (code =? 0)); simpl in H; apply IH in H; destruct H as [ext [-> Hext]].
    + exists ([Call ["gh"; "label"; "create"; label; "-R"; repo] None (Reply code out err);
               Stderr ("WARN: failed to create label '" +:+ label +:+ "': " +:+ err)] ++ ext).
      split; [rewrite <- !app_assoc; reflexivity|].
      rewrite commands_app. simpl. rewrite Hext. reflexivity.
    + exists ([Call ["gh"; "label"; "create"; label; "-R"; repo] None (Reply code out err)]
              ++ ext).
      split; [rewrite <- !app_assoc; reflexivity|].
      rewrite commands_app. simpl. rewrite Hext. reflexivity.
Qed.

Lemma ensure_each_label_commands_sample :
  let gh := gh_failing is_label_create "boom" in
  exists tr',
    ensure_each_label gh "o/r" ["docs"] false ["bug"; "Docs"; "ui"] [] = (Ret tt, tr')
    /\ exists ext, tr' = [] ++ ext
                   /\ commands ext = [label_create_cmd "o/r" "bug"; label_create_cmd "o/r" "ui"].
Proof.
  eexists. split; [vm_compute; reflexivity|].
  apply (ensure_each_label_commands (gh_failing is_label_create "boom") "o/r" ["docs"]
           ["bug"; "Docs"; "ui"] []).
  vm_compute. reflexivity.
Defined.

(** ** Milestones: lookup and cache *)

Lemma milestones_of_entries (pairs : list (string * Z)) (items : list json) :
  List.Forall2 milestone_entry pairs items ->
  forall mapping tr,
    milestones_of items mapping tr
    = (Ret (fold_left (fun m p => <[milestone_key p := snd p]> m) pairs mapping), tr).
Proof.
  induction 1 as [|p item pairs items [d [-> [Ht Hn]]] _ IH]; intros mapping tr; [reflexivity|].
  simpl. rewrite Ht, Hn. unfold bind. simpl. apply IH.
Qed.

Lemma fold_insert_other (pairs : list (string * Z)) (k : string) :
  ~ In k (map milestone_key pairs) ->
  forall m : gmap string Z,
    fold_left (fun m p => <[milestone_key p := snd p]> m) pairs m !! k = m !! k.
Proof.
  induction pairs as [|p pairs IH]; intros Hk m; [reflexivity|].
  simpl in *. rewrite IH by tauto. apply lookup_insert_ne. intros E. apply Hk. left. exact E.
Qed.

Lemma fold_insert_lookup (pairs : list (string * Z)) (p : string * Z) :
  List.NoDup (map milestone_key pairs) -> In p pairs ->
  forall m : gmap string Z,
    fold_left (fun m p => <[milestone_key p := snd p]> m) pairs m !! milestone_key p
    = Some (snd p).
Proof.
  induction pairs as [|q pairs IH]; intros Hnd Hin m; [destruct Hin|].
  simpl in Hnd. apply List.NoDup_cons_iff in Hnd. destruct Hnd as [Hq Hnd].
  destruct Hin as [-> | Hin]; simpl.
  - rewrite fold_insert_other by exact Hq. apply lookup_insert_eq.
  - apply IH; assumption.
Qed.

Lemma get_milestones_map_entries (gh : remote) (owner repo_name : string) (tr : list event)
      (out err : string) (items : list json) (pairs : list (string * Z)) :
  gh tr (milestone_list_cmd owner repo_name) None = Reply 0 out err ->
  json_loads out = Some (JList items) ->
  List.Forall2 milestone_entry pairs items ->
  get_milestones_map gh owner repo_name tr
  = (Ret (fold_left (fun m p => <[milestone_key p := snd p]> m) pairs ∅),
     tr ++ [Call (milestone_list_cmd owner repo_name) None (Reply 0 out err)]).
Proof.
  intros Hgh Hout Hitems.
  rewrite (get_milestones_map_decoded gh owner repo_name tr out err Hgh), Hout.
  apply milestones_of_entries. exact Hitems.
Qed.

(** X7. A milestone is looked up by its title with case ignored: when the
    repository lists milestones with titles that differ even when case is
    ignored, and one of them is the title asked for up to case,
    [ensure_milestone] returns its number after the list call alone; it
    creates nothing, in dry-run mode or not. *)
Theorem ensure_milestone_existing_title
        (gh : remote) (owner repo_name title : string) (dry_run : bool) (tr : list event)
        (out err : string) (items : list json) (pairs : list (string * Z))
        (listed : string) (number : Z) :
  gh tr (milestone_list_cmd owner repo_name) None = Reply 0 out err ->
  json_loads out = Some (JList items) ->
  List.Forall2 milestone_entry pairs items ->
  List.NoDup (map milestone_key pairs) ->
  In (listed, number) pairs ->
  str_lower listed = str_lower title ->
  ensure_milestone gh owner repo_name title dry_run tr
  = (Ret number, tr ++ [Call (milestone_list_cmd owner repo_name) None (Reply 0 out err)]).
Proof.
  intros Hgh Hout Hitems Hnd Hin Hcase.
  unfold ensure_milestone, bind.
  rewrite (get_milestones_map_entries gh owner repo_name tr out err items pairs Hgh Hout Hitems).
  rewrite <- Hcase.
  rewrite (fold_insert_lookup pairs (listed, number) Hnd Hin ∅). reflexivity.
Qed.

Lemma ensure_milestone_existing_sample :
  ensure_milestone gh_ok "o" "r" "V1" false [] = (Ret 1, [milestone_list_call]).
Proof.
  apply (ensure_milestone_existing_title gh_ok "o" "r" "V1" false []
           (dq "[{'title': 'v1', 'number': 1}]") EmptyString
           [JDict [("title", JStr "v1"); ("number", JInt 1)]] [("v1", 1)] "v1" 1).
  - reflexivity.
  - vm_compute. reflexivity.
  - repeat constructor. eexists. repeat split; reflexivity.
  - repeat constructor. intros [].
  - left. reflexivity.
  - reflexivity.
Defined.

Lemma silent_milestones_of (items : list json) :
  forall (mapping : gmap string Z) (tr : list event),
    snd (milestones_of items mapping tr) = tr.
Proof.
  induction items as [|item items IH]; intros mapping tr; simpl; [reflexivity|].
  destruct item as [| | | |l|d]; try apply IH.
  destruct (dict_get "title" d) as [t|]; [|apply IH].
  destruct (dict_get "number" d) as [n|]; [|apply IH].
  unfold bind.
  pose proof (steady_py_int (fun t0 t1 : list event => t1 = t0) (fun _ => eq_refl) n tr) as Hn.
  destruct (py_int n tr) as [[number|e] t0]; simpl in Hn; subst t0; [apply IH | reflexivity].
Qed.

Lemma milestones_of_keys (items : list json) :
  forall mapping tr m tr',
    milestones_of items mapping tr = (Ret m, tr') ->
    (forall k v, mapping !! k = Some v -> str_lower k = k) ->
    forall k v, m !! k = Some v -> str_lower k = k.
Proof.
  induction items as [|item items IH]; intros mapping tr m tr' H Hmap; simpl in H.
  - injection H as <- <-. exact Hmap.
  - destruct item as [| | | |l|d]; try (eapply IH; eassumption).
    destruct (dict_get "title" d) as [t|]; [|eapply IH; eassumption].
    destruct (dict_get "number" d) as [n|]; [|eapply IH; eassumption].
    unfold bind in H.
    destruct (py_int n tr) as [[number|e] t0]; [|discriminate].
    eapply IH; [exact H|].
    intros k v Hk. rewrite lookup_insert in Hk.
    destruct (decide (str_lower (py_str t) = k)) as [<-|].
    + apply str_lower_idempotent.
    + eapply Hmap. exact Hk.
Qed.

(** X8. Whatever the remote answers, [get_milestones_map] makes exactly one
    call, the list call, and the keys of the map it returns are lower-case
    texts. *)
Theorem get_milestones_map_lower_keys
        (gh : remote) (owner repo_name : string) (tr tr' : list event)
        (r : res (gmap string Z)) :
  get_milestones_map gh owner repo_name tr = (r, tr') ->
  tr' = tr ++ [Call (milestone_list_cmd owner repo_name) None
                    (gh tr (milestone_list_cmd owner repo_name) None)]
  /\ (forall m k v, r = Ret m -> m !! k = Some v -> str_lower k = k).
Proof.
  unfold get_milestones_map, bind. rewrite run_eq. fold (milestone_list_cmd owner repo_name).
  destruct (gh tr (milestone_list_cmd owner repo_name) None) as [code out err|];
    [|intros [= <- <-]; split; [reflexivity | discriminate]].
  destruct (negb (code =? 0)); [intros [= <- <-]; split; [reflexivity | discriminate]|].
  assert (Hlist : forall l,
             milestones_of l ∅ (tr ++ [Call (milestone_list_cmd owner repo_name) None
                                            (Reply code out err)]) = (r, tr') ->
             tr' = tr ++ [Call (milestone_list_cmd owner repo_name) None (Reply code out err)]
             /\ (forall m k v, r = Ret m -> m !! k = Some v -> str_lower k = k)).
  { intros l H. split.
    - pose proof (silent_milestones_of l ∅
                    (tr ++ [Call (milestone_list_cmd owner repo_name) None
                                 (Reply code out err)])) as Hs.
      rewrite H in Hs. exact Hs.
    - intros m k v ->. eapply milestones_of_keys; [exact H|].
      intros k0 v0 Hk. rewrite lookup_empty in Hk. discriminate. }
  destruct (json_loads out) as [[| | | |l|d]|]; try apply Hlist;
    intros [= <- <-]; (split; [reflexivity|]); intros m k v [= <-] Hk;
    rewrite lookup_empty in Hk; discriminate.
Qed.

Lemma get_milestones_map_sample :
  get_milestones_map gh_ok "o" "r" [] = (Ret v1_only, [milestone_list_call])
  /\ forall m k v, Ret v1_only = Ret m -> m !! k = Some v -> str_lower k = k.
Proof.
  split; [reflexivity|].
  apply (get_milestones_map_lower_keys gh_ok "o" "r" [] [milestone_list_call] (Ret v1_only)).
  reflexivity.
Defined.

(** A row whose milestone is in the cache costs no call. *)
Lemma resolve_milestone_hit (gh : remote) (args : Args) (owner repo_name : string)
      (row : IssueRow) (name : string) (s : driver) (m : gmap string Z) (number : Z) :
  or_none (milestone row) = Some name ->
  milestone_cache s = Some m ->
  m !! str_lower name = Some number ->
  resolve_milestone gh args owner repo_name row s = (Ret (Some number), s).
Proof.
  intros Hname Hcache Hkey. unfold resolve_milestone, bind, gets.
  rewrite Hname, Hcache. simpl. rewrite Hkey. simpl. rewrite Hcache. simpl. rewrite Hkey.
  reflexivity.
Qed.

(** X9. A milestone is created at most once in a run: once a row has had
    its missing milestone created, with a positive number, every later row
    that names the same milestone up to case gets that number from the
    cache, without any call. *)
Theorem milestone_created_once
        (gh : remote) (args : Args) (owner repo_name : string) (row later : IssueRow)
        (name name' : string) (s s1 : driver) (m : gmap string Z) (msn : Z)
        (tr' : list event) :
  arg_no_milestone_create args = false ->
  or_none (milestone row) = Some name ->
  cache_ready gh owner repo_name s m s1 ->
  m !! str_lower name = None ->
  ensure_milestone gh owner repo_name name (arg_dry_run args) (log s1) = (Ret msn, tr') ->
  0 < msn ->
  or_none (milestone later) = Some name' ->
  str_lower name' = str_lower name ->
  exists s',
    resolve_milestone gh args owner repo_name row s = (Ret (Some msn), s')
    /\ log s' = tr'
    /\ resolve_milestone gh args owner repo_name later s' = (Ret (Some msn), s').
Proof.
  intros Hno Hname Hready Hkey Hens Hpos Hname' Hcase.
  pose proof (resolve_milestone_guard gh args owner repo_name row name s s1 m msn tr'
                Hno Hname Hready Hkey Hens) as H.
  apply Z.ltb_lt in Hpos. rewrite Hpos in H.
  eexists. split; [exact H|]. split; [reflexivity|].
  eapply resolve_milestone_hit; [exact Hname' | reflexivity|].
  rewrite Hcase. apply lookup_insert_eq.
Qed.

Lemma milestone_created_once_sample :
  let s1 := set_cache v1_only (set_log [milestone_list_call] start) in
  let tr' := [milestone_list_call; milestone_list_call; milestone_post_call] in
  let later :=
    {| title := "Another"; body := EmptyString; labels := []; assignees := [];
       milestone := Some "V2"; project_owner := None; project_number := None;
       state := "open"; close_reason := None |} in
  exists s',
    resolve_milestone gh_ok (sample_args false) "o" "r" milestone_row start
    = (Ret (Some 2), s')
    /\ log s' = tr'
    /\ resolve_milestone gh_ok (sample_args false) "o" "r" later s' = (Ret (Some 2), s').
Proof.
  apply (milestone_created_once gh_ok (sample_args false) "o" "r" milestone_row _ "v2" "V2"
           start (set_cache v1_only (set_log [milestone_list_call] start)) v1_only 2).
  - reflexivity.
  - reflexivity.
  - right. split; [reflexivity|]. exists [milestone_list_call]. split; reflexivity.
  - reflexivity.
  - vm_compute. reflexivity.
  - lia.
  - reflexivity.
  - reflexivity.
Defined.

(** ** Creating an issue *)

Lemma append_assoc (a b c : string) : (a +:+ b) +:+ c = a +:+ (b +:+ c).
Proof. induction a as [|x a IH]; [reflexivity|]. rewrite !append_cons, IH. reflexivity. Qed.

Lemma str_lower_append (a b : string) : str_lower (a +:+ b) = str_lower a +:+ str_lower b.
Proof.
  induction a as [|x a IH]; [reflexivity|].
  rewrite append_cons. simpl. rewrite IH, append_cons. reflexivity.
Qed.

Lemma contains_ci_prepend (marker a x : string) :
  contains_ci marker x -> contains_ci marker (a +:+ x).
Proof.
  intros [before [after H]]. exists (str_lower a +:+ before), after.
  rewrite str_lower_append, H, append_assoc. reflexivity.
Qed.

Lemma contains_ci_extend (marker x b : string) :
  contains_ci marker x -> contains_ci marker (x +:+ b).
Proof.
  intros [before [after H]]. exists before, (after +:+ str_lower b).
  rewrite str_lower_append, H, !append_assoc. reflexivity.
Qed.

Lemma create_issue_via_api_failure (gh : remote) (owner repo_name : string) (row : IssueRow)
      (mn : option Z) (tr : list event) (code : Z) (out err : string) :
  gh tr (issue_request_cmd owner repo_name) (issue_request_body row mn) = Reply code out err ->
  code <> 0 ->
  create_issue_via_api gh owner repo_name row mn false tr
  = (Raise (creation_failure row mn err),
     tr ++ [Call (issue_request_cmd owner repo_name) (issue_request_body row mn)
                 (Reply code out err)]).
Proof.
  intros Hgh Hcode. unfold create_issue_via_api, bind. rewrite run_eq.
  fold (issue_request_cmd owner repo_name). fold (issue_request_body row mn).
  rewrite Hgh. apply Z.eqb_neq in Hcode. rewrite Hcode. reflexivity.
Qed.

Lemma create_issue_via_api_decoded (gh : remote) (owner repo_name : string) (row : IssueRow)
      (mn : option Z) (tr : list event) (out err : string) (d : list (string * json)) :
  gh tr (issue_request_cmd owner repo_name) (issue_request_body row mn) = Reply 0 out err ->
  json_loads out = Some (JDict d) ->
  create_issue_via_api gh owner repo_name row mn false tr
  = (match dict_get "number" d with
     | Some v =>
         fst ((n <- py_int v ;; u <- py_getitem (JDict d) "html_url" ;; ret (n, py_str u)) tr)
     | None => Raise (key_error "number")
     end,
     tr ++ [Call (issue_request_cmd owner repo_name) (issue_request_body row mn)
                 (Reply 0 out err)]).
Proof.
  intros Hgh Hout. unfold create_issue_via_api. unfold bind at 1. rewrite run_eq.
  fold (issue_request_cmd owner repo_name). fold (issue_request_body row mn).
  rewrite Hgh. simpl negb. cbv iota. rewrite Hout.
  unfold bind, py_getitem.
  destruct (dict_get "number" d) as [v|]; [|reflexivity].
  unfold ret at 1.
  destruct v; unfold py_int, ret, raise; try reflexivity;
    try (destruct (dict_get "html_url" d); reflexivity).
  destruct (int_of_str s); [destruct (dict_get "html_url" d)|]; reflexivity.
Qed.

Lemma create_issue_via_api_created (gh : remote) (owner repo_name : string) (row : IssueRow)
      (mn : option Z) (tr : list event) (out err : string) (d : list (string * json))
      (n : Z) (u : json) :
  gh tr (issue_request_cmd owner repo_name) (issue_request_body row mn) = Reply 0 out err ->
  json_loads out = Some (JDict d) ->
  dict_get "number" d = Some (JInt n) ->
  dict_get "html_url" d = Some u ->
  create_issue_via_api gh owner repo_name row mn false tr
  = (Ret (n, py_str u),
     tr ++ [Call (issue_request_cmd owner repo_name) (issue_request_body row mn)
                 (Reply 0 out err)]).
Proof.
  intros Hgh Hout Hn Hu.
  rewrite (create_issue_via_api_decoded _ _ _ _ _ _ _ _ _ Hgh Hout), Hn.
  unfold bind, py_int, py_getitem, ret. rewrite Hu. reflexivity.
Qed.

Lemma create_issue_via_api_log (gh : remote) (owner repo_name : string) (row : IssueRow)
      (mn : option Z) (tr : list event) :
  snd (create_issue_via_api gh owner repo_name row mn false tr)
  = tr ++ [Call (issue_request_cmd owner repo_name) (issue_request_body row mn)
                (gh tr (issue_request_cmd owner repo_name) (issue_request_body row mn))].
Proof.
  unfold create_issue_via_api, bind, run.
  fold (issue_request_cmd owner repo_name). fold (issue_request_body row mn).
  destruct (gh tr _ _) as [code out err|]; [|reflexivity].
  apply silent_response.
Qed.

Lemma retry_loop_grows (gh : remote) (owner repo_name : string) (row : IssueRow)
      (mn : option Z) (dry_run : bool) (retries : Z) (base : Q) (fuel : nat) :
  forall made tr out,
    retry_loop gh owner repo_name row mn dry_run retries base fuel made tr = Some out ->
    exists ext, snd out = tr ++ ext.
Proof.
  induction fuel as [|fuel IH]; intros made tr out H; [discriminate|].
  rewrite retry_loop_step in H.
  destruct (grows_create_issue_via_api gh owner repo_name row mn dry_run tr) as [ext [Hg _]].
  destruct (create_issue_via_api gh owner repo_name row mn dry_run tr) as [[r|e] tr'];
    simpl in Hg; subst tr'.
  - injection H as <-. exists ext. reflexivity.
  - destruct (negb (is_Exception e)); [injection H as <-; exists ext; reflexivity|].
    destruct ((retries <=? made + 1) || negb (is_transient e) || dry_run);
      [injection H as <-; exists ext; reflexivity|].
    destruct (retry_pause_grows retries base (made + 1) e (tr ++ ext)) as [ext1 Hp].
    destruct (retry_pause retries base (made + 1) e (tr ++ ext)) as [[[]|e'] tr''];
      simpl in Hp; subst tr''.
    + apply IH in H. destruct H as [ext' H]. rewrite H, <- !app_assoc.
      eexists. reflexivity.
    + injection H as <-. simpl. rewrite <- app_assoc. eexists. reflexivity.
Qed.

Lemma creation_failure_transient_title (row : IssueRow) (mn : option Z) (err marker : string) :
  In marker transient_markers -> contains_ci marker (title row) ->
  is_transient (creation_failure row mn err) = true.
Proof.
  intros Hm Hc. apply is_transient_spec. exists marker. split; [exact Hm|].
  unfold creation_failure. cbn [exn_text].
  apply contains_ci_prepend, contains_ci_extend, Hc.
Qed.

Lemma creation_failure_transient_err (row : IssueRow) (mn : option Z) (err marker : string) :
  In marker transient_markers -> contains_ci marker err ->
  is_transient (creation_failure row mn err) = true.
Proof.
  intros Hm Hc. apply is_transient_spec. exists marker. split; [exact Hm|].
  unfold creation_failure. cbn [exn_text].
  do 3 apply contains_ci_prepend. apply contains_ci_extend, Hc.
Qed.

(** X10. The wrapper looks for the markers of a transient error in the
    whole text of the exception, and that text quotes the title of the
    row.  So when the title holds a marker (case ignored), any creation
    request that ends with an error status, whatever the error says, is
    followed by the retry notice, a sleep of the base delay and a second
    request, if more than one attempt is allowed and the base delay is a
    duration that [time.sleep] accepts. *)
Theorem failure_of_row_with_marker_in_title_is_retried
        (gh : remote) (owner repo_name : string) (row : IssueRow) (mn : option Z)
        (retries : Z) (base : Q) (tr : list event) (code : Z) (out err marker : string) :
  In marker transient_markers ->
  contains_ci marker (title row) ->
  gh tr (issue_request_cmd owner repo_name) (issue_request_body row mn) = Reply code out err ->
  code <> 0 ->
  1 < retries ->
  sleep_error (backoff base 1) = None ->
  let failed :=
    tr ++ [Call (issue_request_cmd owner repo_name) (issue_request_body row mn)
                (Reply code out err);
           RetryNotice 1 retries (creation_failure row mn err) (backoff base 1);
           Sleep (backoff base 1)] in
  exists rest,
    snd (create_issue_with_retry gh owner repo_name row mn false retries base tr)
    = failed ++ Call (issue_request_cmd owner repo_name) (issue_request_body row mn)
                     (gh failed (issue_request_cmd owner repo_name) (issue_request_body row mn))
                :: rest.
Proof.
  intros Hm Hc Hgh Hcode Hr Hsleep failed.
  pose proof (create_issue_with_retry_loop gh owner repo_name row mn false retries base tr) as H.
  rewrite retry_loop_step, (create_issue_via_api_failure _ _ _ _ _ _ _ _ _ Hgh Hcode) in H.
  rewrite (creation_failure_transient_title row mn err marker Hm Hc) in H.
  change (is_Exception (creation_failure row mn err)) with true in H.
  cbn [negb orb] in H. cbv iota in H.
  replace (retries <=? 0 + 1) with false in H by (symmetry; apply Z.leb_gt; lia).
  cbv iota in H. change (0 + 1) with 1 in H.
  rewrite (retry_pause_accepted retries base 1 _ _ Hsleep) in H.
  rewrite <- app_assoc in H. cbn [app] in H. fold failed in H.
  destruct (Z.to_nat retries) as [|fuel] eqn:E; [lia|].
  rewrite retry_loop_step in H.
  pose proof (create_issue_via_api_log gh owner repo_name row mn failed) as Hlog.
  destruct (create_issue_via_api gh owner repo_name row mn false failed) as [[r|e] tr'];
    simpl in Hlog; subst tr'.
  - injection H as H. rewrite <- H. exists []. simpl. reflexivity.
  - destruct (negb (is_Exception e));
      [injection H as H; rewrite <- H; exists []; reflexivity|].
    destruct ((retries <=? 1 + 1) || negb (is_transient e) || false);
      [injection H as H; rewrite <- H; exists []; reflexivity|].
    match type of H with
    | context [retry_pause ?a ?b ?c ?d ?t] =>
        destruct (retry_pause_grows a b c d t) as [ext1 Hp];
        destruct (retry_pause a b c d t) as [[[]|e'] tr'']; simpl in Hp; subst tr''
    end.
    + apply retry_loop_grows in H. destruct H as [ext H]. rewrite H, <- !app_assoc.
      eexists. reflexivity.
    + injection H as H. rewrite <- H. simpl. rewrite <- !app_assoc. eexists. reflexivity.
Qed.

Lemma failure_of_row_with_marker_in_title_sample :
  let gh := gh_failing is_issue_post "Validation Failed" in
  let failed :=
    [Call (issue_request_cmd "o" "r") (issue_request_body timeout_row None)
          (Reply 1 EmptyString "Validation Failed");
     RetryNotice 1 3 (creation_failure timeout_row None "Validation Failed") (backoff 1 1);
     Sleep (backoff 1 1)] in
  exists rest,
    snd (create_issue_with_retry gh "o" "r" timeout_row None false 3 1 [])
    = failed ++ Call (issue_request_cmd "o" "r") (issue_request_body timeout_row None)
                     (gh failed (issue_request_cmd "o" "r") (issue_request_body timeout_row None))
                :: rest.
Proof.
  apply (failure_of_row_with_marker_in_title_is_retried
           (gh_failing is_issue_post "Validation Failed") "o" "r" timeout_row None 3 1 []
           1 EmptyString "Validation Failed" "timeout").
  - simpl. tauto.
  - exists "handle ", " of uploads". reflexivity.
  - reflexivity.
  - lia.
  - lia.
  - reflexivity.
Defined.

Lemma key_error_not_transient (k : string) :
  k = "number" \/ k = "html_url" -> is_transient (key_error k) = false.
Proof. intros [-> | ->]; reflexivity. Qed.

(** X11. An answer with status 0 whose JSON object has no [number] is not
    taken for a transient error: [create_issue_with_retry] raises the
    [KeyError] after this one request, whatever the number of attempts
    allowed, so the request, which may have created the issue, is not sent
    again. *)
Theorem reply_without_number_is_not_retried
        (gh : remote) (owner repo_name : string) (row : IssueRow) (mn : option Z)
        (retries : Z) (base : Q) (tr : list event) (out err : string)
        (d : list (string * json)) :
  gh tr (issue_request_cmd owner repo_name) (issue_request_body row mn) = Reply 0 out err ->
  json_loads out = Some (JDict d) ->
  dict_get "number" d = None ->
  create_issue_with_retry gh owner repo_name row mn false retries base tr
  = (Raise (key_error "number"),
     tr ++ [Call (issue_request_cmd owner repo_name) (issue_request_body row mn)
                 (Reply 0 out err)]).
Proof.
  intros Hgh Hout Hd.
  apply create_issue_with_retry_not_transient.
  - rewrite (create_issue_via_api_decoded _ _ _ _ _ _ _ _ _ Hgh Hout), Hd. reflexivity.
  - apply key_error_not_transient. left. reflexivity.
Qed.

Lemma reply_without_number_sample :
  create_issue_with_retry (fun _ _ _ => Reply 0 (dq "{'message': 'accepted'}") EmptyString)
                          "o" "r" timeout_row None false 3 1 []
  = (Raise (key_error "number"),
     [Call (issue_request_cmd "o" "r") (issue_request_body timeout_row None)
           (Reply 0 (dq "{'message': 'accepted'}") EmptyString)]).
Proof.
  apply (reply_without_number_is_not_retried
           (fun _ _ _ => Reply 0 (dq "{'message': 'accepted'}") EmptyString)
           "o" "r" timeout_row None 3 1 [] (dq "{'message': 'accepted'}") EmptyString
           [("message", JStr "accepted")]).
  - reflexivity.
  - vm_compute. reflexivity.
  - reflexivity.
Defined.

Lemma sleeps_app (t1 t2 : list event) : sleeps (t1 ++ t2) = sleeps t1 ++ sleeps t2.
Proof.
  induction t1 as [|e t1 IH]; [reflexivity|].
  destruct e; simpl; rewrite IH; reflexivity.
Qed.

Lemma retry_loop_exhausted (gh : remote) (owner repo_name : string) (row : IssueRow)
      (mn : option Z) (retries : Z) (base : Q) (code : Z) (out err : string) :
  (forall t, gh t (issue_request_cmd owner repo_name) (issue_request_body row mn)
             = Reply code out err) ->
  code <> 0 ->
  is_transient (creation_failure row mn err) = true ->
  (forall k, 1 <= k < retries -> wait_error base k = None) ->
  forall fuel made tr,
    0 <= made ->
    (Z.to_nat (Z.max 1 (retries - made)) <= fuel)%nat ->
    exists ext,
      retry_loop gh owner repo_name row mn false retries base fuel made tr
      = Some (Raise (creation_failure row mn err), tr ++ ext)
      /\ commands ext
         = repeat (issue_request_cmd owner repo_name) (Z.to_nat (Z.max 1 (retries - made)))
      /\ sleeps ext
         = map (fun k => backoff base (made + Z.of_nat k))
               (seq 1 (Z.to_nat (Z.max 1 (retries - made)) - 1)).
Proof.
  intros Hgh Hcode Ht Hwait. induction fuel as [|fuel IH]; intros made tr Hmade Hfuel; [lia|].
  rewrite retry_loop_step, (create_issue_via_api_failure _ _ _ _ _ _ _ _ _ (Hgh tr) Hcode), Ht.
  change (is_Exception (creation_failure row mn err)) with true.
  cbn [negb orb]. cbv iota.
  destruct (retries <=? made + 1) eqn:E; cbv iota.
  - apply Z.leb_le in E. eexists. split; [reflexivity|].
    replace (Z.to_nat (Z.max 1 (retries - made))) with 1%nat by lia.
    split; reflexivity.
  - apply Z.leb_gt in E.
    rewrite (retry_pause_accepted retries base (made + 1) _ _ (Hwait (made + 1) ltac:(lia))).
    destruct (IH (made + 1)
                 ((tr ++ [Call (issue_request_cmd owner repo_name) (issue_request_body row mn)
                               (Reply code out err)])
                  ++ [RetryNotice (made + 1) retries (creation_failure row mn err)
                                  (backoff base (made + 1));
                      Sleep (backoff base (made + 1))]))
      as [ext [Hloop [Hcmds Hsleeps]]]; [lia | lia |].
    rewrite Hloop. eexists. split; [rewrite <- !app_assoc; reflexivity|].
    replace (Z.to_nat (Z.max 1 (retries - made)))
      with (S (Z.to_nat (Z.max 1 (retries - (made + 1))))) by lia.
    split.
    + cbn [app commands]. rewrite Hcmds. reflexivity.
    + cbn [app sleeps]. rewrite Hsleeps.
      replace (S (Z.to_nat (Z.max 1 (retries - (made + 1)))) - 1)%nat
        with (S (Z.to_nat (Z.max 1 (retries - (made + 1))) - 1)) by lia.
      cbn [seq map]. f_equal.
      rewrite <- (seq_shift _ 1), map_map. apply map_ext. intros k. f_equal. lia.
Qed.

(** X12. When every creation request for a row ends with an error status
    and an error text that holds a marker of a transient error, and every
    pause that the retries call for can be made (the factor [2^(k-1)] fits
    a float and [time.sleep] accepts the duration),
    [create_issue_with_retry] gives up with that error after exactly
    [max 1 retries] requests, and between them it sleeps base, 2 base,
    4 base, ... seconds: [base * 2^(k-1)] after the k-th request, and not
    after the last. *)
Theorem retries_exhausted
        (gh : remote) (owner repo_name : string) (row : IssueRow) (mn : option Z)
        (retries : Z) (base : Q) (tr : list event) (code : Z) (out err marker : string) :
  (forall t, gh t (issue_request_cmd owner repo_name) (issue_request_body row mn)
             = Reply code out err) ->
  code <> 0 ->
  In marker transient_markers ->
  contains_ci marker err ->
  (forall k, 1 <= k < retries -> wait_error base k = None) ->
  exists ext,
    create_issue_with_retry gh owner repo_name row mn false retries base tr
    = (Raise (creation_failure row mn err), tr ++ ext)
    /\ commands ext = repeat (issue_request_cmd owner repo_name) (Z.to_nat (Z.max 1 retries))
    /\ sleeps ext
       = map (fun k => (base * inject_Z (2 ^ (Z.of_nat k - 1)))%Q)
             (seq 1 (Z.to_nat (Z.max 1 retries) - 1)).
Proof.
  intros Hgh Hcode Hm Hc Hwait.
  destruct (retry_loop_exhausted gh owner repo_name row mn retries base code out err Hgh Hcode
              (creation_failure_transient_err row mn err marker Hm Hc) Hwait
              (S (Z.to_nat retries)) 0 tr) as [ext [Hloop [Hcmds Hsleeps]]]; [lia | lia |].
  rewrite create_issue_with_retry_loop in Hloop. injection Hloop as Hloop.
  exists ext. split; [exact Hloop|].
  rewrite Z.sub_0_r in Hcmds, Hsleeps. split; [exact Hcmds|].
  rewrite Hsleeps. apply map_ext. intros k. reflexivity.
Qed.

Lemma retries_exhausted_sample :
  exists ext,
    create_issue_with_retry (gh_failing is_issue_post "HTTP 502: Bad Gateway") "o" "r"
                            timeout_row None false 3 (1 # 2) []
    = (Raise (creation_failure timeout_row None "HTTP 502: Bad Gateway"), [] ++ ext)
    /\ commands ext = repeat (issue_request_cmd "o" "r") (Z.to_nat (Z.max 1 3))
    /\ sleeps ext
       = map (fun k => ((1 # 2) * inject_Z (2 ^ (Z.of_nat k - 1)))%Q)
             (seq 1 (Z.to_nat (Z.max 1 3) - 1)).
Proof.
  apply (retries_exhausted (gh_failing is_issue_post "HTTP 502: Bad Gateway") "o" "r"
           timeout_row None 3 (1 # 2) [] 1 EmptyString "HTTP 502: Bad Gateway" "502").
  - intros t. reflexivity.
  - lia.
  - simpl. tauto.
  - exists "http ", ": bad gateway". reflexivity.
  - intros k Hk. assert (Hk' : k = 1 \/ k = 2) by lia. destruct Hk' as [-> | ->]; reflexivity.
Defined.

(** ** Reading the file *)

Lemma assoc_set_in {V} (k : option string) (v : V) (d : list (option string * V)) :
  In (k, v) (assoc_set key_eqb k v d).
Proof.
  induction d as [|[k' v'] d IH]; simpl; [left; reflexivity|].
  destruct (key_eqb k k'); [left; reflexivity | right; exact IH].
Qed.

Lemma normalize_excess (raw : raw_record) (k : option string) (x : string) (l : list string) :
  In (k, Rest (x :: l)) raw ->
  forall norm tr, normalize raw norm tr = (Raise strip_error, tr).
Proof.
  induction raw as [|[k' v] raw IH]; intros Hin norm tr; [destruct Hin|].
  simpl. destruct v as [s| |[|y r]]; try reflexivity;
    (destruct Hin as [Heq|Hin]; [discriminate Heq | apply IH, Hin]).
Qed.

Lemma dict_row_excess (fieldnames row : list string) :
  (length fieldnames < length row)%nat ->
  is_nil (dict_row fieldnames row) = false
  /\ forall norm tr, normalize (dict_row fieldnames row) norm tr = (Raise strip_error, tr).
Proof.
  intros Hlen. unfold dict_row. apply Nat.ltb_lt in Hlen. rewrite Hlen.
  apply Nat.ltb_lt in Hlen.
  assert (Hrest : exists x l, skipn (length fieldnames) row = x :: l).
  { destruct (skipn (length fieldnames) row) as [|x l] eqn:E; [|eauto].
    apply (f_equal (@length string)) in E. rewrite length_skipn in E. simpl in E. lia. }
  destruct Hrest as [x [l Hrest]]. rewrite Hrest.
  pose proof (assoc_set_in None (Rest (x :: l)) (zip_dict fieldnames row [])) as Hin.
  split.
  - destruct (assoc_set key_eqb None (Rest (x :: l)) (zip_dict fieldnames row []));
      [destruct Hin | reflexivity].
  - apply (normalize_excess _ None x l Hin).
Qed.

Lemma read_records_raises (records : list raw_record) (raw : raw_record) :
  In raw records ->
  is_nil raw = false ->
  (forall norm tr, normalize raw norm tr = (Raise strip_error, tr)) ->
  forall i tr, exists e tr',
    read_records i records tr = (Raise e, tr') /\ is_Exception e = true.
Proof.
  intros Hin Hnil Hraw.
  induction records as [|r records IH]; intros i tr; [destruct Hin|].
  simpl. destruct Hin as [->|Hin].
  - rewrite Hnil. unfold bind. rewrite Hraw. eexists. eexists. split; reflexivity.
  - destruct (is_nil r); [apply IH, Hin|].
    unfold bind at 1.
    assert (Hn : forall norm t e t', normalize r norm t = (Raise e, t') -> is_Exception e = true).
    { clear. induction r as [|[k v] r IHr]; intros norm t e t' H; simpl in H; [discriminate|].
      destruct v as [s| |[|y l]]; try (eapply IHr; exact H).
      injection H as <- _. reflexivity. }
    destruct (normalize r ∅ tr) as [[norm|e] tr1] eqn:En;
      [|eexists; eexists; split; [reflexivity | eapply Hn; exact En]].
    destruct (negb (truthy (get_or norm "title"))).
    + unfold bind, print, emit. apply IH, Hin.
    + unfold bind.
      destruct (or_none (norm !! "project_number")) as [p|].
      * destruct (str_isdigit p).
        -- destruct (int_of_str p) as [n|].
           ++ unfold ret at 1. destruct (IH Hin (i + 1) tr1) as [e [tr' [H He]]].
              rewrite H. eexists. eexists. split; [reflexivity | exact He].
           ++ eexists. eexists. split; reflexivity.
        -- unfold ret at 1. destruct (IH Hin (i + 1) tr1) as [e [tr' [H He]]].
           rewrite H. eexists. eexists. split; [reflexivity | exact He].
      * unfold ret at 1. destruct (IH Hin (i + 1) tr1) as [e [tr' [H He]]].
        rewrite H. eexists. eexists. split; [reflexivity | exact He].
Qed.

(** X13. A data line with more cells than the header makes [read_csv]
    fail as a whole: [csv.DictReader] stores the cells in excess as a
    list, the normalisation of the record calls [strip] on that list, and
    the exception leaves [read_csv], so no row of the file is returned,
    the well-formed ones included. *)
Theorem read_csv_line_longer_than_header
        (header : list string) (data : list (list string)) (line : list string)
        (tr : list event) :
  In line data ->
  (length header < length line)%nat ->
  exists e tr', read_csv (header :: data) tr = (Raise e, tr') /\ is_Exception e = true.
Proof.
  intros Hin Hlen. unfold read_csv, dict_reader.
  destruct (dict_row_excess header line Hlen) as [Hnil Hraise].
  apply (read_records_raises _ (dict_row header line)); [|exact Hnil | exact Hraise].
  apply in_map, filter_In. split; [exact Hin|].
  destruct line; [simpl in Hlen; lia | reflexivity].
Qed.

Lemma read_csv_line_longer_than_header_sample :
  exists e tr',
    read_csv [["title"; "labels"]; ["Fix login"; "bug"]; ["Write docs"; "docs"; "stray"]] []
    = (Raise e, tr') /\ is_Exception e = true.
Proof.
  apply (read_csv_line_longer_than_header ["title"; "labels"]
           [["Fix login"; "bug"]; ["Write docs"; "docs"; "stray"]]
           ["Write docs"; "docs"; "stray"] []).
  - right. left. reflexivity.
  - simpl. lia.
Defined.

Lemma assoc_set_not_nil {V} (k : option string) (v : V) (d : list (option string * V)) :
  is_nil (assoc_set key_eqb k v d) = false.
Proof. destruct d as [|[k' v'] d]; simpl; [|destruct (key_eqb k k')]; reflexivity. Qed.

Lemma zip_dict_not_nil (fieldnames row : list string) :
  forall d, is_nil d = false -> is_nil (zip_dict fieldnames row d) = false.
Proof.
  revert row. induction fieldnames as [|k ks IH]; intros row d Hd; [exact Hd|].
  destruct row as [|v vs]; [exact Hd|]. simpl. apply IH, assoc_set_not_nil.
Qed.

Lemma fold_missing_not_nil (ks : list string) :
  forall d : raw_record,
    is_nil d = false ->
    is_nil (fold_left (fun d k => assoc_set key_eqb (Some k) Missing d) ks d) = false.
Proof.
  induction ks as [|k ks IH]; intros d Hd; [exact Hd|]. simpl. apply IH, assoc_set_not_nil.
Qed.

Lemma dict_row_not_nil (fieldnames row : list string) :
  is_nil row = false -> is_nil (dict_row fieldnames row) = false.
Proof.
  intros Hrow. unfold dict_row.
  destruct (length fieldnames <? length row)%nat eqn:E; [apply assoc_set_not_nil|].
  apply Nat.ltb_ge in E. apply fold_missing_not_nil.
  destruct row as [|v vs]; [discriminate|].
  destruct fieldnames as [|k ks]; [simpl in E; lia|].
  simpl. apply zip_dict_not_nil. reflexivity.
Qed.

Lemma read_records_accounted (records : list raw_record) :
  Forall (fun raw => is_nil raw = false) records ->
  forall i tr rows tr',
    read_records i records tr = (Ret rows, tr') ->
    exists skipped,
      tr' = tr ++ map skip_notice skipped
      /\ (length rows + length skipped = length records)%nat
      /\ Forall (fun j => i <= j < i + Z.of_nat (length records)) skipped.
Proof.
  induction 1 as [|raw records Hraw Hall IH]; intros i tr rows tr' H; simpl in H.
  - injection H as <- <-. exists []. rewrite app_nil_r. repeat split. constructor.
  - rewrite Hraw in H. unfold bind in H.
    assert (Hn : forall norm t, snd (normalize raw norm t) = t).
    { clear. induction raw as [|[k v] raw IHr]; intros norm t; [reflexivity|].
      simpl. destruct v as [s| |[|y l]]; try apply IHr. reflexivity. }
    specialize (Hn ∅ tr).
    destruct (normalize raw ∅ tr) as [[norm|e] tr1]; [|discriminate].
    simpl in Hn. subst tr1.
    destruct (negb (truthy (get_or norm "title"))).
    + unfold print, emit in H. apply IH in H. destruct H as [skipped [Htr [Hlen Hidx]]].
      exists (i :: skipped). split; [|split].
      * rewrite Htr, <- app_assoc. reflexivity.
      * simpl. lia.
      * change (length (raw :: records)) with (S (length records)).
        constructor; [lia|].
        eapply List.Forall_impl; [|exact Hidx]. intros j Hj.
        change (i + 1 <= j < i + 1 + Z.of_nat (length records)) in Hj.
        change (i <= j < i + Z.of_nat (S (length records))). lia.
    + match type of H with
      | match ?c with _ => _ end = _ =>
          assert (Hc : snd c = tr);
          [| destruct c as [[pn|e] tr2]; [|discriminate]; simpl in Hc; subst tr2]
      end.
      { destruct (or_none (norm !! "project_number")) as [p|]; [|reflexivity].
        destruct (str_isdigit p); [|reflexivity].
        destruct (int_of_str p); reflexivity. }
      destruct (read_records (i + 1) records tr) as [[rest|e] tr3] eqn:Hrest; [|discriminate].
      injection H as <- <-. apply IH in Hrest.
      destruct Hrest as [skipped [Htr [Hlen Hidx]]].
      exists skipped. split; [exact Htr|]. split; [simpl; lia|].
      eapply List.Forall_impl; [|exact Hidx]. intros j Hj.
      change (i + 1 <= j < i + 1 + Z.of_nat (length records)) in Hj.
      change (i <= j < i + Z.of_nat (S (length records))). lia.
Qed.

(** X14. When [read_csv] returns, every data line of the file that is not
    empty has either become a row or been reported by one message
    [Skipping row i: missing title], and nothing else is printed.  The
    number [i] of a message counts the records from 2: it lies between 2
    and the number of non-empty data lines plus 1. *)
Theorem read_csv_accounts_for_every_line
        (lines : list (list string)) (tr : list event) (rows : list IssueRow)
        (tr' : list event) :
  read_csv lines tr = (Ret rows, tr') ->
  exists skipped,
    tr' = tr ++ map skip_notice skipped
    /\ (length rows + length skipped = length (data_lines lines))%nat
    /\ Forall (fun i => 2 <= i < 2 + Z.of_nat (length (data_lines lines))) skipped.
Proof.
  unfold read_csv, dict_reader, data_lines. intros H.
  destruct lines as [|header data].
  - simpl in H. injection H as <- <-. exists []. rewrite app_nil_r. repeat split. constructor.
  - apply read_records_accounted in H.
    + rewrite length_map in H. exact H.
    + apply List.Forall_forall. intros raw Hraw. apply in_map_iff in Hraw.
      destruct Hraw as [row [<- Hrow]]. apply filter_In in Hrow. destruct Hrow as [_ Hrow].
      apply dict_row_not_nil. apply negb_true_iff in Hrow. exact Hrow.
Qed.

Lemma read_csv_accounts_sample :
  exists skipped,
    [skip_notice 3] = [] ++ map skip_notice skipped
    /\ (length [closed_row] + length skipped
        = length (data_lines [["title"; "labels"; "state"; "close_reason"];
                              ["Fix login"; "bug"; "closed"; "completed"];
                              [];
                              [" "; "orphan"]]))%nat
    /\ Forall (fun i => 2 <= i < 2 + Z.of_nat
                 (length (data_lines [["title"; "labels"; "state"; "close_reason"];
                                      ["Fix login"; "bug"; "closed"; "completed"];
                                      [];
                                      [" "; "orphan"]]))) skipped.
Proof.
  apply (read_csv_accounts_for_every_line
           [["title"; "labels"; "state"; "close_reason"];
            ["Fix login"; "bug"; "closed"; "completed"];
            [];
            [" "; "orphan"]] [] [closed_row] [skip_notice 3]).
  vm_compute. reflexivity.
Defined.

(** ** Creating a milestone *)

(** X15. For a title that the listing lacks, [ensure_milestone] asks for
    the creation of the milestone, after the listing and with the title as
    given, and returns the number that the answer carries.  An answer
    with status 0 and a JSON object without [number] raises a [TypeError]
    ([int(None)]) instead: the caller sees a failure although the
    milestone has been created. *)
Theorem ensure_milestone_creates_missing_title
        (gh : remote) (owner repo_name title : string) (tr tr1 : list event)
        (m : gmap string Z) (out err : string) (d : list (string * json)) :
  get_milestones_map gh owner repo_name tr = (Ret m, tr1) ->
  m !! str_lower title = None ->
  gh tr1 (milestone_create_cmd owner repo_name title) None = Reply 0 out err ->
  json_loads out = Some (JDict d) ->
  ensure_milestone gh owner repo_name title false tr
  = (match dict_get "number" d with
     | Some v => fst (py_int v tr1)
     | None => Raise (int_type_error JNull)
     end,
     tr1 ++ [Call (milestone_create_cmd owner repo_name title) None (Reply 0 out err)]).
Proof.
  intros Hlist Hmiss Hgh Hout.
  unfold ensure_milestone. unfold bind at 1. rewrite Hlist, Hmiss.
  unfold bind. rewrite run_eq. fold (milestone_create_cmd owner repo_name title).
  rewrite Hgh. simpl negb. cbv iota. rewrite Hout.
  destruct (dict_get "number" d) as [v|]; [|reflexivity].
  destruct v; try reflexivity. simpl. destruct (int_of_str s); reflexivity.
Qed.

Lemma ensure_milestone_creates_sample :
  ensure_milestone gh_ok "o" "r" "v2" false []
  = (Ret 2, [milestone_list_call] ++ [milestone_post_call]).
Proof.
  apply (ensure_milestone_creates_missing_title gh_ok "o" "r" "v2" [] [milestone_list_call]
           v1_only (dq "{'number': 2}") EmptyString [("number", JInt 2)]).
  - reflexivity.
  - reflexivity.
  - reflexivity.
  - vm_compute. reflexivity.
Defined.

(** ** What a run may do *)

Section Permitted.
Variable gh : remote.
Variable args : Args.

Local Abbreviation calm := (steady (grows_by (permitted args))).
Local Abbreviation calmD := (steady (log_grows_by (permitted args))).

Lemma calm_gh_json (cmd : list string) :
  permitted_call args cmd None -> calm (gh_json gh cmd).
Proof. intros H. unfold gh_json. steady_auto. exact H. Qed.

Lemma calm_ensure_repo : calm (ensure_repo_name_with_owner gh (arg_repo args)).
Proof.
  unfold ensure_repo_name_with_owner.
  destruct (or_none (arg_repo args)) eqn:Hrepo; [steady_auto|].
  apply steady_bind; [solve [eauto with steady] | |].
  { apply calm_gh_json. apply call_repo_view. exact Hrepo. }
  intros data. steady_auto.
Qed.

Lemma calm_get_existing_labels (repo : string) :
  arg_no_label_create args = false -> calm (get_existing_labels gh repo).
Proof.
  intros Hflag. unfold get_existing_labels.
  apply steady_bind; [solve [eauto with steady] | |].
  { apply calm_gh_json. apply (call_label_list args repo Hflag). }
  intros data. steady_auto.
Qed.

Lemma calm_lower_names (names : list json) : calm (lower_names names).
Proof.
  induction names as [|v names IH]; simpl; [steady_auto|].
  destruct v; try solve [steady_auto].
  apply steady_bind; [solve [eauto with steady] | exact IH |]. intros r. steady_auto.
Qed.

Lemma calm_ensure_each_label (repo : string) (existing labels : list string) :
  arg_no_label_create args = false ->
  calm (ensure_each_label gh repo existing (arg_dry_run args) labels).
Proof.
  intros Hflag. induction labels as [|label rest IH]; simpl; [steady_auto|].
  apply steady_bind; [solve [eauto with steady] | | intros _; exact IH].
  destruct (mem (str_lower label) existing); [steady_auto|].
  destruct (arg_dry_run args) eqn:Hdry; [steady_auto|].
  apply steady_bind; [solve [eauto with steady] | |].
  { apply steady_run. intros r. apply (call_label_create args repo label Hflag Hdry). }
  intros [[code out] err]. steady_auto.
Qed.

Lemma calm_ensure_labels (repo : string) (labels : list string) :
  arg_no_label_create args = false ->
  calm (ensure_labels gh repo labels (arg_dry_run args)).
Proof.
  intros Hflag. unfold ensure_labels. destruct labels as [|l labels]; [steady_auto|].
  apply steady_bind; [solve [eauto with steady] | apply calm_get_existing_labels, Hflag |].
  intros names.
  apply steady_bind; [solve [eauto with steady] | apply calm_lower_names |]. intros existing.
  apply calm_ensure_each_label, Hflag.
Qed.

Lemma calm_milestones_of (items : list json) :
  forall mapping, calm (milestones_of items mapping).
Proof.
  induction items as [|m items IH]; intros mapping; simpl; [steady_auto|].
  destruct m; try apply IH.
  destruct (dict_get "title" l); [|apply IH].
  destruct (dict_get "number" l); [|apply IH].
  apply steady_bind; [solve [eauto with steady] | steady_auto |]. intros number. apply IH.
Qed.

Lemma calm_get_milestones_map (owner repo_name : string) :
  calm (get_milestones_map gh owner repo_name).
Proof.
  unfold get_milestones_map.
  apply steady_bind; [solve [eauto with steady] | |].
  { apply steady_run. intros r. apply (call_milestone_list args owner repo_name). }
  intros [[code out] err].
  destruct (negb (code =? 0)); [steady_auto|].
  destruct (json_loads out) as [v|]; [destruct v; try solve [steady_auto]|];
    apply calm_milestones_of.
Qed.

Lemma calm_ensure_milestone (owner repo_name title : string) :
  arg_no_milestone_create args = false ->
  calm (ensure_milestone gh owner repo_name title (arg_dry_run args)).
Proof.
  intros Hflag. unfold ensure_milestone.
  apply steady_bind; [solve [eauto with steady] | apply calm_get_milestones_map |].
  intros ms_map. destruct (ms_map !! str_lower title); [steady_auto|].
  destruct (arg_dry_run args) eqn:Hdry; [steady_auto|].
  apply steady_bind; [solve [eauto with steady] | |].
  { apply steady_run. intros r.
    apply (call_milestone_create args owner repo_name title Hflag Hdry). }
  intros [[code out] err]. steady_auto.
Qed.

Lemma calm_create_issue_via_api (owner repo_name : string) (row : IssueRow)
      (milestone_number : option Z) :
  calm (create_issue_via_api gh owner repo_name row milestone_number (arg_dry_run args)).
Proof.
  unfold create_issue_via_api. destruct (arg_dry_run args) eqn:Hdry; [steady_auto|].
  apply steady_bind; [solve [eauto with steady] | |].
  { apply steady_run. intros r. apply (call_issue_create args owner repo_name _ Hdry). }
  intros [[code out] err]. steady_auto.
Qed.

Lemma calm_add_issue_to_project_v2 (project_owner : string) (project_number : Z)
      (issue_url : string) :
  calm (add_issue_to_project_v2 gh project_owner project_number issue_url (arg_dry_run args)).
Proof.
  unfold add_issue_to_project_v2, print_command.
  destruct (arg_dry_run args) eqn:Hdry; [steady_auto|].
  apply steady_bind; [solve [eauto with steady] | |].
  { apply steady_run. intros r.
    apply (call_project_add args project_owner project_number issue_url Hdry). }
  intros [[code out] err]. steady_auto.
Qed.

Lemma calm_close_issue (issue repo : string) (reason : option string) :
  calm (close_issue gh issue repo reason (arg_dry_run args)).
Proof.
  unfold close_issue, print_command.
  destruct (arg_dry_run args) eqn:Hdry; [steady_auto|].
  apply steady_bind; [solve [eauto with steady] | |].
  { apply steady_run. intros r. apply (call_issue_close args issue repo reason Hdry). }
  intros [[code out] err]. steady_auto.
Qed.

Lemma calm_retry_pause (attempt : Z) (e : exn) :
  arg_dry_run args = false ->
  1 <= attempt < Z.max 1 (arg_retries args) ->
  calm (retry_pause (Z.max 1 (arg_retries args)) (q_max (1 # 10) (arg_retry_base_delay args))
                    attempt e).
Proof.
  intros Hdry Hk tr.
  destruct (wait_error (q_max (1 # 10) (arg_retry_base_delay args)) attempt) as [e'|] eqn:Hw.
  - rewrite (retry_pause_refused _ _ _ _ _ _ Hw). simpl.
    destruct (backoff_error attempt); [rewrite app_nil_r; apply grows_by_refl|].
    apply grows_by_one. simpl. rewrite Hdry. split; [reflexivity | exact Hk].
  - rewrite (retry_pause_accepted _ _ _ _ _ Hw). simpl.
    eexists. split; [reflexivity|].
    constructor; [|constructor; [|constructor]].
    + simpl. rewrite Hdry. split; [reflexivity | exact Hk].
    + simpl. rewrite Hdry. split; [reflexivity|]. right. exists attempt.
      split; [exact Hk | reflexivity].
Qed.

Lemma calm_retry_loop (owner repo_name : string) (row : IssueRow) (mn : option Z)
      (fuel : nat) :
  forall made tr out,
    0 <= made ->
    retry_loop gh owner repo_name row mn (arg_dry_run args) (Z.max 1 (arg_retries args))
               (q_max (1 # 10) (arg_retry_base_delay args)) fuel made tr = Some out ->
    grows_by (permitted args) tr (snd out).
Proof.
  induction fuel as [|fuel IH]; intros made tr out Hmade H; [discriminate|].
  rewrite retry_loop_step in H.
  pose proof (calm_create_issue_via_api owner repo_name row mn tr) as Hq.
  destruct (create_issue_via_api gh owner repo_name row mn (arg_dry_run args) tr)
    as [[r|e] tr']; simpl in Hq; [injection H as <-; exact Hq|].
  destruct (negb (is_Exception e)); [injection H as <-; exact Hq|].
  destruct (Z.max 1 (arg_retries args) <=? made + 1) eqn:Hlast;
    [injection H as <-; exact Hq|].
  destruct (negb (is_transient e)); [injection H as <-; exact Hq|].
  destruct (arg_dry_run args) eqn:Hdry; [injection H as <-; exact Hq|].
  simpl in H. apply Z.leb_gt in Hlast.
  pose proof (calm_retry_pause (made + 1) e Hdry ltac:(lia) tr') as Hp.
  destruct (retry_pause (Z.max 1 (arg_retries args))
                        (q_max (1 # 10) (arg_retry_base_delay args)) (made + 1) e tr')
    as [[[]|e'] tr'']; simpl in Hp.
  - apply IH in H; [|lia].
    eapply grows_by_trans; [exact Hq|]. eapply grows_by_trans; [exact Hp | exact H].
  - injection H as <-. eapply grows_by_trans; [exact Hq | exact Hp].
Qed.

Lemma calm_create_issue_with_retry (owner repo_name : string) (row : IssueRow)
      (mn : option Z) :
  calm (create_issue_with_retry gh owner repo_name row mn (arg_dry_run args)
          (Z.max 1 (arg_retries args)) (q_max (1 # 10) (arg_retry_base_delay args))).
Proof.
  intros tr. eapply calm_retry_loop; [|apply create_issue_with_retry_loop]. lia.
Qed.

Lemma calm_normalize (raw : raw_record) : forall norm, calm (normalize raw norm).
Proof.
  induction raw as [|[k v] raw IH]; intros norm; simpl; [steady_auto|].
  destruct v as [s| |[|x l]]; try apply IH. steady_auto.
Qed.

Lemma calm_read_records (records : list raw_record) : forall i, calm (read_records i records).
Proof.
  induction records as [|raw records IH]; intros i; simpl; [steady_auto|].
  destruct (is_nil raw); [apply IH|].
  apply steady_bind; [solve [eauto with steady] | apply calm_normalize |]. intros norm.
  destruct (negb (truthy (get_or norm "title"))).
  - apply steady_bind; [solve [eauto with steady] | steady_auto | intros _; apply IH].
  - apply steady_bind; [solve [eauto with steady] | steady_auto |]. intros pn.
    apply steady_bind; [solve [eauto with steady] | apply IH |]. intros rows. steady_auto.
Qed.

Lemma calm_print_all (lines : list string) : calm (print_all lines).
Proof.
  induction lines; simpl; [steady_auto|]. apply steady_bind; eauto with steady. steady_auto.
Qed.

Lemma calm_eprint_all (lines : list string) : calm (eprint_all lines).
Proof.
  induction lines; simpl; [steady_auto|]. apply steady_bind; eauto with steady. steady_auto.
Qed.

Lemma calm_render_progress (total done : Z) (current : option string) :
  calmD (render_progress args total done current).
Proof. unfold render_progress. steady_auto. Qed.

Lemma calm_resolve_milestone (owner repo_name : string) (row : IssueRow) :
  calmD (resolve_milestone gh args owner repo_name row).
Proof.
  unfold resolve_milestone.
  destruct (or_none (milestone row)) as [name|]; [|steady_auto].
  apply steady_bind; [solve [eauto with steady] | steady_auto |]. intros cache.
  apply steady_bind; [solve [eauto with steady] | |].
  { destruct cache; [steady_auto|].
    apply steady_bind; [solve [eauto with steady] | |].
    - apply steady_lift_log. apply calm_get_milestones_map.
    - intros m. apply steady_bind; [solve [eauto with steady] | |].
      + apply steady_modify. intros s. apply grows_by_refl.
      + intros _. steady_auto. }
  intros m. apply steady_bind; [solve [eauto with steady] | | intros _; steady_auto].
  destruct (m !! str_lower name); [steady_auto|].
  destruct (arg_no_milestone_create args) eqn:Hflag; [steady_auto|].
  apply steady_bind; [solve [eauto with steady] | |].
  - apply steady_lift_log. apply calm_ensure_milestone, Hflag.
  - intros msn. apply steady_when; [solve [eauto with steady]|].
    apply steady_modify. intros s. apply grows_by_refl.
Qed.

Lemma calm_create_and_attach (owner repo_name : string) (row : IssueRow) :
  calmD (create_and_attach gh args owner repo_name row).
Proof.
  unfold create_and_attach.
  apply steady_bind; [solve [eauto with steady] | apply calm_resolve_milestone |]. intros mn.
  apply steady_bind; [solve [eauto with steady] | |].
  { apply steady_lift_log. apply calm_create_issue_with_retry. }
  intros [number url].
  apply steady_bind; [solve [eauto with steady] | | intros _; steady_auto].
  destruct (or_none (project_owner row)); [|steady_auto].
  destruct (project_number row); [|steady_auto].
  apply steady_when; [solve [eauto with steady]|].
  apply steady_lift_log. apply calm_add_issue_to_project_v2.
Qed.

Lemma calm_row_steps (owner repo_name repo_full : string) (idx : Z) (row : IssueRow) :
  calmD (row_steps gh args owner repo_name repo_full idx row).
Proof.
  unfold row_steps.
  apply steady_bind; [solve [eauto with steady] | apply calm_create_and_attach |].
  intros [number url].
  apply steady_bind; [solve [eauto with steady] | |].
  { apply steady_when; [solve [eauto with steady]|].
    apply steady_lift_log. apply calm_close_issue. }
  intros _. apply steady_bind; [solve [eauto with steady] | |].
  { apply steady_modify. intros s. apply grows_by_refl. }
  intros _.
  destruct (q_lt 0 (arg_delay args) && negb (arg_dry_run args)) eqn:Hwait;
    [|intros s; apply grows_by_refl].
  apply andb_true_iff in Hwait. destruct Hwait as [Hpos Hdry].
  apply negb_true_iff in Hdry.
  apply steady_lift_log, steady_sleep. simpl. split; [exact Hdry|]. left.
  split; [reflexivity | exact Hpos].
Qed.

Lemma calm_record_failure (idx : Z) (row : IssueRow) (e : exn) :
  calmD (record_failure idx row e).
Proof.
  unfold record_failure.
  apply steady_bind; [solve [eauto with steady] | steady_auto |]. intros _.
  apply steady_modify. intros s. apply grows_by_refl.
Qed.

Lemma calm_process_row (owner repo_name repo_full : string) (total idx : Z) (row : IssueRow) :
  calmD (process_row gh args owner repo_name repo_full total idx row).
Proof.
  unfold process_row.
  apply steady_bind; [solve [eauto with steady] | |].
  { apply steady_when; [solve [eauto with steady] | apply calm_render_progress]. }
  intros _. apply steady_bind; [solve [eauto with steady] | |].
  { unfold try_row.
    apply steady_try_except; [solve [eauto with steady] | apply calm_row_steps |].
    intros e. apply calm_record_failure. }
  intros _. apply steady_when; [solve [eauto with steady] | apply calm_render_progress].
Qed.

Lemma calm_process_rows (owner repo_name repo_full : string) (total : Z)
      (rows : list IssueRow) :
  forall idx, calmD (process_rows gh args owner repo_name repo_full total idx rows).
Proof.
  induction rows as [|row rows IH]; intros idx; simpl; [steady_auto|].
  apply steady_bind; [solve [eauto with steady] | apply calm_process_row |].
  intros _. apply IH.
Qed.

Lemma calm_summary : calmD summary.
Proof.
  unfold summary.
  apply steady_bind; [solve [eauto with steady] | steady_auto |]. intros done.
  apply steady_bind; [solve [eauto with steady] | steady_auto |]. intros failed.
  apply steady_bind; [solve [eauto with steady] | steady_auto |]. intros _.
  apply steady_bind; [solve [eauto with steady] | steady_auto |]. intros _.
  apply steady_bind; [solve [eauto with steady] | |].
  { apply steady_lift_log. apply calm_print_all. }
  intros _. destruct (is_nil failed); [steady_auto|].
  apply steady_bind; [solve [eauto with steady] | steady_auto |]. intros _.
  apply steady_bind; [solve [eauto with steady] | |].
  { apply steady_lift_log. apply calm_eprint_all. }
  intros _. steady_auto.
Qed.

Lemma calm_import_rows (owner repo_name repo_full : string) (rows : list IssueRow) :
  calmD (import_rows gh args owner repo_name repo_full rows).
Proof.
  unfold import_rows.
  apply steady_bind; [solve [eauto with steady] | |].
  { destruct (arg_no_label_create args) eqn:Hflag; [intros s; apply grows_by_refl|].
    apply steady_lift_log. apply calm_ensure_labels, Hflag. }
  intros _. apply steady_bind; [solve [eauto with steady] | |].
  { apply steady_when; [solve [eauto with steady]|].
    apply steady_bind; [solve [eauto with steady] | steady_auto |].
    intros _. apply calm_render_progress. }
  intros _. apply steady_bind; [solve [eauto with steady] | apply calm_process_rows |].
  intros _. apply steady_bind; [solve [eauto with steady] | steady_auto |].
  intros _. apply calm_summary.
Qed.

Lemma calm_main (fs : string -> option (list (list string))) : calmD (main gh args fs).
Proof.
  unfold main.
  destruct (fs (arg_csv args)) as [lines|]; [|steady_auto].
  apply steady_bind; [solve [eauto with steady] | |].
  { apply steady_lift_log. apply calm_ensure_repo. }
  intros repo. destruct repo; try solve [steady_auto].
  destruct (str_split1 "/" s) as [|owner [|repo_name [|x l]]]; try solve [steady_auto].
  apply steady_bind; [solve [eauto with steady] | |].
  { apply steady_lift_log. apply calm_read_records. }
  intros rows. destruct (is_nil rows); [steady_auto|].
  apply calm_import_rows.
Qed.

Lemma calm_script (fs : string -> option (list (list string))) :
  Forall (permitted args) (log (snd (script gh args fs))).
Proof.
  unfold script. pose proof (calm_main fs start) as [ext [Hlog Hext]].
  destruct (main gh args fs start) as [[status|e] s]; simpl in Hlog; subst ext.
  - exact Hext.
  - destruct (is_Exception e); simpl; [exact Hext|].
    apply Forall_app. split; [exact Hext | repeat constructor].
Qed.

(** X16. A run waits only where it is meant to.  Every sleep in the log of
    the script is the pause of [--delay] seconds, made only when that
    delay is positive, or the pause [b * 2^(k-1)] before the retry that
    follows the [k]-th failed attempt, with [b = max 0.1 base] and
    [1 <= k < max 1 retries]; and in dry-run mode the script neither sleeps
    nor announces a retry. *)
Theorem script_waits_are_planned (fs : string -> option (list (list string))) :
  Forall (planned_wait args) (log (snd (script gh args fs))).
Proof.
  eapply List.Forall_impl; [|apply calm_script].
  intros e He. destruct e; try exact He. exact I.
Qed.

(** X17. The script starts no other command than these: [gh repo view]
    when no [--repo] is given; the listing and the creation of labels,
    never with [--no-label-create]; the listing of milestones; the
    creation of a milestone, never with [--no-milestone-create]; the
    request that creates an issue, the only command that is given an
    input; the addition to a project board; the closing of an issue.  In
    dry-run mode only the three commands that read are started. *)
Theorem script_calls_are_permitted (fs : string -> option (list (list string)))
        (cmd : list string) (input : option string) (r : reply) :
  In (Call cmd input r) (log (snd (script gh args fs))) ->
  permitted_call args cmd input.
Proof.
  intros Hin. pose proof (calm_script fs) as H.
  rewrite List.Forall_forall in H. exact (H _ Hin).
Qed.
End Permitted.

Lemma script_calls_sample :
  permitted_call (sample_args false) (issue_close_cmd issue_7_url "o/r" (Some "completed")) None.
Proof.
  apply (script_calls_are_permitted gh_ok (sample_args false) (one_file closed_row_file)
           (issue_close_cmd issue_7_url "o/r" (Some "completed")) None
           (Reply 0 EmptyString EmptyString)).
  vm_compute. do 3 right. left. reflexivity.
Defined.

(** ** The repository argument *)

Lemma str_split1_no_sep (sep : ascii) (x : string) :
  str_forallb (fun d => negb (Ascii.eqb d sep)) x = true -> str_split1 sep x = [x].
Proof.
  induction x as [|c x IH]; intros H; [reflexivity|].
  simpl in H. apply andb_true_iff in H. destruct H as [Hc Hx].
  simpl. apply negb_true_iff in Hc. rewrite Hc, (IH Hx). reflexivity.
Qed.

(** X18. A [--repo] argument without a slash is not reported as a usage
    error: [main] fails to unpack [repo_full.split("/", 1)], and the
    script ends with the traceback of that [ValueError] before it has read
    the file, printed anything or called [gh]. *)
Theorem repo_without_slash_ends_in_traceback
        (gh : remote) (args : Args) (fs : string -> option (list (list string)))
        (lines : list (list string)) (repo : string) :
  fs (arg_csv args) = Some lines ->
  arg_repo args = Some repo ->
  repo <> EmptyString ->
  has_char "/" repo = false ->
  script gh args fs = (Traceback unpack_error, start).
Proof.
  intros Hfs Hrepo Hne Hslash.
  assert (Hmain : main gh args fs start = (Raise unpack_error, start)).
  { unfold main. rewrite Hfs. unfold bind. rewrite lift_eq.
    unfold ensure_repo_name_with_owner. rewrite Hrepo.
    assert (Hor : or_none (Some repo) = Some repo)
      by (destruct repo; [congruence | reflexivity]).
    rewrite Hor. cbn [ret fst snd]. cbv iota beta.
    rewrite has_char_forallb in Hslash. apply negb_false_iff in Hslash.
    rewrite (str_split1_no_sep _ _ Hslash). reflexivity. }
  unfold script. rewrite Hmain. reflexivity.
Qed.

Lemma repo_without_slash_sample :
  script gh_ok
         {| arg_csv := "issues.csv"; arg_repo := Some "azemr"; arg_delay := 0;
            arg_dry_run := false; arg_no_label_create := false;
            arg_no_milestone_create := false; arg_retries := 3;
            arg_retry_base_delay := 1; arg_no_progress := true |}
         (one_file closed_row_file)
  = (Traceback unpack_error, start).
Proof.
  apply (repo_without_slash_ends_in_traceback gh_ok _ (one_file closed_row_file)
           closed_row_file "azemr").
  - reflexivity.
  - reflexivity.
  - discriminate.
  - reflexivity.
Defined.

(** ** The loop over the rows *)

Lemma increasing_from_weaken (l : list Z) :
  forall lo lo', lo' <= lo -> increasing_from lo l -> increasing_from lo' l.
Proof. destruct l as [|x t]; intros lo lo' Hle H; [exact I|]. simpl in *. split; [lia | tauto]. Qed.

(** X19. The loop over the rows records the issues it creates in the order
    of the rows: when it ends, the entries added to [created] carry
    strictly increasing row numbers, all between the number of the first
    row and that of the last, so no row is recorded twice and the summary
    lists the issues in the order of the file. *)
Theorem created_in_row_order
        (gh : remote) (args : Args) (owner repo_name repo_full : string) (total : Z)
        (rows : list IssueRow) :
  forall idx s s',
    process_rows gh args owner repo_name repo_full total idx rows s = (Ret tt, s') ->
    exists cs,
      created s' = created s ++ cs
      /\ increasing_from idx (map row_index cs)
      /\ Forall (fun c => row_index c < idx + Z.of_nat (length rows)) cs.
Proof.
  induction rows as [|row rows IH]; intros idx s s' H; simpl in H.
  - injection H as <-. exists []. rewrite app_nil_r. repeat split. constructor.
  - unfold bind in H.
    pose proof (process_row_spec gh args owner repo_name repo_full total idx row s) as H1.
    destruct (process_row gh args owner repo_name repo_full total idx row s) as [[[]|e] s1];
      [|discriminate].
    apply IH in H. destruct H as [cs [Hc [Hinc Hlt]]].
    assert (Hlt' : Forall (fun c => row_index c < idx + Z.of_nat (length (row :: rows))) cs).
    { eapply List.Forall_impl; [|exact Hlt]. intros c Hc'.
      change (row_index c < idx + 1 + Z.of_nat (length rows)) in Hc'.
      change (row_index c < idx + Z.of_nat (S (length rows))). lia. }
    assert (Hone : forall number url,
               created s1 = created s ++ [(idx, number, url)] ->
               exists cs0,
                 created s' = created s ++ cs0
                 /\ increasing_from idx (map row_index cs0)
                 /\ Forall (fun c => row_index c < idx + Z.of_nat (length (row :: rows))) cs0).
    { intros number url H1c.
      exists ((idx, number, url) :: cs). rewrite Hc, H1c, <- app_assoc.
      split; [reflexivity|]. split; [simpl; split; [unfold row_index; simpl; lia | exact Hinc]|].
      constructor; [|exact Hlt'].
      change (idx < idx + Z.of_nat (S (length rows))). lia. }
    destruct H1 as [[_ [number [url H1c]]] | [[H1c _] | [[number [url H1c]] _]]];
      [exact (Hone number url H1c) | | exact (Hone number url H1c)].
    exists cs. rewrite Hc, H1c. split; [reflexivity|].
    split; [apply (increasing_from_weaken _ (idx + 1)); [lia | exact Hinc] | exact Hlt'].
Qed.

Lemma created_in_row_order_sample :
  exists cs,
    [(1, "7", issue_7_url); (3, "7", issue_7_url)] = created start ++ cs
    /\ increasing_from 1 (map row_index cs)
    /\ Forall (fun c => row_index c < 1 + Z.of_nat (length [closed_row; sample_row; timeout_row]))
              cs.
Proof.
  apply (created_in_row_order (gh_failing is_milestone_list "boom") (sample_args false)
           "o" "r" "o/r" 3 [closed_row; sample_row; timeout_row] 1 start
           (snd (process_rows (gh_failing is_milestone_list "boom") (sample_args false)
                              "o" "r" "o/r" 3 1 [closed_row; sample_row; timeout_row] start))).
  vm_compute. reflexivity.
Defined.

(** ** The rows that are read *)

Lemma normalize_stripped (raw : raw_record) :
  forall norm tr norm' tr',
    normalize raw norm tr = (Ret norm', tr') ->
    (forall k v, norm !! k = Some v -> str_strip v = v) ->
    forall k v, norm' !! k = Some v -> str_strip v = v.
Proof.
  induction raw as [|[key c] raw IH]; intros norm tr norm' tr' H Hall; simpl in H.
  - injection H as <- _. exact Hall.
  - assert (Hins : forall x, str_strip x = x ->
                     forall k v,
                       <[str_lower (str_strip (default EmptyString key)) := x]> norm !! k
                       = Some v -> str_strip v = v).
    { intros x Hx k v Hk.
      destruct (decide (str_lower (str_strip (default EmptyString key)) = k)) as [<-|Hne].
      - rewrite lookup_insert_eq in Hk. injection Hk as <-. exact Hx.
      - rewrite lookup_insert_ne in Hk by exact Hne. eapply Hall. exact Hk. }
    destruct c as [s| |[|x l]].
    + eapply IH; [exact H|]. apply Hins. apply str_strip_idempotent.
    + eapply IH; [exact H|]. apply Hins. reflexivity.
    + eapply IH; [exact H|]. apply Hins. reflexivity.
    + discriminate H.
Qed.

Lemma or_none_clean (norm : gmap string string) (k : string) :
  (forall k v, norm !! k = Some v -> str_strip v = v) -> clean_option (or_none (norm !! k)).
Proof.
  intros Hall s Hs. destruct (norm !! k) as [v|] eqn:E; [|discriminate].
  simpl in Hs. destruct (truthy v) eqn:Ht; [|discriminate]. injection Hs as <-.
  split; [intros ->; discriminate | eapply Hall; exact E].
Qed.

Lemma get_or_stripped (norm : gmap string string) (k : string) :
  (forall k v, norm !! k = Some v -> str_strip v = v) -> str_strip (get_or norm k) = get_or norm k.
Proof.
  intros Hall. unfold get_or. destruct (norm !! k) as [v|] eqn:E; [|reflexivity].
  simpl. eapply Hall. exact E.
Qed.

Lemma int_digits_nonneg (s : string) :
  forall acc after n, 0 <= acc -> int_digits acc after s = Some n -> 0 <= n.
Proof.
  induction s as [|c r IH]; intros acc after n Hacc H; simpl in H.
  - destruct after; [injection H as <-; exact Hacc | discriminate].
  - destruct (is_ascii_digit c); [eapply IH; [|exact H]; lia|].
    destruct ((ord c =? 95)%nat && after)%bool; [|discriminate].
    destruct r as [|c' r']; [discriminate|].
    destruct (is_ascii_digit c'); [|discriminate]. eapply IH; [|exact H]. exact Hacc.
Qed.

Lemma int_of_digits_nonneg (p : string) (n : Z) :
  str_isdigit p = true -> int_of_str p = Some n -> 0 <= n.
Proof.
  unfold str_isdigit, int_of_str. intros Hd H. apply andb_true_iff in Hd.
  destruct Hd as [_ Hd]. apply str_forallb_strip in Hd.
  destruct (str_strip p) as [|c r]; [discriminate H|].
  simpl in Hd. apply andb_true_iff in Hd. destruct Hd as [Hc _].
  destruct c as [[|] [|] [|] [|] [|] [|] [|] [|]];
    try discriminate Hc; apply (int_digits_nonneg _ 0 false n) in H; try exact H; lia.
Qed.

Lemma read_records_normalised (records : list raw_record) :
  forall i tr rows tr',
    read_records i records tr = (Ret rows, tr') -> Forall row_normalised rows.
Proof.
  induction records as [|raw records IH]; intros i tr rows tr' H; simpl in H.
  - injection H as <- <-. constructor.
  - destruct (is_nil raw); [eapply IH; exact H|].
    unfold bind in H.
    destruct (normalize raw ∅ tr) as [[norm|e] tr1] eqn:Hnorm; [|discriminate].
    assert (Hall : forall k v, norm !! k = Some v -> str_strip v = v).
    { eapply normalize_stripped; [exact Hnorm|]. intros k v Hk.
      rewrite lookup_empty in Hk. discriminate. }
    destruct (negb (truthy (get_or norm "title"))).
    + unfold print, emit in H. eapply IH. exact H.
    + match type of H with
      | match ?c with _ => _ end = _ =>
          destruct c as [[pn|e] tr2] eqn:Hc; [|discriminate]
      end.
      assert (Hpn : forall n, pn = Some n -> 0 <= n).
      { intros n ->.
        destruct (or_none (norm !! "project_number")) as [p|]; [|discriminate].
        destruct (str_isdigit p) eqn:Hd; [|discriminate].
        destruct (int_of_str p) as [z|] eqn:Hz; [|discriminate].
        injection Hc as -> _. eapply int_of_digits_nonneg; eassumption. }
      destruct (read_records (i + 1) records tr2) as [[rest|e] tr3] eqn:Hrest; [|discriminate].
      injection H as <- <-. constructor; [|eapply IH; exact Hrest].
      unfold row_normalised. cbn [title body labels assignees milestone project_owner
                                   project_number close_reason].
      split; [apply get_or_stripped, Hall|].
      split; [apply get_or_stripped, Hall|].
      split; [apply List.Forall_forall; intros p; apply split_list_item_in|].
      split; [apply List.Forall_forall; intros p; apply split_list_item_in|].
      split; [apply or_none_clean, Hall|].
      split; [apply or_none_clean, Hall|].
      split; [apply or_none_clean, Hall | exact Hpn].
Qed.

(** X20. The rows that [read_csv] returns are normalised: title and body
    have no white space at either end; labels and assignees are non-empty
    stripped items without a semicolon; milestone, project owner and close
    reason are either absent or non-empty stripped texts, never an empty
    text; and the project number, kept only for a cell made of digits, is
    never negative. *)
Theorem read_csv_rows_normalised (lines : list (list string)) (tr tr' : list event)
        (rows : list IssueRow) :
  read_csv lines tr = (Ret rows, tr') -> Forall row_normalised rows.
Proof. unfold read_csv. apply read_records_normalised. Qed.

Lemma read_csv_rows_normalised_sample : Forall row_normalised [closed_row].
Proof.
  apply (read_csv_rows_normalised
           [["Title"; "Labels"; "State"; "Close_Reason"; "Project_Number"];
            [" Fix login "; " bug ;"; "closed"; " completed"; "-5"]] [] []).
  vm_compute. reflexivity.
Defined.

(** ** The names of the columns *)

Lemma key_eqb_eq (a b : option string) : key_eqb a b = true <-> a = b.
Proof.
  destruct a as [x|], b as [y|]; simpl; try (split; congruence).
  rewrite String.eqb_eq. split; congruence.
Qed.

Lemma assoc_set_fresh {V} (k : option string) (v : V) (d : list (option string * V)) :
  (forall p, In p d -> fst p <> k) -> assoc_set key_eqb k v d = d ++ [(k, v)].
Proof.
  induction d as [|[k' v'] d IH]; intros Hfresh; [reflexivity|].
  simpl. destruct (key_eqb k k') eqn:E.
  - apply key_eqb_eq in E. exfalso. apply (Hfresh (k', v')); [left; reflexivity|].
    symmetry. exact E.
  - rewrite IH; [reflexivity|]. intros p Hp. apply Hfresh. right. exact Hp.
Qed.

Lemma zip_dict_fresh (ks : list string) :
  forall vs (d : raw_record),
    List.NoDup ks ->
    (forall k p, In k ks -> In p d -> fst p <> Some k) ->
    zip_dict ks vs d
    = d ++ map (fun p => (Some (fst p), Text (snd p))) (combine ks vs).
Proof.
  induction ks as [|k ks IH]; intros vs d Hnd Hfresh; [simpl; symmetry; apply app_nil_r|].
  destruct vs as [|v vs]; [simpl; symmetry; apply app_nil_r|].
  apply List.NoDup_cons_iff in Hnd. destruct Hnd as [Hk Hnd].
  simpl. rewrite assoc_set_fresh by (intros p Hp; apply (Hfresh k p); [left; reflexivity | exact Hp]).
  rewrite IH; [rewrite <- app_assoc; reflexivity | exact Hnd |].
  intros k' p Hk' Hp. apply in_app_or in Hp. destruct Hp as [Hp | [<- | []]].
  - apply (Hfresh k' p); [right; exact Hk' | exact Hp].
  - simpl. intros E. injection E as ->. exact (Hk Hk').
Qed.

Lemma fold_missing_fresh (ks : list string) :
  forall d : raw_record,
    List.NoDup ks ->
    (forall k p, In k ks -> In p d -> fst p <> Some k) ->
    fold_left (fun d k => assoc_set key_eqb (Some k) Missing d) ks d
    = d ++ map (fun k => (Some k, Missing)) ks.
Proof.
  induction ks as [|k ks IH]; intros d Hnd Hfresh; [simpl; symmetry; apply app_nil_r|].
  apply List.NoDup_cons_iff in Hnd. destruct Hnd as [Hk Hnd].
  simpl. rewrite assoc_set_fresh by (intros p Hp; apply (Hfresh k p); [left; reflexivity | exact Hp]).
  rewrite IH; [rewrite <- app_assoc; reflexivity | exact Hnd |].
  intros k' p Hk' Hp. apply in_app_or in Hp. destruct Hp as [Hp | [<- | []]].
  - apply (Hfresh k' p); [right; exact Hk' | exact Hp].
  - simpl. intros E. injection E as ->. exact (Hk Hk').
Qed.

Lemma zip_cells_keys (ks vs : list string) (p : option string * cell) :
  In p (map (fun p => (Some (fst p), Text (snd p))) (combine ks vs)) ->
  exists k, fst p = Some k /\ In k (firstn (length vs) ks).
Proof.
  revert vs. induction ks as [|k ks IH]; intros vs H; [destruct H|].
  destruct vs as [|v vs]; [destruct H|]. simpl in H. destruct H as [<- | H].
  - exists k. split; [reflexivity | left; reflexivity].
  - destruct (IH vs H) as [k' [Hk' Hin]]. exists k'. split; [exact Hk' | right; exact Hin].
Qed.

(** The record of a line under a header without repeated names: the cells
    in the order of the header, then the cells in excess or the names
    without a cell. *)
Lemma dict_row_distinct (fieldnames row : list string) :
  List.NoDup fieldnames ->
  dict_row fieldnames row
  = map (fun p => (Some (fst p), Text (snd p))) (combine fieldnames row)
    ++ (if (length fieldnames <? length row)%nat
        then [(None, Rest (skipn (length fieldnames) row))]
        else map (fun k => (Some k, Missing)) (skipn (length row) fieldnames)).
Proof.
  intros Hnd. unfold dict_row.
  rewrite (zip_dict_fresh fieldnames row [] Hnd) by (intros k p _ []).
  rewrite app_nil_l.
  destruct (length fieldnames <? length row)%nat.
  - apply assoc_set_fresh. intros p Hp. apply zip_cells_keys in Hp.
    destruct Hp as [k [Hk _]]. congruence.
  - rewrite <- (firstn_skipn (length row) fieldnames) in Hnd.
    apply fold_missing_fresh.
    + apply List.NoDup_app_remove_l in Hnd. exact Hnd.
    + intros k p Hk Hp. apply zip_cells_keys in Hp. destruct Hp as [k' [Hk' Hin]].
      rewrite Hk'. intros E. injection E as ->.
      revert Hnd Hin Hk. generalize (firstn (length row) fieldnames) as l1.
      generalize (skipn (length row) fieldnames) as l2.
      intros l2 l1 Hnd Hin Hk. induction l1 as [|x l1 IHl]; [destruct Hin|].
      simpl in Hnd. apply List.NoDup_cons_iff in Hnd. destruct Hnd as [Hx Hnd].
      destruct Hin as [-> | Hin]; [apply Hx, in_or_app; right; exact Hk | exact (IHl Hnd Hin)].
Qed.

Lemma normalize_normal_form (raw : raw_record) :
  forall raw' norm tr,
    normal_form raw = normal_form raw' -> normalize raw norm tr = normalize raw' norm tr.
Proof.
  induction raw as [|[k v] raw IH]; intros [|[k' v'] raw'] norm tr H; try discriminate H;
    [reflexivity|].
  unfold normal_form in H. simpl in H. injection H as Hk Hv H. subst v'.
  simpl. rewrite Hk. destruct v as [s| |[|x l]]; try (apply IH; exact H). reflexivity.
Qed.

Lemma normal_form_dict_row (fieldnames row : list string) :
  List.NoDup fieldnames ->
  normal_form (dict_row fieldnames row)
  = map (fun p => (fst p, Text (snd p))) (combine (map column_name fieldnames) row)
    ++ (if (length (map column_name fieldnames) <? length row)%nat
        then [(EmptyString, Rest (skipn (length (map column_name fieldnames)) row))]
        else map (fun k => (k, Missing)) (skipn (length row) (map column_name fieldnames))).
Proof.
  intros Hnd. rewrite (dict_row_distinct _ _ Hnd). unfold normal_form.
  rewrite map_app, map_map, length_map. f_equal.
  - clear Hnd. revert row. induction fieldnames as [|k ks IH]; intros row; [reflexivity|].
    destruct row as [|v vs]; [reflexivity|]. simpl. rewrite IH. reflexivity.
  - destruct (length fieldnames <? length row)%nat; [reflexivity|].
    rewrite skipn_map, !map_map. reflexivity.
Qed.

Lemma read_records_same_records (records records' : list raw_record) :
  List.Forall2 (fun r r' => is_nil r = is_nil r'
                            /\ forall tr, normalize r ∅ tr = normalize r' ∅ tr)
               records records' ->
  forall i tr, read_records i records tr = read_records i records' tr.
Proof.
  induction 1 as [|r r' records records' [Hnil Hnorm] _ IH]; intros i tr; [reflexivity|].
  simpl. rewrite <- Hnil. destruct (is_nil r); [apply IH|].
  unfold bind. rewrite <- Hnorm.
  destruct (normalize r ∅ tr) as [[norm|e] tr1]; [|reflexivity].
  destruct (negb (truthy (get_or norm "title"))).
  - destruct (print _ tr1) as [[[]|e] tr2]; [apply IH | reflexivity].
  - match goal with
    | |- match ?c with _ => _ end = _ => destruct c as [[pn|e] tr2]; [|reflexivity]
    end.
    rewrite IH. reflexivity.
Qed.

(** X21. [read_csv] recognises the columns by their names with case and
    surrounding blanks ignored: two headers whose names are the same once
    stripped and lower-cased, and distinct from one another, give the same
    rows, messages and errors for the same data lines. *)
Theorem read_csv_header_names_normalised
        (header header' : list string) (data : list (list string)) (tr : list event) :
  map column_name header = map column_name header' ->
  List.NoDup (map column_name header) ->
  read_csv (header :: data) tr = read_csv (header' :: data) tr.
Proof.
  intros Hsame Hnd. unfold read_csv, dict_reader.
  assert (Hnd' : List.NoDup (map column_name header')) by (rewrite <- Hsame; exact Hnd).
  apply List.NoDup_map_inv in Hnd, Hnd'.
  apply read_records_same_records.
  generalize (List.filter (fun row => negb (is_nil row)) data) as rows.
  induction rows as [|row rows IH]; [constructor|].
  constructor; [|exact IH].
  assert (Hnf : normal_form (dict_row header row) = normal_form (dict_row header' row))
    by (rewrite !normal_form_dict_row, Hsame by assumption; reflexivity).
  split.
  - apply (f_equal (@length _)) in Hnf. unfold normal_form in Hnf. rewrite !length_map in Hnf.
    destruct (dict_row header row), (dict_row header' row); try discriminate Hnf; reflexivity.
  - intros t. apply normalize_normal_form, Hnf.
Qed.

Lemma read_csv_header_names_sample :
  read_csv [["Title"; " LABELS "; "State"]; ["Fix login"; "bug"; "closed"]] []
  = read_csv [["title"; "labels"; "state"]; ["Fix login"; "bug"; "closed"]] [].
Proof.
  apply (read_csv_header_names_normalised ["Title"; " LABELS "; "State"]
           ["title"; "labels"; "state"] [["Fix login"; "bug"; "closed"]] []).
  - reflexivity.
  - repeat constructor; simpl; intuition discriminate.
Defined.

(** ** The title and the state of a row *)

Lemma cell_absent (name : string) (header : list string) :
  forall line, ~ In name (map column_name header) -> cell_text name header line = EmptyString.
Proof.
  induction header as [|h hs IH]; intros line Hin; [reflexivity|].
  destruct line as [|c cs]; [reflexivity|]. simpl.
  destruct (String.eqb (column_name h) name) eqn:E.
  - apply String.eqb_eq in E. exfalso. apply Hin. left. exact E.
  - apply IH. intros H. apply Hin. right. exact H.
Qed.

Lemma cell_short (name : string) (header : list string) : cell_text name header [] = EmptyString.
Proof. destruct header; reflexivity. Qed.

(** The normalised record of a line under a header with distinct names:
    each name of the header is bound to its cell. *)
Lemma normalize_cells (header : list string) :
  forall line (acc : gmap string string) tr,
    List.NoDup (map column_name header) ->
    (length line <= length header)%nat ->
    exists norm,
      normalize (map (fun p => (Some (fst p), Text (snd p))) (combine header line)
                 ++ map (fun k => (Some k, Missing)) (skipn (length line) header)) acc tr
      = (Ret norm, tr)
      /\ (forall name, In name (map column_name header) ->
                       norm !! name = Some (cell_text name header line))
      /\ (forall name, ~ In name (map column_name header) -> norm !! name = acc !! name).
Proof.
  induction header as [|h hs IH]; intros line acc tr Hnd Hlen.
  - destruct line as [|c cs]; [|simpl in Hlen; lia]. simpl.
    exists acc. split; [reflexivity|]. split; [intros name []|]. reflexivity.
  - simpl in Hnd. apply List.NoDup_cons_iff in Hnd. destruct Hnd as [Hh Hnd].
    destruct line as [|c cs].
    + destruct (IH [] (<[column_name h := EmptyString]> acc) tr Hnd ltac:(simpl; lia))
        as [norm [Hnorm [Hin Hout]]].
      rewrite combine_nil in Hnorm.
      exists norm. split; [exact Hnorm|]. split.
      * intros name [<- | Hname].
        -- rewrite (Hout _ Hh), lookup_insert_eq. reflexivity.
        -- rewrite (Hin _ Hname), cell_short. reflexivity.
      * intros name Hname. rewrite Hout by (intros H; apply Hname; right; exact H).
        apply lookup_insert_ne. intros E. apply Hname. left. exact E.
    + destruct (IH cs (<[column_name h := str_strip c]> acc) tr Hnd
                   ltac:(simpl in Hlen; lia)) as [norm [Hnorm [Hin Hout]]].
      exists norm. split; [exact Hnorm|]. split.
      * intros name [<- | Hname].
        -- rewrite (Hout _ Hh), lookup_insert_eq. simpl. rewrite String.eqb_refl. reflexivity.
        -- rewrite (Hin _ Hname). simpl.
           destruct (String.eqb (column_name h) name) eqn:E; [|reflexivity].
           apply String.eqb_eq in E. subst name. contradiction.
      * intros name Hname. rewrite Hout by (intros H; apply Hname; right; exact H).
        apply lookup_insert_ne. intros E. apply Hname. left. exact E.
Qed.

Lemma dict_row_cells (header line : list string) (tr tr1 : list event)
      (norm : gmap string string) :
  List.NoDup (map column_name header) ->
  normalize (dict_row header line) ∅ tr = (Ret norm, tr1) ->
  forall name, get_or norm name = cell_text name header line.
Proof.
  intros Hnd Hnorm name.
  destruct (Nat.ltb_spec (length header) (length line)) as [Hlong|Hshort].
  { destruct (dict_row_excess header line Hlong) as [_ Hraise].
    rewrite Hraise in Hnorm. discriminate. }
  pose proof (List.NoDup_map_inv _ _ Hnd) as Hraw.
  rewrite (dict_row_distinct _ _ Hraw) in Hnorm.
  apply Nat.ltb_ge in Hshort. rewrite Hshort in Hnorm. apply Nat.ltb_ge in Hshort.
  destruct (normalize_cells header line ∅ tr Hnd Hshort) as [norm' [Hnorm' [Hin Hout]]].
  rewrite Hnorm' in Hnorm. injection Hnorm as <- _.
  unfold get_or.
  destruct (in_dec string_dec name (map column_name header)) as [Hname|Hname].
  - rewrite (Hin _ Hname). reflexivity.
  - rewrite (Hout _ Hname), lookup_empty, (cell_absent _ _ _ Hname). reflexivity.
Qed.

Lemma or_none_get_or (norm : gmap string string) (k : string) :
  or_none (norm !! k) = if truthy (get_or norm k) then Some (get_or norm k) else None.
Proof. unfold get_or. destruct (norm !! k) as [v|]; reflexivity. Qed.

Lemma read_records_rows_of_lines (header : list string) :
  List.NoDup (map column_name header) ->
  forall lines i tr rows tr',
    read_records i (map (dict_row header) lines) tr = (Ret rows, tr') ->
    List.Forall2 (row_of_line header)
                 (List.filter (fun line => truthy (cell_text "title" header line)) lines) rows.
Proof.
  intros Hnd. induction lines as [|line lines IH]; intros i tr rows tr' H; simpl in H.
  - injection H as <- _. constructor.
  - assert (Hskip : forall j t,
               read_records j (map (dict_row header) lines) t = (Ret rows, tr') ->
               truthy (cell_text "title" header line) = false ->
               List.Forall2 (row_of_line header)
                 (List.filter (fun l => truthy (cell_text "title" header l)) (line :: lines)) rows).
    { intros j t Hr Ht. simpl. rewrite Ht. eapply IH. exact Hr. }
    destruct (is_nil (dict_row header line)) eqn:Hnil.
    + apply (Hskip _ _ H). destruct (dict_row header line) eqn:E; [|discriminate].
      destruct line as [|c cs]; [rewrite cell_short; reflexivity|].
      pose proof (dict_row_not_nil header (c :: cs) eq_refl) as Hn.
      rewrite E in Hn. discriminate.
    + unfold bind in H.
      destruct (normalize (dict_row header line) ∅ tr) as [[norm|e] tr1] eqn:Hnorm;
        [|discriminate].
      pose proof (dict_row_cells header line tr tr1 norm Hnd Hnorm) as Hcell.
      destruct (truthy (get_or norm "title")) eqn:Htitle; cbn [negb] in H.
      * match type of H with
        | match ?c with _ => _ end = _ => destruct c as [[pn|e] tr2]; [|discriminate]
        end.
        destruct (read_records (i + 1) (map (dict_row header) lines) tr2)
          as [[rest|e] tr3] eqn:Hrest; [|discriminate].
        injection H as <- <-. simpl. rewrite <- Hcell, Htitle.
        constructor; [|eapply IH; exact Hrest].
        split; cbn [title state]; [apply Hcell|].
        rewrite or_none_get_or, Hcell. unfold state_of_cell.
        destruct (truthy (cell_text "state" header line)); reflexivity.
      * unfold print, emit in H. apply (Hskip _ _ H). rewrite <- Hcell. exact Htitle.
Qed.

(** C9 (as amended). Every row that the record parser produces has a title
    that is not empty and a state that is a lower-case text, not empty.
    When the names of the columns are distinct once stripped and
    lower-cased, the rows are, in order, those of the data lines that are
    not empty and have a title: each row has the stripped title cell of
    its line as title, and as state the stripped, lower-cased state cell
    of its line, or [open] when that cell is empty or absent. *)
Theorem read_csv_rows_well_formed (lines : list (list string)) (tr tr' : list event)
        (rows : list IssueRow) :
  read_csv lines tr = (Ret rows, tr') ->
  Forall row_well_formed rows
  /\ (List.NoDup (map column_name (hd [] lines)) ->
      List.Forall2 (row_of_line (hd [] lines)) (titled_lines lines) rows).
Proof.
  intros H. split; [eapply read_records_well_formed; exact H|].
  intros Hnd. unfold titled_lines, data_lines.
  destruct lines as [|header data].
  - simpl in H. injection H as <- _. constructor.
  - unfold read_csv, dict_reader in H. simpl hd. simpl tl.
    eapply read_records_rows_of_lines; [exact Hnd | exact H].
Qed.

Lemma read_csv_sample :
  Forall row_well_formed [closed_row]
  /\ (List.NoDup (map column_name (hd [] closed_row_file)) ->
      List.Forall2 (row_of_line (hd [] closed_row_file)) (titled_lines closed_row_file)
                   [closed_row]).
Proof.
  destruct (read_csv_rows_well_formed closed_row_file [] [] [closed_row] eq_refl) as [H1 H2].
  split; [exact H1 | exact H2].
Defined.

(** ** The project board *)

(** X22. When the issue of a row has been created and the command that
    adds it to the project board ends with an error status, the row is
    recorded as failed and not as created, although the issue exists, and
    the row is left at once: after the failed command the script only
    prints the error, so an issue that was to be closed stays open. *)
Theorem project_failure_fails_the_row
        (gh : remote) (args : Args) (owner repo_name repo_full : string) (idx : Z)
        (row : IssueRow) (s s0 : driver) (mn : option Z) (number : Z) (url : string)
        (tr1 : list event) (po : string) (pn code : Z) (out err : string) :
  arg_dry_run args = false ->
  resolve_milestone gh args owner repo_name row s = (Ret mn, s0) ->
  create_issue_with_retry gh owner repo_name row mn false (Z.max 1 (arg_retries args))
                          (q_max (1 # 10) (arg_retry_base_delay args)) (log s0)
  = (Ret (number, url), tr1) ->
  or_none (project_owner row) = Some po ->
  project_number row = Some pn ->
  pn <> 0 ->
  gh tr1 (project_add_cmd po pn url) None = Reply code out err ->
  code <> 0 ->
  exists s',
    try_row gh args owner repo_name repo_full idx row s = (Ret tt, s')
    /\ created s' = created s
    /\ errors s' = errors s ++ [failure_message idx row (project_failure po pn err)]
    /\ log s'
       = tr1 ++ [Call (project_add_cmd po pn url) None (Reply code out err);
                 Stderr ("ERROR: " +:+ failure_message idx row (project_failure po pn err))].
Proof.
  intros Hdry Hms Hcreate Hpo Hpn Hpn0 Hgh Hcode.
  pose proof (results_resolve_milestone gh args owner repo_name row s) as Hres.
  rewrite Hms in Hres. destruct Hres as [Hc He]. simpl in Hc, He.
  assert (Hattach :
            create_and_attach gh args owner repo_name row s
            = (Raise (project_failure po pn err),
               set_log (tr1 ++ [Call (project_add_cmd po pn url) None (Reply code out err)])
                       s0)).
  { unfold create_and_attach, bind. rewrite Hms, lift_eq, Hdry, Hcreate. cbn [fst snd].
    rewrite Hpo, Hpn. apply Z.eqb_neq in Hpn0. rewrite Hpn0. cbn [negb when].
    rewrite lift_eq. unfold add_issue_to_project_v2, bind. rewrite run_eq.
    fold (project_add_cmd po pn url). cbn [log set_log]. rewrite Hgh.
    apply Z.eqb_neq in Hcode. rewrite Hcode. reflexivity. }
  eexists. split; [|split; [|split]].
  - unfold try_row, try_except, row_steps, bind. rewrite Hattach.
    change (is_Exception (project_failure po pn err)) with true. cbv iota.
    unfold record_failure, bind. rewrite lift_eq. reflexivity.
  - simpl. exact Hc.
  - simpl. rewrite He. reflexivity.
  - simpl. rewrite <- app_assoc. reflexivity.
Qed.

Lemma project_failure_sample :
  let gh := gh_failing is_project_add "no such project" in
  let failure := project_failure "octo" 5 "no such project" in
  exists s',
    try_row gh (sample_args false) "o" "r" "o/r" 1 board_row start = (Ret tt, s')
    /\ created s' = created start
    /\ errors s' = errors start ++ [failure_message 1 board_row failure]
    /\ log s'
       = [Call issue_post_cmd (Some (dq "{'title': 'Fix login'}")) issue_7_reply]
         ++ [Call (project_add_cmd "octo" 5 issue_7_url) None
                  (Reply 1 EmptyString "no such project");
             Stderr ("ERROR: " +:+ failure_message 1 board_row failure)].
Proof.
  apply (project_failure_fails_the_row (gh_failing is_project_add "no such project")
           (sample_args false) "o" "r" "o/r" 1 board_row start start None 7 issue_7_url
           [Call issue_post_cmd (Some (dq "{'title': 'Fix login'}")) issue_7_reply]
           "octo" 5 1 EmptyString "no such project").
  - reflexivity.
  - reflexivity.
  - vm_compute. reflexivity.
  - reflexivity.
  - reflexivity.
  - lia.
  - reflexivity.
  - lia.
Defined.

(** ** A row that goes through *)

Lemma create_issue_with_retry_success (gh : remote) (owner repo_name : string) (row : IssueRow)
      (mn : option Z) (dry_run : bool) (retries : Z) (base : Q) (tr tr' : list event)
      (r : Z * string) :
  create_issue_via_api gh owner repo_name row mn dry_run tr = (Ret r, tr') ->
  create_issue_with_retry gh owner repo_name row mn dry_run retries base tr = (Ret r, tr').
Proof.
  intros Ha.
  pose proof (create_issue_with_retry_loop gh owner repo_name row mn dry_run retries base tr)
    as H.
  rewrite retry_loop_step, Ha in H. injection H as H. symmetry. exact H.
Qed.

(** X23. A row without milestone and project, not to be closed, whose
    creation request is answered at once with status 0 and a JSON object
    that holds an integer [number] and a text [html_url], takes exactly
    that one request: the row is recorded in [created] with its index,
    the decimal text of the number and the URL of the answer, nothing is
    recorded in [errors], and the script then sleeps [--delay] seconds if
    that delay is positive, provided it is a duration that [time.sleep]
    accepts. *)
Theorem plain_row_is_created
        (gh : remote) (args : Args) (owner repo_name repo_full : string) (idx : Z)
        (row : IssueRow) (s : driver) (out err : string) (d : list (string * json))
        (number : Z) (url : string) :
  arg_dry_run args = false ->
  pause_accepted args ->
  or_none (milestone row) = None ->
  or_none (project_owner row) = None ->
  String.eqb (state row) "closed" = false ->
  gh (log s) (issue_request_cmd owner repo_name) (issue_request_body row None)
  = Reply 0 out err ->
  json_loads out = Some (JDict d) ->
  dict_get "number" d = Some (JInt number) ->
  dict_get "html_url" d = Some (JStr url) ->
  exists s',
    try_row gh args owner repo_name repo_full idx row s = (Ret tt, s')
    /\ created s' = created s ++ [(idx, str_of_int number, url)]
    /\ errors s' = errors s
    /\ log s'
       = log s
         ++ [Call (issue_request_cmd owner repo_name) (issue_request_body row None)
                  (Reply 0 out err)]
         ++ (if q_lt 0 (arg_delay args) then [Sleep (arg_delay args)] else []).
Proof.
  intros Hdry Hpause Hms Hpo Hst Hgh Hout Hn Hu.
  pose proof (create_issue_with_retry_success gh owner repo_name row None false
                (Z.max 1 (arg_retries args)) (q_max (1 # 10) (arg_retry_base_delay args))
                _ _ _
                (create_issue_via_api_created gh owner repo_name row None (log s) out err d
                   number (JStr url) Hgh Hout Hn Hu)) as Hcreate.
  assert (Hattach :
            create_and_attach gh args owner repo_name row s
            = (Ret (number, url),
               set_log (log s ++ [Call (issue_request_cmd owner repo_name)
                                       (issue_request_body row None) (Reply 0 out err)]) s)).
  { unfold create_and_attach, resolve_milestone. rewrite Hms. unfold bind, ret.
    rewrite lift_eq, Hdry, Hcreate. cbn [fst snd py_str]. rewrite Hpo. reflexivity. }
  unfold pause_accepted in Hpause. rewrite Hdry, andb_true_r in Hpause.
  unfold try_row, try_except, row_steps, bind. rewrite Hattach, Hst, Hdry.
  cbn [when ret modify negb]. rewrite andb_true_r.
  destruct (q_lt 0 (arg_delay args)).
  - cbn [when]. rewrite lift_eq, (sleep_accepted _ _ (Hpause eq_refl)).
    eexists. split; [reflexivity|]. simpl.
    repeat split. rewrite <- app_assoc. reflexivity.
  - eexists. split; [reflexivity|]. simpl. repeat split.
Qed.

Lemma plain_row_sample :
  let args :=
    {| arg_csv := "issues.csv"; arg_repo := Some "o/r"; arg_delay := 1 # 2;
       arg_dry_run := false; arg_no_label_create := false;
       arg_no_milestone_create := false; arg_retries := 3;
       arg_retry_base_delay := 1; arg_no_progress := true |} in
  exists s',
    try_row gh_ok args "o" "r" "o/r" 1 timeout_row start = (Ret tt, s')
    /\ created s' = created start ++ [(1, str_of_int 7, issue_7_url)]
    /\ errors s' = errors start
    /\ log s'
       = log start
         ++ [Call (issue_request_cmd "o" "r") (issue_request_body timeout_row None)
                  (Reply 0 (dq "{'number': 7, 'html_url': 'https://github.com/o/r/issues/7'}")
                         EmptyString)]
         ++ (if q_lt 0 (arg_delay args) then [Sleep (arg_delay args)] else []).
Proof.
  apply (plain_row_is_created gh_ok _ "o" "r" "o/r" 1 timeout_row start
           (dq "{'number': 7, 'html_url': 'https://github.com/o/r/issues/7'}") EmptyString
           [("number", JInt 7); ("html_url", JStr issue_7_url)] 7 issue_7_url).
  - reflexivity.
  - intros _. reflexivity.
  - reflexivity.
  - reflexivity.
  - reflexivity.
  - reflexivity.
  - vm_compute. reflexivity.
  - reflexivity.
  - reflexivity.
Defined.
